(** * vorverse-next: the task orchestration engine of the media downloader bot

    A shallow embedding of the parts of [app/utils/url_parser.py],
    [app/services/db_service.py], [app/main.py] and [app/handlers] that
    classify urls, take the requests of the users, route them to a downloader
    service, run download jobs under the download semaphore, record their
    outcome in the download history, deliver the produced files and schedule
    the cleanup of the job directory.

    Conventions.
    - A Python [str] is a [string]; a character is a Latin-1 code point
      ([ascii]), so the whitespace and case tables below are the Latin-1 part
      of the ones CPython uses for [str.strip], [\s] and [re.IGNORECASE].
    - A Python [dict] is a [gmap]; [None] is [None] of an [option].
    - A raised exception is the [inl] of a sum, carrying [str(e)]. It is an
      [Exception]: the file system, the downloader and the transport raise
      such, and the calls of the database are taken to return. The
      cancellation of a task ([asyncio.CancelledError], which
      [except Exception] lets pass) has no counterpart here: what is proved
      of a job speaks of the runs in which its task is not cancelled.
    - The calls of the logger in the discovery and in the routing are left
      out; those of the job, of the delivery and of the cleanup are kept.
    - Time is a clock in seconds that the event loop advances between the
      steps of the tasks.

    The modules that embed the source come first, then the facts about
    them, then the properties of the engine. *)

From Stdlib Require Import ZArith List Ascii String Lia Bool.
From stdpp Require Import gmap strings list fin_maps pretty.

Local Open Scope string_scope.
Local Open Scope list_scope.

(** ** Strings *)

Module Str.

Definition code (c : ascii) : N := N_of_ascii c.

Definition in_range (lo hi : N) (c : ascii) : bool :=
  ((lo <=? code c) && (code c <=? hi))%N.

(** [str.isspace] on Latin-1: TAB..CR, FS..US, space, NEL and NBSP. *)
Definition is_space (c : ascii) : bool :=
  in_range 9 13 c || in_range 28 32 c || (code c =? 133)%N || (code c =? 160)%N.

Definition is_digit (c : ascii) : bool := in_range 48 57 c.

Definition is_upper_ascii (c : ascii) : bool := in_range 65 90 c.

(** Upper case letters of Latin-1: A..Z and À..Þ without the sign ×. *)
Definition is_upper (c : ascii) : bool :=
  is_upper_ascii c || (in_range 192 222 c && negb (code c =? 215)%N).

(** [str.lower] of one character. *)
Definition lower (c : ascii) : ascii :=
  if is_upper c then ascii_of_N (code c + 32) else c.

Fixpoint lower_str (s : string) : string :=
  match s with
  | "" => ""
  | String c s' => String (lower c) (lower_str s')
  end.

Fixpoint lstrip (s : string) : string :=
  match s with
  | "" => ""
  | String c s' => if is_space c then lstrip s' else s
  end.

(** Drops the trailing whitespace: a character is kept when it is not a
    space or when something is kept after it. *)
Fixpoint rstrip (s : string) : string :=
  match s with
  | "" => ""
  | String c s' =>
      match rstrip s' with
      | "" => if is_space c then "" else String c ""
      | t => String c t
      end
  end.

(** [s.strip()] *)
Definition strip (s : string) : string := rstrip (lstrip s).

(** [s.startswith(p)], returning what follows the prefix. *)
Fixpoint strip_prefix (p s : string) : option string :=
  match p, s with
  | "", _ => Some s
  | String a p', String b s' => if Ascii.eqb a b then strip_prefix p' s' else None
  | String _ _, "" => None
  end.

Definition startswith (s p : string) : bool :=
  match strip_prefix p s with Some _ => true | None => false end.

(** [s.endswith(p)] *)
Fixpoint endswith (s p : string) : bool :=
  String.eqb s p ||
  match s with
  | "" => false
  | String _ s' => endswith s' p
  end.

(** The longest prefix without whitespace, and what follows it. *)
Fixpoint span_nonspace (s : string) : string * string :=
  match s with
  | "" => ("", "")
  | String c s' =>
      if is_space c then ("", s)
      else let '(u, r) := span_nonspace s' in (String c u, r)
  end.

Fixpoint all_chars (p : ascii -> bool) (s : string) : bool :=
  match s with
  | "" => true
  | String c s' => p c && all_chars p s'
  end.

(** Python truthiness of a [str]. *)
Definition truthy (s : string) : bool := negb (String.eqb s "").

End Str.

(** ** Regular expressions

  The patterns of [URLParser] use literals, character classes, groups,
  alternation, [?] and [+]; none has a back-reference or a look-around, so
  whether [re.match] finds a match is a question about the language of the
  pattern. [matches] is that language, [re_match] decides it with
  derivatives. *)

Module Regex.

Inductive regex : Type :=
| Void
| Eps
| Cls (p : ascii -> bool)
| Cat (r1 r2 : regex)
| Alt (r1 r2 : regex)
| Star (r : regex).

Inductive matches : regex -> string -> Prop :=
| m_eps : matches Eps ""
| m_cls p c : p c = true -> matches (Cls p) (String c "")
| m_cat r1 r2 s1 s2 :
    matches r1 s1 -> matches r2 s2 -> matches (Cat r1 r2) (s1 +:+ s2)
| m_alt_l r1 r2 s : matches r1 s -> matches (Alt r1 r2) s
| m_alt_r r1 r2 s : matches r2 s -> matches (Alt r1 r2) s
| m_star_nil r : matches (Star r) ""
| m_star_app r s1 s2 :
    matches r s1 -> matches (Star r) s2 -> matches (Star r) (s1 +:+ s2).

Fixpoint nullable (r : regex) : bool :=
  match r with
  | Void => false
  | Eps => true
  | Cls _ => false
  | Cat r1 r2 => nullable r1 && nullable r2
  | Alt r1 r2 => nullable r1 || nullable r2
  | Star _ => true
  end.

Fixpoint deriv (c : ascii) (r : regex) : regex :=
  match r with
  | Void => Void
  | Eps => Void
  | Cls p => if p c then Eps else Void
  | Cat r1 r2 =>
      if nullable r1 then Alt (Cat (deriv c r1) r2) (deriv c r2)
      else Cat (deriv c r1) r2
  | Alt r1 r2 => Alt (deriv c r1) (deriv c r2)
  | Star r1 => Cat (deriv c r1) (Star r1)
  end.

(** [re.fullmatch]: the whole string is in the language. *)
Fixpoint full_match (r : regex) (s : string) : bool :=
  match s with
  | "" => nullable r
  | String c s' => full_match (deriv c r) s'
  end.

(** [re.match]: some prefix of the string is in the language. *)
Fixpoint re_match (r : regex) (s : string) : bool :=
  nullable r ||
  match s with
  | "" => false
  | String c s' => re_match (deriv c r) s'
  end.

(** *** Pattern syntax *)

Definition Opt (r : regex) : regex := Alt r Eps.
Definition Plus (r : regex) : regex := Cat r (Star r).
Definition chr (c : ascii) : regex := Cls (Ascii.eqb c).

(** A literal character under [re.IGNORECASE]. *)
Definition chr_i (c : ascii) : regex :=
  Cls (fun x => Ascii.eqb (Str.lower x) (Str.lower c)).

Fixpoint lit (s : string) : regex :=
  match s with
  | "" => Eps
  | String c s' => Cat (chr c) (lit s')
  end.

Fixpoint lit_i (s : string) : regex :=
  match s with
  | "" => Eps
  | String c s' => Cat (chr_i c) (lit_i s')
  end.

Fixpoint seq (rs : list regex) : regex :=
  match rs with
  | [] => Eps
  | r :: rs' => Cat r (seq rs')
  end.

End Regex.

(** ** [app/utils/url_parser.py] *)

Module URLParser.
Import Regex.

(** *** The pattern table *)

(** [[A-Za-z0-9]] *)
Definition alnum (c : ascii) : bool :=
  Str.in_range 65 90 c || Str.in_range 97 122 c || Str.is_digit c.

(** [[A-Za-z0-9_-]] *)
Definition word_dash (c : ascii) : bool :=
  alnum c || Ascii.eqb c "_" || Ascii.eqb c "-".

(** [[^/]] *)
Definition not_slash (c : ascii) : bool := negb (Ascii.eqb c "/").

(** [.] without [re.DOTALL]: everything but the line feed. *)
Definition dot (c : ascii) : bool := negb (Str.code c =? 10)%N.

(** [[^\s]] *)
Definition not_space (c : ascii) : bool := negb (Str.is_space c).

(** [(?:https?://)?] *)
Definition scheme_opt : regex :=
  Opt (seq [lit_i "http"; Opt (chr_i "s"); lit_i "://"]).

(** [(?:www\.)?] *)
Definition www_opt : regex := Opt (lit_i "www.").

Definition PATTERNS : list (string * list regex) :=
  [ ("tiktok",
      [ seq [scheme_opt; www_opt; lit_i "tiktok.com/@"; Plus (Cls not_slash);
             lit_i "/video/"; Plus (Cls Str.is_digit)];
        seq [scheme_opt; Alt (lit_i "vm.tiktok.com") (lit_i "vt.tiktok.com");
             lit_i "/"; Plus (Cls alnum)];
        seq [scheme_opt; www_opt; lit_i "tiktok.com/t/"; Plus (Cls alnum)] ]);
    ("douyin",
      [ seq [scheme_opt; www_opt; lit_i "douyin.com/video/"; Plus (Cls Str.is_digit)];
        seq [scheme_opt; lit_i "v.douyin.com/"; Plus (Cls alnum)] ]);
    ("instagram",
      [ seq [scheme_opt; www_opt; lit_i "instagram.com/p/"; Plus (Cls word_dash)];
        seq [scheme_opt; www_opt; lit_i "instagram.com/reel/"; Plus (Cls word_dash)];
        seq [scheme_opt; www_opt; lit_i "instagram.com/tv/"; Plus (Cls word_dash)] ]);
    ("youtube",
      [ seq [scheme_opt; www_opt; lit_i "youtube.com/watch?v="; Plus (Cls word_dash)];
        seq [scheme_opt; lit_i "youtu.be/"; Plus (Cls word_dash)];
        seq [scheme_opt; www_opt; lit_i "youtube.com/shorts/"; Plus (Cls word_dash)] ]);
    ("twitter",
      [ seq [scheme_opt; www_opt; lit_i "twitter.com/"; Plus (Cls not_slash);
             lit_i "/status/"; Plus (Cls Str.is_digit)];
        seq [scheme_opt; www_opt; lit_i "x.com/"; Plus (Cls not_slash);
             lit_i "/status/"; Plus (Cls Str.is_digit)] ]);
    ("facebook",
      [ seq [scheme_opt; www_opt; lit_i "facebook.com/"; Plus (Cls dot);
             lit_i "/videos/"; Plus (Cls Str.is_digit)];
        seq [scheme_opt; www_opt; lit_i "fb.watch/"; Plus (Cls word_dash)] ]) ].

(** *** [detect_platform] *)

(** The two nested [for] loops: the first platform, in the order of the
    table, one of whose patterns matches at the start of the url. *)
Fixpoint first_platform (table : list (string * list regex)) (url : string)
  : option string :=
  match table with
  | [] => None
  | (platform, patterns) :: table' =>
      if existsb (fun pattern => re_match pattern url) patterns
      then Some platform
      else first_platform table' url
  end.

Definition detect_platform (url : string) : option string :=
  let url := Str.strip url in
  first_platform PATTERNS url.

(** *** [extract_urls] *)

(** [url_pattern = r'https?://[^\s]+'], matched without [re.IGNORECASE]. *)
Definition url_pattern : regex :=
  seq [lit "http"; Opt (chr "s"); lit "://"; Plus (Cls not_space)].

(** The match of [url_pattern] that starts at the first character of [s],
    with what follows it: the scheme, then the whole run of characters up to
    the next whitespace, which must not be empty. *)
Definition url_at (s : string) : option (string * string) :=
  let run scheme t :=
    match Str.span_nonspace t with
    | ("", _) => None
    | (w, r) => Some (scheme +:+ w, r)
    end in
  match Str.strip_prefix "https://" s with
  | Some t => run "https://" t
  | None =>
      match Str.strip_prefix "http://" s with
      | Some t => run "http://" t
      | None => None
      end
  end.

(** [re.findall(url_pattern, text)]: the text is scanned from left to
    right; a match is taken where one starts and the scan goes on behind it.
    [skip] counts the characters of the last match still to be passed. *)
Fixpoint findall_from (skip : nat) (text : string) : list string :=
  match text with
  | "" => []
  | String _ text' =>
      match skip with
      | S k => findall_from k text'
      | O =>
          match url_at text with
          | Some (u, _) => u :: findall_from (String.length u - 1) text'
          | None => findall_from 0 text'
          end
      end
  end.

Definition findall_urls (text : string) : list string := findall_from 0 text.

(** The [for url in found_urls] loop, [urls] being the list built so far. *)
Fixpoint extract_loop (found_urls : list string) (urls : list (string * string))
  : list (string * string) :=
  match found_urls with
  | [] => urls
  | url :: rest =>
      match detect_platform url with
      | Some platform =>
          if Str.truthy platform
          then extract_loop rest (urls ++ [(url, platform)])
          else extract_loop rest urls
      | None => extract_loop rest urls
      end
  end.

Definition extract_urls (text : string) : list (string * string) :=
  extract_loop (findall_urls text) [].

Definition is_supported_url (url : string) : bool :=
  match detect_platform url with Some _ => true | None => false end.

Definition normalize_url (url : string) : string :=
  let url := Str.strip url in
  if Str.startswith url "http://" || Str.startswith url "https://"
  then url else "https://" +:+ url.

End URLParser.

(** ** Paths ([pathlib.Path] on a POSIX system) *)

Module Path.

(** [s.split("/")] *)
Fixpoint split (s : string) : list string :=
  match s with
  | "" => [""]
  | String c s' =>
      if Ascii.eqb c "/" then "" :: split s'
      else match split s' with
           | [] => [String c ""]
           | h :: t => String c h :: t
           end
  end.

(** The root of a path string: ["/"], ["//"] for exactly two leading
    slashes, nothing for a relative path. *)
Definition anchor (s : string) : list string :=
  match s with
  | String "/" (String "/" (String "/" _)) => ["/"]
  | String "/" (String "/" _) => ["//"]
  | String "/" _ => ["/"]
  | _ => []
  end.

Definition is_segment (x : string) : bool :=
  negb (String.eqb x "") && negb (String.eqb x ".").

(** [Path(s).parts]: the root, then the components that are neither empty
    nor a single dot. *)
Definition parts (s : string) : list string :=
  anchor s ++ List.filter is_segment (split s).

Definition is_anchor (x : string) : bool := String.eqb x "/" || String.eqb x "//".

(** [Path.name]: the last component, empty when there is none. *)
Definition name (p : list string) : string :=
  match last p with
  | Some x => if is_anchor x then "" else x
  | None => ""
  end.

(** [p / s] *)
Definition join (p : list string) (s : string) : list string :=
  match anchor s with
  | [] => p ++ parts s
  | _ => parts s
  end.

Fixpoint concat_with (sep : string) (xs : list string) : string :=
  match xs with
  | [] => ""
  | [x] => x
  | x :: xs' => x +:+ sep +:+ concat_with sep xs'
  end.

(** [str(p)] *)
Definition to_str (p : list string) : string :=
  match p with
  | [] => "."
  | x :: xs => if is_anchor x then x +:+ concat_with "/" xs else concat_with "/" p
  end.

Definition has_slash (s : string) : bool :=
  negb (Str.all_chars (fun c => negb (Ascii.eqb c "/")) s).

End Path.

(** ** The file system *)

Module Disk.

(** What a regular file holds: opaque data, or the members of an archive
    written by [zipfile.ZipFile], each with its archive name and the path it
    was read from. [zip_error] is the exception [ZipFile.write] raises when
    it is given the file, if it raises one: a modification time before 1980,
    a file that cannot be read. *)
Inductive content : Type :=
| Data
| Zip (members : list (string * string)).

Record node : Type :=
  mkNode { is_dir : bool; st_size : Z; body : content; zip_error : option string }.

Definition dir_node : node := mkNode true 4096 Data None.

Abbreviation disk := (gmap (list string) node).

(** [Path(s).exists()] *)
Definition path_exists (d : disk) (p : list string) : bool :=
  match d !! p with Some _ => true | None => false end.

Definition exists_ (d : disk) (s : string) : bool := path_exists d (Path.parts s).

(** [Path(s).stat().st_size], on a path that exists. *)
Definition size_of (d : disk) (s : string) : Z :=
  match d !! Path.parts s with Some n => st_size n | None => 0 end.

(** [p.mkdir(parents=True, exist_ok=True)]: [done] is the part of the path
    already walked, [todo] the components still to create. *)
Fixpoint mkdirs (done todo : list string) (d : disk) : string + disk :=
  match todo with
  | [] => inr d
  | x :: todo' =>
      let q := done ++ [x] in
      match d !! q with
      | Some n =>
          if is_dir n then mkdirs q todo' d
          else inl ("[Errno 17] File exists: '" +:+ Path.to_str q +:+ "'")
      | None => mkdirs q todo' (<[q := dir_node]> d)
      end
  end.

Definition mkdir_parents (p : list string) (d : disk) : string + disk := mkdirs [] p d.

Definition beneath (p q : list string) : bool := bool_decide (p `prefix_of` q).

(** [shutil.rmtree(p)] *)
Definition rmtree (p : list string) (d : disk) : string + disk :=
  match d !! p with
  | Some n =>
      if is_dir n then inr (filter (fun kv => negb (beneath p kv.1) = true) d)
      else inl ("[Errno 20] Not a directory: '" +:+ Path.to_str p +:+ "'")
  | None => inl ("[Errno 2] No such file or directory: '" +:+ Path.to_str p +:+ "'")
  end.

(** [p.unlink(missing_ok=True)] *)
Definition unlink_missing_ok (p : list string) (d : disk) : string + disk :=
  match d !! p with
  | Some n =>
      if is_dir n then inl ("[Errno 21] Is a directory: '" +:+ Path.to_str p +:+ "'")
      else inr (delete p d)
  | None => inr d
  end.

(** Size of an archive stored without compression: a local header and a
    central directory record for each member, and the end record. *)
Definition zip_size (d : disk) (members : list (string * string)) : Z :=
  fold_right (fun m acc =>
                (76 + 2 * Z.of_nat (String.length m.1) + size_of d m.2 + acc)%Z)
             22%Z members.

End Disk.

(** ** [app/services/db_service.py]: the download history *)

Module DB.

(** A row of [download_history]; the primary key [id] is the key of the
    table. [NULL] is [None]. *)
Record DownloadHistory : Type := mkRow {
  user_id : Z;
  url : string;
  platform : string;
  status : string;
  file_path : option string;
  file_size : option Z;
  created_at : Z;
  completed_at : option Z;
  error_message : option string
}.

Abbreviation table := (gmap Z DownloadHistory).

(** Truth value of an optional [str] and of an optional [int] argument. *)
Definition truthy_str (o : option string) : bool :=
  match o with Some s => Str.truthy s | None => false end.

Definition truthy_int (o : option Z) : bool :=
  match o with Some n => negb (n =? 0)%Z | None => false end.

Definition set_status (v : string) (r : DownloadHistory) : DownloadHistory :=
  mkRow (user_id r) (url r) (platform r) v (file_path r) (file_size r)
        (created_at r) (completed_at r) (error_message r).

Definition set_file_path (v : option string) (r : DownloadHistory) : DownloadHistory :=
  mkRow (user_id r) (url r) (platform r) (status r) v (file_size r)
        (created_at r) (completed_at r) (error_message r).

Definition set_file_size (v : option Z) (r : DownloadHistory) : DownloadHistory :=
  mkRow (user_id r) (url r) (platform r) (status r) (file_path r) v
        (created_at r) (completed_at r) (error_message r).

Definition set_error_message (v : option string) (r : DownloadHistory) : DownloadHistory :=
  mkRow (user_id r) (url r) (platform r) (status r) (file_path r) (file_size r)
        (created_at r) (completed_at r) v.

Definition set_completed_at (v : option Z) (r : DownloadHistory) : DownloadHistory :=
  mkRow (user_id r) (url r) (platform r) (status r) (file_path r) (file_size r)
        (created_at r) v (error_message r).

(** The key the database gives to a new row: one more than the largest. *)
Definition next_id (t : table) : Z :=
  (1 + map_fold (fun k _ acc => Z.max k acc) 0 t)%Z.

(** [create_download_record]; [utcnow] is the clock reading. *)
Definition create_download_record (utcnow : Z) (uid : Z) (u p : string) (t : table)
  : Z * table :=
  let record := mkRow uid u p "pending" None None utcnow None None in
  let rid := next_id t in
  (rid, <[rid := record]> t).

(** [update_download_record] *)
Definition update_download_record (utcnow : Z) (record_id : Z) (new_status : string)
  (new_file_path : option string) (new_file_size : option Z)
  (new_error_message : option string) (t : table) : table :=
  match t !! record_id with
  | Some record =>
      let record := set_status new_status record in
      let record :=
        if truthy_str new_file_path then set_file_path new_file_path record else record in
      let record :=
        if truthy_int new_file_size then set_file_size new_file_size record else record in
      let record :=
        if truthy_str new_error_message
        then set_error_message new_error_message record else record in
      let record :=
        if String.eqb new_status "completed"
        then set_completed_at (Some utcnow) record else record in
      <[record_id := record]> t
  | None => t
  end.

End DB.

(** ** [app/main.py]: service discovery and routing *)

Module Registry.

(** A downloader service object. Two objects are the same instance when
    their [instance_id] is the same. *)
Record service : Type := mkService { instance_id : nat; class_name : string }.

(** What importing a module of [app/services] and building its service
    gives: no class whose name ends in [Service] and has a [download]
    attribute, an import that raises, a constructor that raises, or a
    service object of class [cls]. *)
Inductive module_outcome : Type :=
| NoServiceClass
| ImportFails (e : string)
| InitFails (cls e : string)
| Provides (cls : string).

(** [s.replace(old, "")]: [skip] counts the characters of the occurrence of
    [old] being removed that are still to be dropped. *)
Fixpoint remove_from (skip : nat) (old s : string) : string :=
  match s with
  | "" => ""
  | String c s' =>
      match skip with
      | S k => remove_from k old s'
      | O =>
          if negb (String.eqb old "") && Str.startswith s old
          then remove_from (String.length old - 1) old s'
          else String c (remove_from 0 old s')
      end
  end.

Definition remove_all (old s : string) : string := remove_from 0 old s.

(** What stands before and behind the last dot of [s]. *)
Fixpoint split_last_dot (s : string) : option (string * string) :=
  match s with
  | "" => None
  | String c s' =>
      match split_last_dot s' with
      | Some (a, b) => Some (String c a, b)
      | None => if Ascii.eqb c "." then Some ("", s') else None
      end
  end.

(** [Path.stem] of a file name. *)
Definition stem (file_name : string) : string :=
  match file_name with
  | "" => ""
  | String c rest =>
      match split_last_dot rest with
      | Some (a, b) => if String.eqb b "" then file_name else String c a
      | None => file_name
      end
  end.

Definition fallback_platforms : list string := ["youtube"; "twitter"; "facebook"; "generic"].

(** The registrations made for one service object. *)
Definition register (service_name : string) (service_instance : service)
  (services : gmap string service) : gmap string service :=
  let services := <[service_name := service_instance]> services in
  if String.eqb service_name "tiktok" then
    <["douyin" := service_instance]> services
  else if String.eqb service_name "ytdlp" then
    fold_left (fun acc platform =>
                 match acc !! platform with
                 | Some _ => acc
                 | None => <[platform := service_instance]> acc
                 end)
              fallback_platforms services
  else services.

(** The loop over [service_files]; [fresh] numbers the objects built. *)
Fixpoint discover_loop (service_files : list (string * module_outcome)) (fresh : nat)
  (services : gmap string service) : gmap string service :=
  match service_files with
  | [] => services
  | (file_name, outcome) :: rest =>
      if String.eqb file_name "base_downloader.py" || String.eqb file_name "__init__.py"
      then discover_loop rest fresh services
      else
        let module_name := stem file_name in
        let service_name := remove_all "_service" module_name in
        match outcome with
        | Provides cls =>
            discover_loop rest (S fresh) (register service_name (mkService fresh cls) services)
        | InitFails _ _ => discover_loop rest (S fresh) services
        | NoServiceClass | ImportFails _ => discover_loop rest fresh services
        end
  end.

(** [_discover_services]: [listing] is the content of [app/services] in the
    order the directory scan returns it; the glob keeps [*_service.py]. *)
Definition _discover_services (listing : list (string * module_outcome))
  : gmap string service :=
  let service_files :=
    List.filter (fun f => Str.endswith f.1 "_service.py") listing in
  discover_loop service_files 0 ∅.

(** The lookup made at the end of [get_service_for_url], once the platform
    is known: the service registered for the platform, else the one
    registered as [generic]. A service object is always true. *)
Definition lookup (services : gmap string service) (platform : string) : option service :=
  let service := services !! platform in
  match service with
  | Some s => Some s
  | None =>
      let generic_service := services !! "generic" in
      match generic_service with
      | Some g => Some g
      | None => None
      end
  end.

(** [get_service_for_url]; nothing in its [try] block raises. *)
Definition get_service_for_url (services : gmap string service) (url : string)
  : option service :=
  match URLParser.detect_platform url with
  | Some platform =>
      if Str.truthy platform then lookup services platform
      else services !! "generic"
  | None => services !! "generic"
  end.

End Registry.

(** ** [app/main.py]: the download job

    The job runs in a world made of the download history, the file system,
    the clock, the chat transport and the pending cleanup timers. What the
    transport answers to the successive calls is given by [network], what the
    downloader does by the [download] field of the environment. *)

Module Bot.
Import Disk Registry.

Record Config : Type := mkConfig {
  MAX_CONCURRENT_DOWNLOADS : Z;
  DOWNLOAD_PATH : string;
  CLEANUP_DELAY_HOURS : Z
}.

(** A call of the chat client. *)
Inductive call : Type :=
| send_message (chat_id : Z) (text : string)
| send_document (chat_id : Z) (document : string) (caption : string)
| send_video (chat_id : Z) (video : string) (caption : string)
| send_photo (chat_id : Z) (photo : string) (caption : string).

(** A call as the transport saw it: the file at the path that was passed,
    read when the call was made, and the exception it raised, if any. *)
Record delivery : Type := mkDelivery {
  what : call;
  upload : option node;
  outcome : option string
}.

(** A cleanup task sleeping until [due]. *)
Record timer : Type := mkTimer { due : Z; timer_user_id : Z; timer_record_id : Z }.

Record world : Type := mkWorld {
  ledger : gmap Z DB.DownloadHistory;
  disk : gmap (list string) node;
  clock : Z;
  network : list (option string);
  sent : list delivery;
  tmp_names : list string;
  logs : list (string * string);
  timers : list timer
}.

Definition set_ledger (v : gmap Z DB.DownloadHistory) (w : world) : world :=
  mkWorld v (disk w) (clock w) (network w) (sent w) (tmp_names w) (logs w) (timers w).

Definition set_disk (v : gmap (list string) node) (w : world) : world :=
  mkWorld (ledger w) v (clock w) (network w) (sent w) (tmp_names w) (logs w) (timers w).

Definition set_clock (v : Z) (w : world) : world :=
  mkWorld (ledger w) (disk w) v (network w) (sent w) (tmp_names w) (logs w) (timers w).

Definition set_network (v : list (option string)) (w : world) : world :=
  mkWorld (ledger w) (disk w) (clock w) v (sent w) (tmp_names w) (logs w) (timers w).

Definition set_sent (v : list delivery) (w : world) : world :=
  mkWorld (ledger w) (disk w) (clock w) (network w) v (tmp_names w) (logs w) (timers w).

Definition set_tmp_names (v : list string) (w : world) : world :=
  mkWorld (ledger w) (disk w) (clock w) (network w) (sent w) v (logs w) (timers w).

Definition set_logs (v : list (string * string)) (w : world) : world :=
  mkWorld (ledger w) (disk w) (clock w) (network w) (sent w) (tmp_names w) v (timers w).

Definition set_timers (v : list timer) (w : world) : world :=
  mkWorld (ledger w) (disk w) (clock w) (network w) (sent w) (tmp_names w) (logs w) v.

(** *** Computations that change the world and may raise *)

Definition M (A : Type) : Type := world -> (string + A) * world.

Definition ret {A : Type} (a : A) : M A := fun w => (inr a, w).

Definition raise {A : Type} (e : string) : M A := fun w => (inl e, w).

Definition bind {A B : Type} (m : M A) (k : A -> M B) : M B :=
  fun w =>
    match m w with
    | (inl e, w') => (inl e, w')
    | (inr a, w') => k a w'
    end.

#[global] Instance M_ret : MRet M := @ret.
#[global] Instance M_bind : MBind M := fun A B k m => bind m k.

(** [try: m  except Exception as e: h e] *)
Definition try_except {A : Type} (m : M A) (h : string -> M A) : M A :=
  fun w =>
    match m w with
    | (inl e, w') => h e w'
    | (inr a, w') => (inr a, w')
    end.

(** [try: m  finally: f] *)
Definition try_finally {A : Type} (m : M A) (f : M unit) : M A :=
  fun w =>
    match m w with
    | (r, w') =>
        match f w' with
        | (inl e, w'') => (inl e, w'')
        | (inr _, w'') => (r, w'')
        end
    end.

Definition get {A : Type} (f : world -> A) : M A := fun w => (inr (f w), w).

Definition modify (f : world -> world) : M unit := fun w => (inr tt, f w).

(** An operation of the file system, which gives the new disk or raises. *)
Definition on_disk (op : gmap (list string) node -> string + gmap (list string) node)
  : M unit :=
  fun w =>
    match op (disk w) with
    | inl e => (inl e, w)
    | inr d => (inr tt, set_disk d w)
    end.

Definition log (level msg : string) : M unit :=
  modify (fun w => set_logs (logs w ++ [(level, msg)]) w).

Definition attachment (c : call) (d : gmap (list string) node) : option node :=
  match c with
  | send_message _ _ => None
  | send_document _ p _ | send_video _ p _ | send_photo _ p _ => d !! Path.parts p
  end.

(** A call of the chat client: it is recorded, and it raises when the
    transport says so. A transport that says nothing more accepts the call. *)
Definition app (c : call) : M unit :=
  fun w =>
    let o := match network w with [] => None | o :: _ => o end in
    let w := set_network (tail (network w)) w in
    let w := set_sent (sent w ++ [mkDelivery c (attachment c (disk w)) o]) w in
    match o with
    | Some e => (inl e, w)
    | None => (inr tt, w)
    end.

Definition update_download_record (record_id : Z) (status : string)
  (file_path : option string) (file_size : option Z) (error_message : option string)
  : M unit :=
  modify (fun w =>
            set_ledger (DB.update_download_record (clock w) record_id status
                          file_path file_size error_message (ledger w)) w).

(** *** [send_files_to_user] *)

Definition nl : string := String (ascii_of_nat 10) "".

(** [a or b or c] on the title and the caption of the metadata. *)
Definition title_or_caption (metadata : gmap string string) : string :=
  match metadata !! "title" with
  | Some t => if Str.truthy t then t else
                match metadata !! "caption" with
                | Some c => if Str.truthy c then c else "Media Downloaded"
                | None => "Media Downloaded"
                end
  | None =>
      match metadata !! "caption" with
      | Some c => if Str.truthy c then c else "Media Downloaded"
      | None => "Media Downloaded"
      end
  end.

(** [tempfile.NamedTemporaryFile(suffix='.zip', delete=False)]: the first
    candidate name that is free is created as an empty file. *)
Fixpoint named_temporary_file (candidates : list string) (d : gmap (list string) node)
  : option (string * list string) :=
  match candidates with
  | [] => None
  | n :: rest =>
      if path_exists d (Path.parts n) then named_temporary_file rest d
      else Some (n, rest)
  end.

Definition new_zip_file : M string :=
  fun w =>
    match named_temporary_file (tmp_names w) (disk w) with
    | None => (inl "[Errno 17] No usable temporary file name found", w)
    | Some (n, rest) =>
        (inr n, set_disk (<[Path.parts n := mkNode false 0 Data None]> (disk w))
                  (set_tmp_names rest w))
    end.

(** The name [ZipFile.write] stores for an [arcname] without separator. *)
Definition member_name (d : gmap (list string) node) (file_path arcname : string) : string :=
  (if String.eqb arcname "" then "." else arcname) +:+
  (match d !! Path.parts file_path with
   | Some n => if is_dir n then "/" else ""
   | None => ""
   end).

(** What [zf.write(file_path, ...)] raises, if it raises. *)
Definition write_raises (d : gmap (list string) node) (file_path : string) : option string :=
  match d !! Path.parts file_path with
  | Some n => zip_error n
  | None => None
  end.

(** The loop [for file_path in files] that fills the archive: the members
    written, and the exception that ended the loop, if one did. *)
Fixpoint zip_loop (d : gmap (list string) node) (files : list string)
  (zf : list (string * string)) : list (string * string) * option string :=
  match files with
  | [] => (zf, None)
  | file_path :: rest =>
      if exists_ d file_path
      then match write_raises d file_path with
           | Some e => (zf, Some e)
           | None =>
               zip_loop d rest
                 (zf ++ [(member_name d file_path (Path.name (Path.parts file_path)),
                          file_path)])
           end
      else zip_loop d rest zf
  end.

(** Leaving [with zipfile.ZipFile(...) as zf] closes the archive, which
    writes it with the members it has, also when an exception leaves the
    block. *)
Definition write_zip (zip_name : string) (zf : list (string * string)) : M unit :=
  modify (fun w =>
            set_disk (<[Path.parts zip_name :=
                          mkNode false (zip_size (disk w) zf) (Zip zf) None]>
                        (disk w)) w).

Definition has_ext (file_path_str : string) (exts : list string) : bool :=
  existsb (fun ext => Str.endswith (Str.lower_str file_path_str) ext) exts.

(** The branch for one file that exists: the client method is chosen by
    the extension of the path. *)
Definition send_one (chat_id : Z) (file_path_str caption : string) : M unit :=
  if has_ext file_path_str [".mp4"; ".avi"; ".mov"; ".mkv"] then
    app (send_video chat_id file_path_str caption)
  else if has_ext file_path_str [".jpg"; ".jpeg"; ".png"; ".gif"; ".webp"] then
    app (send_photo chat_id file_path_str caption)
  else
    app (send_document chat_id file_path_str caption).

Definition send_files_body (chat_id : Z) (files : list string)
  (metadata : gmap string string) : M unit :=
  match files with
  | [] => app (send_message chat_id "❌ No files were downloaded.")
  | file_path_str :: _ =>
      let caption := "✅ " +:+ title_or_caption metadata in
      if (1 <? length files)%nat then
        zip_name ← new_zip_file;
        zipped ← get (fun w => zip_loop (disk w) files []);
        write_zip zip_name zipped.1;;
        match zipped.2 with Some e => raise e | None => ret tt end;;
        app (send_document chat_id zip_name
               ("✅ Downloaded: " +:+ default "Media files" (metadata !! "title")
                +:+ " (" +:+ pretty (length files) +:+ " files)"));;
        on_disk (unlink_missing_ok (Path.parts zip_name))
      else
        get (fun w => exists_ (disk w) file_path_str) ≫= fun present : bool =>
        if present then send_one chat_id file_path_str caption else ret tt
  end.

Definition send_files_to_user (chat_id : Z) (files : list string)
  (metadata : gmap string string) : M unit :=
  try_except
    (send_files_body chat_id files metadata)
    (fun e =>
       log "ERROR" ("Error sending files to " +:+ pretty chat_id +:+ ": " +:+ e);;
       app (send_message chat_id ("❌ Error sending files: " +:+ e))).

(** *** [process_download_task] *)

(** The dictionary a downloader returns. The keys [metadata] and [error]
    may be missing. *)
Record fetch_result : Type := mkResult {
  success : bool;
  files : list string;
  metadata : option (gmap string string);
  error : option string
}.

(** What the job is given: the configuration, the registry, and what the
    [download] method of a service does to the disk and returns or raises. *)
Record env : Type := mkEnv {
  config : Config;
  services : gmap string service;
  download : service -> string -> string -> gmap (list string) node ->
             (string + fetch_result) * gmap (list string) node
}.

Record task_data : Type := mkTask {
  record_id : Z;
  user_id : Z;
  chat_id : Z;
  message_id : Z;
  url : string;
  platform : string
}.

(** [Path(config.DOWNLOAD_PATH) / str(user_id) / str(record_id)] *)
Definition task_dir (cfg : Config) (uid rid : Z) : list string :=
  Path.join (Path.join (Path.parts (DOWNLOAD_PATH cfg)) (pretty uid)) (pretty rid).

(** [sum(Path(f).stat().st_size for f in files if Path(f).exists())] *)
Definition total_size (d : gmap (list string) node) (fs : list string) : Z :=
  fold_left (fun acc f => if exists_ d f then (acc + size_of d f)%Z else acc) fs 0%Z.

(** [async with service: result = await service.download(url, output_dir)] *)
Definition run_download (E : env) (s : service) (u out : string) : M fetch_result :=
  fun w => let '(r, d) := download E s u out (disk w) in (r, set_disk d w).

(** [asyncio.create_task(self.cleanup_user_files(...))]: the new task goes
    to sleep for [delay_hours * 3600] seconds. *)
Definition create_cleanup_task (uid rid delay_hours : Z) : M unit :=
  modify (fun w =>
            set_timers (timers w ++ [mkTimer (clock w + delay_hours * 3600) uid rid]) w).

Definition failure_text (u e : string) : string :=
  "❌ Download failed for " +:+ u +:+ nl +:+ "Error: " +:+ e.

(** What the job does once it holds the download semaphore. *)
Definition process_download_task (E : env) (t : task_data) : M unit :=
  try_finally
    (try_except
       (service ← match get_service_for_url (services E) (url t) with
                  | Some s => ret s
                  | None => raise ("No service available for platform: " +:+ platform t)
                  end;
        let output_dir := task_dir (config E) (user_id t) (record_id t) in
        on_disk (mkdir_parents output_dir);;
        run_download E service (url t) (Path.to_str output_dir) ≫= fun result : fetch_result =>
        if success result then
          size ← get (fun w => total_size (disk w) (files result));
          update_download_record (record_id t) "completed"
            (Some (Path.to_str output_dir)) (Some size) None;;
          send_files_to_user (chat_id t) (files result) (default ∅ (metadata result));;
          log "INFO" ("Download completed: " +:+ url t +:+ " for user " +:+ pretty (user_id t))
        else
          let error_msg := default "Unknown error" (error result) in
          update_download_record (record_id t) "failed" None None (Some error_msg);;
          app (send_message (chat_id t) (failure_text (url t) error_msg));;
          log "ERROR" ("Download failed: " +:+ url t +:+ " - " +:+ error_msg))
       (fun e =>
          update_download_record (record_id t) "failed" None None (Some e);;
          try_except (app (send_message (chat_id t) (failure_text (url t) e)))
                     (fun _ => ret tt);;
          log "ERROR" ("Download task failed: " +:+ url t +:+ " - " +:+ e)))
    (create_cleanup_task (user_id t) (record_id t) (CLEANUP_DELAY_HOURS (config E))).

(** *** [cleanup_user_files] *)

(** What [cleanup_user_files] does when its sleep is over. *)
Definition cleanup_after_sleep (cfg : Config) (uid rid : Z) : M unit :=
  try_except
    (let user_dir := task_dir cfg uid rid in
     get (fun w => path_exists (disk w) user_dir) ≫= fun present : bool =>
     if present then
       on_disk (rmtree user_dir);;
       log "INFO" ("Cleaned up files for user " +:+ pretty uid +:+ ", record " +:+ pretty rid)
     else ret tt)
    (fun e => log "ERROR" ("Error cleaning up files for user " +:+ pretty uid +:+ ": " +:+ e)).

(** The event loop as far as the cleanup tasks see it: time passes, and a
    task whose sleep is over is resumed. [asyncio.sleep] does not return
    before the delay it was given has passed. *)
Inductive event : Type :=
| Tick (seconds : Z)
| Wake (i : nat).

Definition loop_step (cfg : Config) (ev : event) (w : world) : option world :=
  match ev with
  | Tick seconds =>
      if (0 <=? seconds)%Z then Some (set_clock (clock w + seconds) w) else None
  | Wake i =>
      match timers w !! i with
      | Some tm =>
          if (due tm <=? clock w)%Z
          then Some (cleanup_after_sleep cfg (timer_user_id tm) (timer_record_id tm)
                       (set_timers (delete i (timers w)) w)).2
          else None
      | None => None
      end
  end.

Fixpoint loop_run (cfg : Config) (evs : list event) (w : world) : option world :=
  match evs with
  | [] => Some w
  | ev :: evs' =>
      match loop_step cfg ev w with
      | Some w' => loop_run cfg evs' w'
      | None => None
      end
  end.

End Bot.

(** ** [app/main.py]: the queue worker and the download semaphore

    [queue_worker] takes the tasks from the queue in the order they were put
    and creates one asyncio task for each; the event loop gives the tasks
    their first step in the order of their creation. The first thing a task
    does is to enter [async with self.download_semaphore]. The state below
    keeps the counter of the semaphore and, for each job in the order of
    submission, how far it has come. *)

Module Dispatcher.

Inductive phase : Type :=
| Queued      (* in the queue, or its task has not run yet *)
| Waiting     (* suspended in the acquire of the semaphore *)
| Holding     (* in the semaphore block, [service.download] not called yet *)
| Fetching    (* [service.download] called and not returned *)
| Finishing   (* [service.download] over, still in the semaphore block *)
| Done.       (* out of the semaphore block *)

#[global] Instance phase_eq_dec : EqDecision phase.
Proof. solve_decision. Defined.

Record state : Type := mkState { value : nat; jobs : list phase }.

Definition is_holder (p : phase) : bool :=
  match p with Holding | Fetching | Finishing => true | _ => false end.

Definition holders (l : list phase) : nat := length (List.filter is_holder l).

Definition fetching (l : list phase) : nat :=
  length (List.filter (fun p => bool_decide (p = Fetching)) l).

(** [asyncio.Semaphore(config.MAX_CONCURRENT_DOWNLOADS)] raises a
    [ValueError] for a negative value; [n] jobs are submitted. *)
Definition init (max_concurrent_downloads : Z) (n : nat) : option state :=
  if (max_concurrent_downloads <? 0)%Z then None
  else Some (mkState (Z.to_nat max_concurrent_downloads) (replicate n Queued)).

Inductive event : Type :=
| Start (i : nat) (barge : bool)
| Wake (i : nat)
| CancelWait (i : nat)
| Abort (i : nat)
| FetchBegin (i : nat)
| FetchEnd (i : nat)
| Release (i : nat).

Definition move (i : nat) (from to : phase) (s : state) : option state :=
  match jobs s !! i with
  | Some p => if bool_decide (p = from)
              then Some (mkState (value s) (<[i := to]> (jobs s)))
              else None
  | None => None
  end.

Definition started_before (i : nat) (l : list phase) : bool :=
  forallb (fun p => negb (bool_decide (p = Queued))) (take i l).

Definition no_waiter (l : list phase) : bool :=
  forallb (fun p => negb (bool_decide (p = Waiting))) l.

(** One step of one job.
    - [Start]: the first step of the task, which runs [acquire]: the job
      enters when the counter is positive and, unless the semaphore lets a
      newcomer pass the waiters ([barge]), nobody waits; else it waits.
    - [Wake]: a waiter enters, the counter being positive.
    - [CancelWait]: a waiter is cancelled.
    - [Abort]: an exception before the call of [service.download].
    - [FetchBegin], [FetchEnd]: [service.download] is called; it returns,
      raises or is cancelled.
    - [Release]: the job leaves the semaphore block. *)
Definition step (ev : event) (s : state) : option state :=
  match ev with
  | Start i barge =>
      if started_before i (jobs s) then
        if (0 <? value s)%nat && (barge || no_waiter (jobs s))
        then move i Queued Holding (mkState (value s - 1) (jobs s))
        else move i Queued Waiting s
      else None
  | Wake i =>
      if (0 <? value s)%nat
      then move i Waiting Holding (mkState (value s - 1) (jobs s))
      else None
  | CancelWait i => move i Waiting Done s
  | Abort i => move i Holding Finishing s
  | FetchBegin i => move i Holding Fetching s
  | FetchEnd i => move i Fetching Finishing s
  | Release i => move i Finishing Done (mkState (value s + 1) (jobs s))
  end.

Fixpoint run (evs : list event) (s : state) : option state :=
  match evs with
  | [] => Some s
  | ev :: evs' =>
      match step ev s with
      | Some s' => run evs' s'
      | None => None
      end
  end.

End Dispatcher.

(** ** Fixtures used by the examples *)

Module Fixtures.
Import Disk Registry Bot.

(** The modules of [app/services] in this repository. *)
Definition repo_listing : list (string * module_outcome) :=
  [ ("__init__.py", NoServiceClass);
    ("base_downloader.py", NoServiceClass);
    ("db_service.py", NoServiceClass);
    ("instagram_service.py", Provides "InstagramDownloaderService");
    ("tiktok_service.py", Provides "TikTokDownloaderService");
    ("ytdlp_service.py", Provides "YTDLPService") ].

Definition cfg : Config := mkConfig 5 "./downloads" 24.

Definition pending_row : DB.DownloadHistory :=
  DB.mkRow 7 "https://youtu.be/abc" "youtube" "pending" None None 1000 None None.

Definition file_node (size : Z) : node := mkNode false size Data None.

(** A disk with the download root and three produced files of 10, 20 and 30
    bytes in the directory of record 1 of user 7. *)
Definition disk3 : gmap (list string) node :=
  list_to_map
    [ (["downloads"], dir_node);
      (["downloads"; "7"], dir_node);
      (["downloads"; "7"; "1"], dir_node);
      (["downloads"; "7"; "1"; "a.mp4"], file_node 10);
      (["downloads"; "7"; "1"; "b.jpg"], file_node 20);
      (["downloads"; "7"; "1"; "c.txt"], file_node 30) ].

Definition files3 : list string :=
  ["downloads/7/1/a.mp4"; "downloads/7/1/b.jpg"; "downloads/7/1/c.txt"].

Definition world0 (d : gmap (list string) node) (net : list (option string)) : world :=
  mkWorld {[ 1%Z := pending_row ]} d 5000 net [] ["/tmp/tmpk3v9.zip"] [] [].

Definition task1 : task_data := mkTask 1 7 100 55 "https://youtu.be/abc" "youtube".

(** An environment whose downloader leaves the disk as it finds it and
    returns [result]. *)
Definition env_returning (result : fetch_result) : env :=
  mkEnv cfg (_discover_services repo_listing)
        (fun _ _ _ d => (inr result, d)).

End Fixtures.

(** ** [app/services/db_service.py]: the users *)

Module Users.

(** A row of [users]. The table is keyed by [user_id], which the schema
    declares unique; [id] is the primary key the database hands out. *)
Record User : Type := mkUser {
  id : Z;
  username : option string;
  first_name : option string;
  last_name : option string;
  role : string;
  created_at : Z;
  last_seen : Z;
  is_banned : bool
}.

Abbreviation table := (gmap Z User).

Definition next_id (t : table) : Z :=
  (1 + map_fold (fun _ u acc => Z.max (id u) acc) 0 t)%Z.

(** [get_or_create_user]: the row it returns and the new table. *)
Definition get_or_create_user (utcnow : Z) (uid : Z)
  (new_username new_first_name new_last_name : option string) (t : table)
  : User * table :=
  match t !! uid with
  | None =>
      let user := mkUser (next_id t) new_username new_first_name new_last_name
                    "user" utcnow utcnow false in
      (user, <[uid := user]> t)
  | Some user =>
      let user := mkUser (id user) new_username new_first_name new_last_name
                    (role user) (created_at user) utcnow (is_banned user) in
      (user, <[uid := user]> t)
  end.

(** [update_user_role] *)
Definition update_user_role (uid : Z) (new_role : string) (t : table) : bool * table :=
  match t !! uid with
  | Some user =>
      (true, <[uid := mkUser (id user) (username user) (first_name user) (last_name user)
                        new_role (created_at user) (last_seen user) (is_banned user)]> t)
  | None => (false, t)
  end.

(** [get_user_role] *)
Definition get_user_role (uid : Z) (t : table) : string :=
  match t !! uid with
  | Some user => role user
  | None => "user"
  end.

(** [ban_user] *)
Definition ban_user (uid : Z) (banned : bool) (t : table) : bool * table :=
  match t !! uid with
  | Some user =>
      (true, <[uid := mkUser (id user) (username user) (first_name user) (last_name user)
                        (role user) (created_at user) (last_seen user) banned]> t)
  | None => (false, t)
  end.

(** [is_user_banned] *)
Definition is_user_banned (uid : Z) (t : table) : bool :=
  match t !! uid with
  | Some user => is_banned user
  | None => false
  end.

End Users.

(** ** [app/handlers]: the requests of the users and of the admins

    A handler works on the two tables of the database, on the download queue
    it shares with the queue worker, and answers through the message it was
    given. What the transport says to the successive answers is given by
    [answers], as [network] does for the job. *)

Module Handlers.

Record message : Type := mkMessage {
  from_user_id : Z;
  from_username : option string;
  from_first_name : option string;
  from_last_name : option string;
  msg_chat_id : Z;
  msg_id : Z;
  text : string;
  reply_to_user_id : option Z
}.

(** An answer: [message.reply_text] or [processing_msg.edit_text]. *)
Inductive answer : Type :=
| reply_text (t : string)
| edit_text (t : string).

Record desk : Type := mkDesk {
  users : gmap Z Users.User;
  downloads : gmap Z DB.DownloadHistory;
  download_queue : list Bot.task_data;
  utcnow : Z;
  answers : list (option string);
  answered : list (answer * option string);
  journal : list (string * string);
  shutdown_event : bool
}.

Definition set_users (v : gmap Z Users.User) (d : desk) : desk :=
  mkDesk v (downloads d) (download_queue d) (utcnow d) (answers d) (answered d)
    (journal d) (shutdown_event d).

Definition set_downloads (v : gmap Z DB.DownloadHistory) (d : desk) : desk :=
  mkDesk (users d) v (download_queue d) (utcnow d) (answers d) (answered d)
    (journal d) (shutdown_event d).

Definition set_download_queue (v : list Bot.task_data) (d : desk) : desk :=
  mkDesk (users d) (downloads d) v (utcnow d) (answers d) (answered d)
    (journal d) (shutdown_event d).

Definition set_answers (v : list (option string)) (d : desk) : desk :=
  mkDesk (users d) (downloads d) (download_queue d) (utcnow d) v (answered d)
    (journal d) (shutdown_event d).

Definition set_answered (v : list (answer * option string)) (d : desk) : desk :=
  mkDesk (users d) (downloads d) (download_queue d) (utcnow d) (answers d) v
    (journal d) (shutdown_event d).

Definition set_journal (v : list (string * string)) (d : desk) : desk :=
  mkDesk (users d) (downloads d) (download_queue d) (utcnow d) (answers d) (answered d)
    v (shutdown_event d).

Definition set_shutdown_event (v : bool) (d : desk) : desk :=
  mkDesk (users d) (downloads d) (download_queue d) (utcnow d) (answers d) (answered d)
    (journal d) v.

(** Computations of a handler. *)
Definition H (A : Type) : Type := desk -> (string + A) * desk.

Definition hret {A : Type} (a : A) : H A := fun d => (inr a, d).

Definition hbind {A B : Type} (m : H A) (k : A -> H B) : H B :=
  fun d =>
    match m d with
    | (inl e, d') => (inl e, d')
    | (inr a, d') => k a d'
    end.

#[global] Instance H_ret : MRet H := @hret.
#[global] Instance H_bind : MBind H := fun A B k m => hbind m k.

Definition htry {A : Type} (m : H A) (h : string -> H A) : H A :=
  fun d =>
    match m d with
    | (inl e, d') => h e d'
    | (inr a, d') => (inr a, d')
    end.

Definition hmodify (f : desk -> desk) : H unit := fun d => (inr tt, f d).

Definition note (level msg : string) : H unit :=
  hmodify (fun d => set_journal (journal d ++ [(level, msg)]) d).

(** An answer is recorded, and raises when the transport says so. *)
Definition say (a : answer) : H unit :=
  fun d =>
    let o := match answers d with [] => None | o :: _ => o end in
    let d := set_answered (answered d ++ [(a, o)]) (set_answers (tail (answers d)) d) in
    match o with
    | Some e => (inl e, d)
    | None => (inr tt, d)
    end.

(** *** [download_handler.py] *)

(** [self.db.create_download_record] followed by [download_queue.put]. *)
Definition queue_one (m : message) (url platform : string) : H unit :=
  fun d =>
    let '(record_id, t) :=
      DB.create_download_record (utcnow d) (from_user_id m) url platform (downloads d) in
    let task_data :=
      Bot.mkTask record_id (from_user_id m) (msg_chat_id m) (msg_id m) url platform in
    (inr tt, set_download_queue (download_queue d ++ [task_data]) (set_downloads t d)).

(** The loop [for url, platform in urls]. *)
Fixpoint queue_loop (m : message) (urls : list (string * string)) : H unit :=
  match urls with
  | [] => hret tt
  | (url, platform) :: rest =>
      htry
        (queue_one m url platform;;
         note "INFO" ("Queued download: " +:+ url +:+ " for user " +:+ pretty (from_user_id m)))
        (fun e =>
           note "ERROR" ("Error queuing download " +:+ url +:+ ": " +:+ e);;
           say (reply_text ("❌ Error processing " +:+ url +:+ ": " +:+ e)));;
      queue_loop m rest
  end.

(** [process_download_request] *)
Definition process_download_request (m : message) : H unit :=
  fun d =>
    if Users.is_user_banned (from_user_id m) (users d) then
      say (reply_text "❌ You are banned from using this bot.") d
    else
      let d :=
        set_users (Users.get_or_create_user (utcnow d) (from_user_id m) (from_username m)
                     (from_first_name m) (from_last_name m) (users d)).2 d in
      let urls := URLParser.extract_urls (text m) in
      match urls with
      | [] =>
          say (reply_text ("❌ No supported URLs found in your message." +:+ Bot.nl +:+
                           "Send /help to see supported platforms.")) d
      | _ :: _ =>
          (say (reply_text ("⏳ Processing " +:+ pretty (length urls) +:+ " URL(s)..."));;
           queue_loop m urls;;
           say (edit_text ("✅ " +:+ pretty (length urls) +:+ " download(s) added to queue!"
                           +:+ Bot.nl +:+ "You'll receive the files when ready."))) d
      end.

(** *** [admin_handler.py] *)

(** The four commands that change a user: the command is a reply to a
    message of the user, the database is asked, and the outcome is
    answered. *)
Definition change_user (m : message) (change : Z -> gmap Z Users.User -> bool * gmap Z Users.User)
  (done failed usage : Z -> string) : H unit :=
  match reply_to_user_id m with
  | Some uid =>
      fun d =>
        let '(ok, t) := change uid (users d) in
        let d := set_users t d in
        if ok then say (reply_text (done uid)) d
        else say (reply_text (failed uid)) d
  | None => say (reply_text (usage 0%Z))
  end.

Definition handle_promote_command (m : message) : H unit :=
  change_user m (fun uid => Users.update_user_role uid "admin")
    (fun uid => "✅ User " +:+ pretty uid +:+ " promoted to admin.")
    (fun _ => "❌ Failed to promote user.")
    (fun _ => "❌ Reply to a user's message to promote them.").

Definition handle_verify_command (m : message) : H unit :=
  change_user m (fun uid => Users.update_user_role uid "verified_user")
    (fun uid => "✅ User " +:+ pretty uid +:+ " verified.")
    (fun _ => "❌ Failed to verify user.")
    (fun _ => "❌ Reply to a user's message to verify them.").


Definition handle_unban_command (m : message) : H unit :=
  change_user m (fun uid => Users.ban_user uid false)
    (fun uid => "✅ User " +:+ pretty uid +:+ " unbanned.")
    (fun _ => "❌ Failed to unban user.")
    (fun _ => "❌ Reply to a user's message to unban them.").

(** [handle_stop_command] *)
Definition handle_stop_command (m : message) : H unit :=
  say (reply_text "🛑 Initiating graceful shutdown...");;
  note "INFO" "Admin initiated shutdown";;
  hmodify (set_shutdown_event true).

End Handlers.

(** ** [app/utils/url_parser.py]: the shortcode of an Instagram url *)

Module Shortcode.

(** The longest prefix whose characters satisfy [p], and what follows it. *)
Fixpoint span (p : ascii -> bool) (s : string) : string * string :=
  match s with
  | "" => ("", "")
  | String c s' =>
      if p c then let '(u, r) := span p s' in (String c u, r)
      else ("", s)
  end.

(** The match of [lit([A-Za-z0-9_-]+)] that starts at the first character
    of [s]: what the group holds, the class being matched as far as it goes. *)
Definition group_at (lit s : string) : option string :=
  match Str.strip_prefix lit s with
  | Some t =>
      match span URLParser.word_dash t with
      | ("", _) => None
      | (w, _) => Some w
      end
  | None => None
  end.

(** [re.search(pattern, url)] with [match.group(1)]: the string is scanned
    from left to right for the first place where the pattern matches. *)
Fixpoint search_group (lit s : string) : option string :=
  match group_at lit s with
  | Some w => Some w
  | None =>
      match s with
      | "" => None
      | String _ s' => search_group lit s'
      end
  end.

(** The loop [for pattern in patterns]. *)
Fixpoint first_group (lits : list string) (url : string) : option string :=
  match lits with
  | [] => None
  | lit :: rest =>
      match search_group lit url with
      | Some w => Some w
      | None => first_group rest url
      end
  end.

Definition extract_instagram_shortcode (url : string) : option string :=
  first_group ["instagram.com/p/"; "instagram.com/reel/"; "instagram.com/tv/"] url.

End Shortcode.

(** ** Facts about strings *)

Module StrFacts.
Import Str.

Lemma app_nil_l (s : string) : "" +:+ s = s.
Proof. reflexivity. Qed.

Lemma app_cons (c : ascii) (a b : string) : String c a +:+ b = String c (a +:+ b).
Proof. reflexivity. Qed.

Lemma app_nil_r (s : string) : s +:+ "" = s.
Proof. induction s as [|c s IH]; [reflexivity | now rewrite app_cons, IH]. Qed.

Lemma app_assoc (a b c : string) : (a +:+ b) +:+ c = a +:+ (b +:+ c).
Proof. induction a as [|x a IH]; [reflexivity | now rewrite !app_cons, IH]. Qed.

Lemma length_app (a b : string) :
  String.length (a +:+ b) = String.length a + String.length b.
Proof. induction a as [|x a IH]; [reflexivity | rewrite app_cons; cbn; now rewrite IH]. Qed.

Lemma strip_prefix_app (p s t : string) :
  strip_prefix p s = Some t -> s = p +:+ t.
Proof.
  revert s; induction p as [|a p IH]; intros s.
  { cbn. intros [= ->]. reflexivity. }
  destruct s as [|b s]; cbn; [discriminate|].
  destruct (Ascii.eqb_spec a b) as [->|]; [|discriminate].
  intros H; now rewrite app_cons, (IH _ H).
Qed.

Lemma strip_prefix_of_app (p t : string) : strip_prefix p (p +:+ t) = Some t.
Proof.
  induction p as [|a p IH]; [reflexivity|].
  rewrite app_cons; cbn. now rewrite Ascii.eqb_refl.
Qed.

Lemma span_nonspace_app (s u r : string) :
  span_nonspace s = (u, r) -> s = u +:+ r.
Proof.
  revert u r; induction s as [|c s IH]; cbn; intros u r.
  - intros [= <- <-]; reflexivity.
  - destruct (is_space c).
    + intros [= <- <-]; reflexivity.
    + destruct (span_nonspace s) as [u' r'] eqn:E.
      intros [= <- <-]. now rewrite app_cons, (IH _ _ eq_refl).
Qed.

Lemma span_nonspace_all (s u r : string) :
  span_nonspace s = (u, r) -> all_chars (fun c => negb (is_space c)) u = true.
Proof.
  revert u r; induction s as [|c s IH]; cbn; intros u r.
  - intros [= <- <-]; reflexivity.
  - destruct (is_space c) eqn:Ec.
    + intros [= <- <-]; reflexivity.
    + destruct (span_nonspace s) as [u' r'] eqn:E.
      intros [= <- <-]; cbn. rewrite Ec; cbn. eapply IH; reflexivity.
Qed.

(** The run returned by [span_nonspace] is maximal: it stops at the end of
    the string or in front of a whitespace character. *)
Lemma span_nonspace_stop (s u r : string) :
  span_nonspace s = (u, r) ->
  r = "" \/ exists c r', r = String c r' /\ is_space c = true.
Proof.
  revert u r; induction s as [|c s IH]; cbn; intros u r.
  - intros [= <- <-]; now left.
  - destruct (is_space c) eqn:Ec.
    + intros [= <- <-]; right; eauto.
    + destruct (span_nonspace s) as [u' r'] eqn:E.
      intros [= <- <-]. eapply IH; reflexivity.
Qed.

End StrFacts.

(** ** Facts about regular expressions *)

Module RegexFacts.
Import Regex.

(** *** Correctness of the matcher *)

Lemma cat_inv (r1 r2 : regex) (s : string) :
  matches (Cat r1 r2) s ->
  exists s1 s2, s = s1 +:+ s2 /\ matches r1 s1 /\ matches r2 s2.
Proof. inversion 1; subst; eauto. Qed.

Lemma alt_inv (r1 r2 : regex) (s : string) :
  matches (Alt r1 r2) s -> matches r1 s \/ matches r2 s.
Proof. inversion 1; subst; tauto. Qed.

Lemma app_nil_inv (s1 s2 : string) : s1 +:+ s2 = "" -> s1 = "" /\ s2 = "".
Proof.
  destruct s1; [|discriminate].
  rewrite StrFacts.app_nil_l. now intros ->.
Qed.

Lemma nullable_spec (r : regex) : nullable r = true <-> matches r "".
Proof.
  induction r as [| |p|r1 IH1 r2 IH2|r1 IH1 r2 IH2|r IH]; cbn.
  - split; [discriminate | inversion 1].
  - split; [constructor | reflexivity].
  - split; [discriminate | inversion 1].
  - rewrite andb_true_iff, IH1, IH2. split.
    + intros [H1 H2]. change "" with ("" +:+ ""). now constructor.
    + intros H. apply cat_inv in H as (s1 & s2 & E & H1 & H2).
      symmetry in E. apply app_nil_inv in E as [-> ->]. now split.
  - rewrite orb_true_iff, IH1, IH2. split.
    + intros [H|H]; [now apply m_alt_l | now apply m_alt_r].
    + apply alt_inv.
  - split; [constructor | reflexivity].
Qed.

Lemma star_cons_inv (r : regex) (c : ascii) (s : string) :
  matches (Star r) (String c s) ->
  exists s1 s2, s = s1 +:+ s2 /\ matches r (String c s1) /\ matches (Star r) s2.
Proof.
  intros H. remember (Star r) as r0 eqn:Er. remember (String c s) as s0 eqn:Es.
  revert s Es. induction H as [| | | | | |r' s1 s2 H1 _ H2 IH2]; try discriminate.
  injection Er as ->. intros s Es.
  destruct s1 as [|c1 s1].
  - apply IH2; [reflexivity | exact Es].
  - rewrite StrFacts.app_cons in Es. injection Es as -> <-. eauto.
Qed.

Lemma deriv_cat (r1 r2 : regex) (c : ascii) (s : string) :
  (forall t, matches (deriv c r1) t <-> matches r1 (String c t)) ->
  matches (Cat (deriv c r1) r2) s <->
  exists s1 s2, s = s1 +:+ s2 /\ matches r1 (String c s1) /\ matches r2 s2.
Proof.
  intros IH1. split.
  - intros H. apply cat_inv in H as (s1 & s2 & -> & H1 & H2).
    exists s1, s2. split; [reflexivity|]. split; [now apply IH1 | assumption].
  - intros (s1 & s2 & -> & H1 & H2). constructor; [now apply IH1 | assumption].
Qed.

Lemma deriv_spec (r : regex) (c : ascii) (s : string) :
  matches (deriv c r) s <-> matches r (String c s).
Proof.
  revert s. induction r as [| |p|r1 IH1 r2 IH2|r1 IH1 r2 IH2|r IH]; intros s; cbn.
  - split; inversion 1.
  - split; inversion 1.
  - destruct (p c) eqn:Ep; split; inversion 1; subst.
    + now constructor.
    + constructor.
    + congruence.
  - pose proof (deriv_cat r1 r2 c s IH1) as Hcat.
    destruct (nullable r1) eqn:En.
    + split.
      * intros H. apply alt_inv in H as [HL|HR].
        -- apply Hcat in HL as (s1 & s2 & -> & H1 & H2).
           rewrite <- StrFacts.app_cons. now constructor.
        -- apply IH2 in HR. apply nullable_spec in En.
           change (String c s) with ("" +:+ String c s). now constructor.
      * intros H. apply cat_inv in H as (s1 & s2 & E & H1 & H2).
        destruct s1 as [|c1 s1].
        -- apply m_alt_r. apply IH2. rewrite StrFacts.app_nil_l in E. now subst.
        -- rewrite StrFacts.app_cons in E. injection E as -> ->.
           apply m_alt_l. apply Hcat. eauto.
    + rewrite Hcat. split.
      * intros (s1 & s2 & -> & H1 & H2). rewrite <- StrFacts.app_cons. now constructor.
      * intros H. apply cat_inv in H as (s1 & s2 & E & H1 & H2).
        destruct s1 as [|c1 s1].
        -- apply nullable_spec in H1. congruence.
        -- rewrite StrFacts.app_cons in E. injection E as -> ->. eauto.
  - split; intros H; apply alt_inv in H as [H|H];
      solve [apply m_alt_l; now apply IH1 | apply m_alt_r; now apply IH2].
  - split.
    + intros H. apply cat_inv in H as (s1 & s2 & -> & H1 & H2).
      rewrite <- StrFacts.app_cons. constructor; [now apply IH | assumption].
    + intros H. apply star_cons_inv in H as (s1 & s2 & -> & H1 & H2).
      constructor; [now apply IH | assumption].
Qed.

Lemma full_match_spec (r : regex) (s : string) :
  full_match r s = true <-> matches r s.
Proof.
  revert r. induction s as [|c s IH]; intros r; cbn.
  - apply nullable_spec.
  - rewrite IH. apply deriv_spec.
Qed.

(** [re_match] answers whether a match starts at the beginning of the
    string, as [re.match] does. *)
Lemma re_match_spec (r : regex) (s : string) :
  re_match r s = true <-> exists p t, s = p +:+ t /\ matches r p.
Proof.
  revert r. induction s as [|c s IH]; intros r; cbn.
  - rewrite orb_false_r, nullable_spec. split.
    + intros H. exists "", "". now split.
    + intros (p & t & E & H). destruct p; [assumption | discriminate].
  - rewrite orb_true_iff, nullable_spec, IH. split.
    + intros [H | (p & t & -> & H)].
      * exists "", (String c s). now split.
      * exists (String c p), t. split; [reflexivity | now apply deriv_spec].
    + intros (p & t & E & H). destruct p as [|c' p].
      * now left.
      * rewrite StrFacts.app_cons in E. injection E as <- ->.
        right. exists p, t. split; [reflexivity | now apply deriv_spec].
Qed.

Lemma chr_inv (c : ascii) (s : string) : matches (chr c) s <-> s = String c "".
Proof.
  unfold chr. split.
  - inversion 1 as [|p c' Hc| | | | |]; subst. now apply Ascii.eqb_eq in Hc as <-.
  - intros ->. constructor. apply Ascii.eqb_refl.
Qed.

Lemma lit_inv (l s : string) : matches (lit l) s <-> s = l.
Proof.
  revert s. induction l as [|c l IH]; intros s; cbn.
  - split; [now inversion 1 | intros ->; constructor].
  - split.
    + intros H. apply cat_inv in H as (s1 & s2 & -> & H1 & H2).
      inversion H1 as [|p c' Hc| | | | |]; subst.
      apply Ascii.eqb_eq in Hc as <-. apply IH in H2 as ->. reflexivity.
    + intros ->. change (String c l) with (String c "" +:+ l).
      constructor; [constructor; apply Ascii.eqb_refl | now apply IH].
Qed.

Lemma opt_inv (r : regex) (s : string) :
  matches (Opt r) s <-> matches r s \/ s = "".
Proof.
  unfold Opt. split.
  - intros H. apply alt_inv in H as [H|H]; [now left | right; now inversion H].
  - intros [H | ->]; [now apply m_alt_l | apply m_alt_r; constructor].
Qed.

Lemma star_cls_inv (p : ascii -> bool) (s : string) :
  matches (Star (Cls p)) s <-> Str.all_chars p s = true.
Proof.
  induction s as [|c s IH]; cbn.
  - split; [reflexivity | constructor].
  - rewrite andb_true_iff, <- IH. split.
    + intros H. apply star_cons_inv in H as (s1 & s2 & -> & H1 & H2).
      inversion H1; subst. now split.
    + intros [Hc H]. change (String c s) with (String c "" +:+ s).
      constructor; [now constructor | assumption].
Qed.

Lemma plus_cls_inv (p : ascii -> bool) (s : string) :
  matches (Plus (Cls p)) s <-> s <> "" /\ Str.all_chars p s = true.
Proof.
  unfold Plus. split.
  - intros H. apply cat_inv in H as (s1 & s2 & -> & H1 & H2).
    inversion H1; subst. apply star_cls_inv in H2.
    split; [discriminate | cbn; now apply andb_true_iff].
  - intros [Hne H]. destruct s as [|c s]; [congruence|].
    cbn in H. apply andb_true_iff in H as [Hc H].
    change (String c s) with (String c "" +:+ s).
    constructor; [now constructor | now apply star_cls_inv].
Qed.

End RegexFacts.

Module URLParserTests.
Import URLParser.

Example detect_tiktok :
  detect_platform "https://tiktok.com/@x/video/123" = Some "tiktok".
Proof. vm_compute. reflexivity. Qed.

Example detect_case_insensitive :
  detect_platform "  HTTPS://WWW.YouTube.com/watch?v=dQw4w9WgXcQ " = Some "youtube".
Proof. vm_compute. reflexivity. Qed.

Example detect_facebook :
  detect_platform "facebook.com/some/page/videos/42" = Some "facebook".
Proof. vm_compute. reflexivity. Qed.

Example detect_unknown : detect_platform "https://example.org/a" = None.
Proof. vm_compute. reflexivity. Qed.

Example extract_two :
  extract_urls "see https://youtu.be/abc and https://example.org/x then https://x.com/u/status/9 !"
  = [("https://youtu.be/abc", "youtube"); ("https://x.com/u/status/9", "twitter")].
Proof. vm_compute. reflexivity. Qed.

Example extract_embedded :
  extract_urls "https://example.org/?u=https://tiktok.com/@x/video/1" = [].
Proof. vm_compute. reflexivity. Qed.

Example extract_upper_scheme : extract_urls "HTTPS://youtu.be/abc" = [].
Proof. vm_compute. reflexivity. Qed.

End URLParserTests.

(** ** Facts about the url scanner *)

Module URLParserFacts.
Import Regex RegexFacts URLParser.

(** What [re.findall] returns for a pattern without groups that matches no
    empty string: [match_here] is the match starting at the first character,
    the longest one, and [occurrences] lists the matches found from left to
    right, each search starting behind the previous match. *)

Definition match_here (r : regex) (s u rest : string) : Prop :=
  s = u +:+ rest /\ matches r u /\
  forall p t, s = p +:+ t -> matches r p -> String.length p <= String.length u.

Definition no_match_here (r : regex) (s : string) : Prop :=
  forall p t, s = p +:+ t -> ~ matches r p.

Inductive occurrences (r : regex) : string -> list string -> Prop :=
| occ_none s :
    (forall g t, s = g +:+ t -> no_match_here r t) ->
    occurrences r s []
| occ_next g u rest us :
    (forall g1 g2, g = g1 +:+ g2 -> g2 <> "" ->
                   no_match_here r (g2 +:+ (u +:+ rest))) ->
    match_here r (u +:+ rest) u rest ->
    occurrences r rest us ->
    occurrences r (g +:+ (u +:+ rest)) (u :: us).

(** The language of [url_pattern]. *)
Lemma url_pattern_lang (p : string) :
  matches url_pattern p <->
  exists w, (p = "http://" +:+ w \/ p = "https://" +:+ w) /\
            w <> "" /\ Str.all_chars not_space w = true.
Proof.
  unfold url_pattern, seq. split.
  - intros H.
    apply cat_inv in H as (s1 & t1 & -> & H1 & H).
    apply cat_inv in H as (s2 & t2 & -> & H2 & H).
    apply cat_inv in H as (s3 & t3 & -> & H3 & H).
    apply cat_inv in H as (s4 & t4 & -> & H4 & H).
    inversion H; subst. rewrite StrFacts.app_nil_r.
    apply (lit_inv "http") in H1 as ->. apply (lit_inv "://") in H3 as ->.
    apply plus_cls_inv in H4 as [Hne Hall].
    exists s4. split; [|now split].
    apply opt_inv in H2 as [H2 | ->].
    + apply chr_inv in H2 as ->. now right.
    + now left.
  - intros (w & Hp & Hne & Hall).
    assert (Hw : matches (Cat (Plus (Cls not_space)) Eps) w).
    { rewrite <- (StrFacts.app_nil_r w). constructor; [|constructor].
      now apply plus_cls_inv. }
    destruct Hp as [-> | ->].
    + change ("http://" +:+ w) with ("http" +:+ ("" +:+ ("://" +:+ w))).
      constructor; [now apply lit_inv|].
      constructor; [apply opt_inv; now right|].
      constructor; [now apply lit_inv | assumption].
    + change ("https://" +:+ w) with ("http" +:+ ("s" +:+ ("://" +:+ w))).
      constructor; [now apply lit_inv|].
      constructor; [apply opt_inv; left; now apply chr_inv|].
      constructor; [now apply lit_inv | assumption].
Qed.

Lemma nonspace_prefix_le (w' t' w r : string) :
  w' +:+ t' = w +:+ r ->
  Str.all_chars not_space w' = true ->
  (r = "" \/ exists c r', r = String c r' /\ Str.is_space c = true) ->
  String.length w' <= String.length w.
Proof.
  revert w. induction w' as [|c w' IH]; intros w E Hall Hr; cbn; [lia|].
  cbn in Hall. apply andb_true_iff in Hall as [Hc Hall].
  destruct w as [|d w].
  - rewrite StrFacts.app_nil_l in E. destruct Hr as [-> | (c0 & r' & -> & Hs)].
    + discriminate.
    + rewrite StrFacts.app_cons in E. injection E as -> _.
      unfold not_space in Hc. rewrite Hs in Hc. discriminate.
  - rewrite !StrFacts.app_cons in E. injection E as -> E.
    cbn. apply le_n_S. now apply IH.
Qed.

Lemma span_nonspace_nonempty (c : ascii) (w t : string) :
  not_space c = true ->
  exists u r, Str.span_nonspace (String c w +:+ t) = (String c u, r).
Proof.
  intros Hc. rewrite StrFacts.app_cons. cbn.
  unfold not_space in Hc. apply negb_true_iff in Hc. rewrite Hc.
  destruct (Str.span_nonspace (w +:+ t)) as [u r]. eauto.
Qed.

Lemma url_at_some (s u rest : string) :
  url_at s = Some (u, rest) -> match_here url_pattern s u rest.
Proof.
  unfold url_at. intros H.
  assert (Hcore : exists scheme t w,
             (scheme = "http://" \/ scheme = "https://") /\
             s = scheme +:+ t /\ Str.span_nonspace t = (w, rest) /\
             w <> "" /\ u = scheme +:+ w /\
             forall scheme' x, (scheme' = "http://" \/ scheme' = "https://") ->
                               s = scheme' +:+ x -> scheme' = scheme).
  { destruct (Str.strip_prefix "https://" s) as [t|] eqn:E1.
    - apply StrFacts.strip_prefix_app in E1.
      destruct (Str.span_nonspace t) as [w r] eqn:Es.
      destruct w as [|c w]; [discriminate|]. injection H as <- <-.
      exists "https://", t, (String c w). repeat split; auto; try discriminate.
      intros scheme' x [-> | ->] E; [|reflexivity].
      rewrite E1 in E. discriminate.
    - destruct (Str.strip_prefix "http://" s) as [t|] eqn:E2; [|discriminate].
      apply StrFacts.strip_prefix_app in E2.
      destruct (Str.span_nonspace t) as [w r] eqn:Es.
      destruct w as [|c w]; [discriminate|]. injection H as <- <-.
      exists "http://", t, (String c w). repeat split; auto; try discriminate.
      intros scheme' x [-> | ->] E; [reflexivity|].
      rewrite E, StrFacts.strip_prefix_of_app in E1. discriminate. }
  destruct Hcore as (scheme & t & w & Hsch & Hs & Hspan & Hne & Hu & Huniq).
  pose proof (StrFacts.span_nonspace_app _ _ _ Hspan) as Ht.
  pose proof (StrFacts.span_nonspace_all _ _ _ Hspan) as Hall.
  pose proof (StrFacts.span_nonspace_stop _ _ _ Hspan) as Hstop.
  split; [|split].
  - now rewrite Hs, Ht, Hu, StrFacts.app_assoc.
  - apply url_pattern_lang. exists w. subst u.
    split; [destruct Hsch as [-> | ->]; [now left | now right] | now split].
  - intros p x Ep Hp. apply url_pattern_lang in Hp as (w' & Hp & Hne' & Hall').
    assert (Hp' : exists scheme', (scheme' = "http://" \/ scheme' = "https://") /\
                                  p = scheme' +:+ w').
    { destruct Hp as [-> | ->]; [exists "http://" | exists "https://"]; split; auto. }
    destruct Hp' as (scheme' & Hsch' & ->).
    rewrite StrFacts.app_assoc in Ep.
    pose proof (Huniq _ _ Hsch' Ep) as ->.
    rewrite Hs in Ep.
    assert (E : t = w' +:+ x).
    { destruct Hsch as [-> | ->]; now injection Ep. }
    rewrite Ht in E. symmetry in E.
    pose proof (nonspace_prefix_le _ _ _ _ E Hall' Hstop).
    subst u. rewrite !StrFacts.length_app. lia.
Qed.

Lemma url_at_none (s : string) :
  url_at s = None -> no_match_here url_pattern s.
Proof.
  unfold url_at. intros H p t -> Hp.
  apply url_pattern_lang in Hp as (w & Hp & Hne & Hall).
  destruct w as [|c w]; [congruence|].
  cbn in Hall. apply andb_true_iff in Hall as [Hc _].
  destruct Hp as [-> | ->]; rewrite StrFacts.app_assoc in H.
  - replace (Str.strip_prefix "https://" ("http://" +:+ (String c w +:+ t)))
      with (@None string) in H by reflexivity.
    rewrite StrFacts.strip_prefix_of_app in H.
    destruct (span_nonspace_nonempty c w t Hc) as (u & r & E).
    rewrite E in H. discriminate.
  - rewrite StrFacts.strip_prefix_of_app in H.
    destruct (span_nonspace_nonempty c w t Hc) as (u & r & E).
    rewrite E in H. discriminate.
Qed.

Lemma findall_skip (w r : string) :
  findall_from (String.length w) (w +:+ r) = findall_from 0 r.
Proof. induction w as [|c w IH]; [reflexivity | exact IH]. Qed.

Lemma findall_step (c : ascii) (s : string) :
  findall_from 0 (String c s) =
  match url_at (String c s) with
  | Some (u, rest) => u :: findall_from 0 rest
  | None => findall_from 0 s
  end.
Proof.
  cbn [findall_from].
  destruct (url_at (String c s)) as [[u rest]|] eqn:E; [|reflexivity].
  apply url_at_some in E as (Es & Hu & _).
  destruct u as [|d u].
  - apply nullable_spec in Hu. discriminate.
  - rewrite StrFacts.app_cons in Es. injection Es as _ ->.
    replace (String.length (String d u) - 1) with (String.length u) by (cbn; lia).
    now rewrite findall_skip.
Qed.

Lemma occurrences_gap (r : regex) (c : ascii) (s : string) (l : list string) :
  no_match_here r (String c s) ->
  occurrences r s l -> occurrences r (String c s) l.
Proof.
  intros Hc H. destruct H as [s Hnone | g u rest us Hgap Hu Hrest].
  - apply occ_none. intros [|d g] t E.
    + rewrite StrFacts.app_nil_l in E. now subst t.
    + rewrite StrFacts.app_cons in E. injection E as _ E. now apply (Hnone g).
  - rewrite <- StrFacts.app_cons. apply occ_next; [|assumption..].
    intros [|d g1] g2 E Hne.
    + rewrite StrFacts.app_nil_l in E. subst g2. exact Hc.
    + rewrite StrFacts.app_cons in E. injection E as _ E. now apply (Hgap g1).
Qed.

Lemma findall_occurrences_len (n : nat) (text : string) :
  String.length text <= n -> occurrences url_pattern text (findall_from 0 text).
Proof.
  revert text. induction n as [|n IH]; intros [|c s] Hlen; cbn in Hlen; try lia.
  1,2: apply occ_none; intros g t E; symmetry in E;
       apply app_nil_inv in E as [_ ->]; intros p t E;
       symmetry in E; apply app_nil_inv in E as [-> _];
       intros H; apply nullable_spec in H; discriminate.
  rewrite findall_step.
  destruct (url_at (String c s)) as [[u rest]|] eqn:E.
  - pose proof (url_at_some _ _ _ E) as Hm.
    destruct Hm as (Es & Hu & Hlong).
    assert (Hrest : String.length rest <= n).
    { apply (f_equal String.length) in Es. rewrite StrFacts.length_app in Es. cbn in Es.
      destruct u; [apply nullable_spec in Hu; discriminate | cbn in Es; lia]. }
    rewrite Es. change (u +:+ rest) with ("" +:+ (u +:+ rest)) at 1.
    apply occ_next.
    + intros g1 g2 Eg Hne. symmetry in Eg. apply app_nil_inv in Eg as [_ ->]. congruence.
    + rewrite <- Es. now apply url_at_some.
    + now apply IH.
  - apply occurrences_gap; [now apply url_at_none | apply IH; lia].
Qed.

Lemma findall_occurrences (text : string) :
  occurrences url_pattern text (findall_urls text).
Proof. now apply (findall_occurrences_len (String.length text)). Qed.

(** The keys of the pattern table are true in the sense of [if platform:]. *)
Lemma first_platform_key (table : list (string * list regex)) (url p : string) :
  first_platform table url = Some p -> p ∈ map fst table.
Proof.
  induction table as [|[k ps] table IH]; cbn; [discriminate|].
  destruct (existsb _ ps).
  - intros [= ->]. apply list_elem_of_here.
  - intros H. apply list_elem_of_further. now apply IH.
Qed.

Lemma detect_platform_truthy (url p : string) :
  detect_platform url = Some p -> Str.truthy p = true.
Proof.
  intros H. apply first_platform_key in H.
  assert (Hall : Forall (fun k => Str.truthy k = true) (map fst PATTERNS)).
  { repeat constructor. }
  rewrite Forall_forall in Hall. now apply Hall.
Qed.

Lemma extract_loop_omap (found : list string) (urls : list (string * string)) :
  extract_loop found urls =
  urls ++ omap (fun url => (fun platform => (url, platform)) <$> detect_platform url) found.
Proof.
  revert urls. induction found as [|url rest IH]; intros urls.
  - cbn. now rewrite app_nil_r.
  - cbn [extract_loop omap list_omap]. destruct (detect_platform url) as [p|] eqn:E.
    + rewrite (detect_platform_truthy _ _ E), IH, <- app_assoc. reflexivity.
    + apply IH.
Qed.

End URLParserFacts.

(** ** Facts about paths *)

Module PathFacts.
Import Path.

Lemma split_no_slash (s : string) :
  Forall (fun x => has_slash x = false) (split s).
Proof.
  induction s as [|c s IH]; cbn.
  - repeat constructor.
  - destruct (Ascii.eqb c "/") eqn:Ec.
    + constructor; [reflexivity | assumption].
    + destruct (split s) as [|h t].
      * apply Forall_cons. split; [|constructor].
        unfold has_slash. cbn. now rewrite Ec.
      * apply Forall_cons in IH as [Hh Ht]. apply Forall_cons. split; [|assumption].
        unfold has_slash in *. cbn. rewrite Ec. exact Hh.
Qed.

(** A base name holds no path separator. *)
Lemma name_no_slash (s : string) : has_slash (name (parts s)) = false.
Proof.
  unfold name. destruct (last (parts s)) as [x|] eqn:E; [|reflexivity].
  destruct (is_anchor x) eqn:Ea; [reflexivity|].
  apply last_Some_elem_of in E. unfold parts in E.
  apply elem_of_app in E as [E|E].
  - exfalso. unfold anchor in E.
    assert (Hx : x = "/" \/ x = "//").
    { repeat match type of E with
             | context [match ?t with _ => _ end] => destruct t
             end;
      repeat match goal with
             | H : _ ∈ [] |- _ => apply elem_of_nil in H; contradiction
             | H : _ ∈ [_] |- _ => apply list_elem_of_singleton in H
             end; auto. }
    destruct Hx as [-> | ->]; discriminate.
  - apply list_elem_of_In, filter_In in E as [E _].
    pose proof (split_no_slash s) as H. rewrite Forall_forall in H.
    apply H. now apply list_elem_of_In.
Qed.





End PathFacts.

Module PathTests.
Import Path.

Example parts_abs : parts "/srv//dl/./7/42/" = ["/"; "srv"; "dl"; "7"; "42"].
Proof. reflexivity. Qed.

Example parts_rel : parts "./downloads" = ["downloads"].
Proof. reflexivity. Qed.

Example name_file : name (parts "downloads/7/42/a/clip.mp4") = "clip.mp4".
Proof. reflexivity. Qed.

Example name_root : name (parts "/") = "".
Proof. reflexivity. Qed.

Example to_str_abs : to_str (join (join (parts "/srv/dl") (pretty 7%Z)) (pretty 42%Z)) = "/srv/dl/7/42".
Proof. vm_compute. reflexivity. Qed.

End PathTests.

Module RegistryTests.
Import Registry.

Example stem_py : stem "tiktok_service.py" = "tiktok_service".
Proof. reflexivity. Qed.

Example service_name_tiktok : remove_all "_service" (stem "tiktok_service.py") = "tiktok".
Proof. reflexivity. Qed.

Example repo_registry :
  _discover_services Fixtures.repo_listing =
  list_to_map
    [ ("instagram", mkService 0 "InstagramDownloaderService");
      ("tiktok", mkService 1 "TikTokDownloaderService");
      ("douyin", mkService 1 "TikTokDownloaderService");
      ("ytdlp", mkService 2 "YTDLPService");
      ("youtube", mkService 2 "YTDLPService");
      ("twitter", mkService 2 "YTDLPService");
      ("facebook", mkService 2 "YTDLPService");
      ("generic", mkService 2 "YTDLPService") ].
Proof. reflexivity. Qed.

End RegistryTests.

Module DispatcherTests.
Import Dispatcher.

Example two_jobs_bound_one :
  (init 1 2 ≫= run [Start 0 false; Start 1 false; FetchBegin 0; FetchEnd 0;
                     Release 0; Wake 1; FetchBegin 1])
  = Some (mkState 0 [Done; Fetching]).
Proof. reflexivity. Qed.

Example second_cannot_fetch_early :
  (init 1 2 ≫= run [Start 0 false; Start 1 false; FetchBegin 0; FetchBegin 1]) = None.
Proof. reflexivity. Qed.

Example negative_bound : init (-1) 2 = None.
Proof. reflexivity. Qed.

End DispatcherTests.

(** ** The download history: updates *)

Section LedgerUpdates.
Import Bot.

(** C10. Updating a download record whose id is not in the download history
    changes nothing: the table is the same, no row is created, and the call
    returns normally, leaving the whole world as it was. *)
Theorem update_unknown_record_is_noop
  (w : world) (record_id : Z) (status : string)
  (file_path : option string) (file_size : option Z) (error_message : option string) :
  ledger w !! record_id = None ->
  DB.update_download_record (clock w) record_id status file_path file_size
    error_message (ledger w) = ledger w /\
  update_download_record record_id status file_path file_size error_message w
  = (inr tt, w).
Proof.
  intros Hnone.
  assert (E : DB.update_download_record (clock w) record_id status file_path
                file_size error_message (ledger w) = ledger w).
  { unfold DB.update_download_record. now rewrite Hnone. }
  split; [exact E|].
  unfold update_download_record, modify. rewrite E. now destruct w.
Qed.

Lemma update_unknown_record_is_noop_witness :
  ledger (Fixtures.world0 ∅ []) !! 2%Z = None /\
  update_download_record 2 "completed" (Some "downloads/7/2") (Some 60%Z) None
    (Fixtures.world0 ∅ [])
  = (inr tt, Fixtures.world0 ∅ []).
Proof.
  split; [reflexivity|].
  apply (update_unknown_record_is_noop (Fixtures.world0 ∅ []) 2). reflexivity.
Defined.

End LedgerUpdates.

(** ** What a computation leaves as it is *)

Module Frame.
Import Disk Registry Bot.

(** [keeps R m]: the world after [m], whether [m] returns or raises, is
    related by [R] to the world before. *)
Definition keeps {A : Type} (R : world -> world -> Prop) (m : M A) : Prop :=
  forall w, R w (m w).2.

Section Preorder.
Context (R : world -> world -> Prop).
Context (R_refl : forall w, R w w).
Context (R_trans : forall w1 w2 w3, R w1 w2 -> R w2 w3 -> R w1 w3).

Lemma keeps_ret {A : Type} (a : A) : keeps R (ret a).
Proof. intros w. apply R_refl. Qed.

Lemma keeps_raise {A : Type} (e : string) : keeps R (@raise A e).
Proof. intros w. apply R_refl. Qed.

Lemma keeps_get {A : Type} (f : world -> A) : keeps R (get f).
Proof. intros w. apply R_refl. Qed.

Lemma keeps_bind {A B : Type} (m : M A) (k : A -> M B) :
  keeps R m -> (forall a, keeps R (k a)) -> keeps R (m ≫= k).
Proof.
  intros Hm Hk w. unfold mbind, M_bind, bind.
  specialize (Hm w). destruct (m w) as [[e|a] w1]; cbn in *; [assumption|].
  eapply R_trans; [eassumption | apply Hk].
Qed.

Lemma keeps_try_except {A : Type} (m : M A) (h : string -> M A) :
  keeps R m -> (forall e, keeps R (h e)) -> keeps R (try_except m h).
Proof.
  intros Hm Hh w. unfold try_except.
  specialize (Hm w). destruct (m w) as [[e|a] w1]; cbn in *; [|assumption].
  eapply R_trans; [eassumption | apply Hh].
Qed.

Lemma keeps_try_finally {A : Type} (m : M A) (f : M unit) :
  keeps R m -> keeps R f -> keeps R (try_finally m f).
Proof.
  intros Hm Hf w. unfold try_finally.
  specialize (Hm w). destruct (m w) as [r w1]; cbn in *.
  specialize (Hf w1). destruct (f w1) as [[e|[]] w2]; cbn in *;
    eapply R_trans; eassumption.
Qed.

Lemma keeps_if {A : Type} (b : bool) (m1 m2 : M A) :
  keeps R m1 -> keeps R m2 -> keeps R (if b then m1 else m2).
Proof. now destruct b. Qed.

End Preorder.

(** The download history, the clock and the cleanup tasks are the same. *)
Definition same_books (w w' : world) : Prop :=
  ledger w' = ledger w /\ clock w' = clock w /\ timers w' = timers w.

Lemma same_books_refl (w : world) : same_books w w.
Proof. now repeat split. Qed.

Lemma same_books_trans (w1 w2 w3 : world) :
  same_books w1 w2 -> same_books w2 w3 -> same_books w1 w3.
Proof. unfold same_books. intros (?&?&?) (?&?&?). repeat split; congruence. Qed.

(** A transport that accepts every call still to come. *)
Definition quiet (w : world) : Prop := Forall (fun o => o = None) (network w).

Definition stays_quiet (w w' : world) : Prop := quiet w -> quiet w'.

Lemma stays_quiet_refl (w : world) : stays_quiet w w.
Proof. now intros H. Qed.

Lemma stays_quiet_trans (w1 w2 w3 : world) :
  stays_quiet w1 w2 -> stays_quiet w2 w3 -> stays_quiet w1 w3.
Proof. unfold stays_quiet. auto. Qed.

(** The file system is the same. *)
Definition same_disk (w w' : world) : Prop := disk w' = disk w.

Lemma same_disk_refl (w : world) : same_disk w w.
Proof. reflexivity. Qed.

Lemma same_disk_trans (w1 w2 w3 : world) :
  same_disk w1 w2 -> same_disk w2 w3 -> same_disk w1 w3.
Proof. unfold same_disk. congruence. Qed.

Lemma app_books (c : call) : keeps same_books (app c).
Proof.
  intros w. unfold app. destruct (network w) as [|[e|] net]; cbn; now repeat split.
Qed.

Lemma app_quiet (c : call) : keeps stays_quiet (app c).
Proof.
  intros w Hq. unfold app, quiet in *.
  destruct (network w) as [|o net] eqn:E; cbn.
  - constructor.
  - apply Forall_cons in Hq as [-> Hq]. cbn. exact Hq.
Qed.

Lemma app_disk (c : call) : keeps same_disk (app c).
Proof.
  intros w. unfold app. destruct (network w) as [|[e|] net]; reflexivity.
Qed.


Lemma log_books (level msg : string) : keeps same_books (log level msg).
Proof. intros w. now repeat split. Qed.

Lemma log_quiet (level msg : string) : keeps stays_quiet (log level msg).
Proof. intros w H. exact H. Qed.

Lemma log_disk (level msg : string) : keeps same_disk (log level msg).
Proof. intros w. reflexivity. Qed.

Lemma on_disk_books op : keeps same_books (on_disk op).
Proof. intros w. unfold on_disk. destruct (op (disk w)); now repeat split. Qed.

Lemma on_disk_quiet op : keeps stays_quiet (on_disk op).
Proof. intros w H. unfold on_disk. now destruct (op (disk w)). Qed.

Lemma new_zip_file_books : keeps same_books new_zip_file.
Proof.
  intros w. unfold new_zip_file.
  destruct (named_temporary_file _ _) as [[n rest]|]; now repeat split.
Qed.

Lemma new_zip_file_quiet : keeps stays_quiet new_zip_file.
Proof.
  intros w H. unfold new_zip_file.
  now destruct (named_temporary_file _ _) as [[n rest]|].
Qed.

Lemma write_zip_books n zf : keeps same_books (write_zip n zf).
Proof. intros w. now repeat split. Qed.

Lemma write_zip_quiet n zf : keeps stays_quiet (write_zip n zf).
Proof. intros w H. exact H. Qed.

Ltac books_prim :=
  first [ apply app_books | apply log_books | apply on_disk_books
        | apply new_zip_file_books | apply write_zip_books ].

Ltac quiet_prim :=
  first [ apply app_quiet | apply log_quiet | apply on_disk_quiet
        | apply new_zip_file_quiet | apply write_zip_quiet ].

(** A tactic for the goals [keeps R m]: it follows the structure of [m]. *)
Ltac keeps_tac R_refl R_trans prim :=
  repeat first
    [ prim
    | apply (keeps_bind _ R_trans); [|intros ?]
    | apply (keeps_try_except _ R_trans); [|intros ?]
    | apply (keeps_try_finally _ R_trans)
    | apply (keeps_ret _ R_refl)
    | apply (keeps_raise _ R_refl)
    | apply (keeps_get _ R_refl)
    | match goal with
      | |- keeps _ (if ?b then _ else _) => destruct b
      | |- keeps _ (match ?x with _ => _ end) => destruct x
      end ].

Lemma send_one_books c f cap : keeps same_books (send_one c f cap).
Proof. unfold send_one. keeps_tac same_books_refl same_books_trans books_prim. Qed.

Lemma send_one_quiet c f cap : keeps stays_quiet (send_one c f cap).
Proof. unfold send_one. keeps_tac stays_quiet_refl stays_quiet_trans quiet_prim. Qed.

Lemma send_files_body_books c fs md : keeps same_books (send_files_body c fs md).
Proof.
  unfold send_files_body.
  destruct fs as [|f fs]; [apply app_books|].
  destruct (1 <? length (f :: fs))%nat.
  - keeps_tac same_books_refl same_books_trans books_prim.
  - apply (keeps_bind _ same_books_trans); [apply (keeps_get _ same_books_refl)|].
    intros [|]; [apply send_one_books | apply (keeps_ret _ same_books_refl)].
Qed.

Lemma send_files_body_quiet c fs md : keeps stays_quiet (send_files_body c fs md).
Proof.
  unfold send_files_body.
  destruct fs as [|f fs]; [apply app_quiet|].
  destruct (1 <? length (f :: fs))%nat.
  - keeps_tac stays_quiet_refl stays_quiet_trans quiet_prim.
  - apply (keeps_bind _ stays_quiet_trans); [apply (keeps_get _ stays_quiet_refl)|].
    intros [|]; [apply send_one_quiet | apply (keeps_ret _ stays_quiet_refl)].
Qed.

(** Delivery does not write to the download history. *)
Lemma send_files_books c fs md : keeps same_books (send_files_to_user c fs md).
Proof.
  unfold send_files_to_user.
  apply (keeps_try_except _ same_books_trans); [apply send_files_body_books|].
  intros e. keeps_tac same_books_refl same_books_trans books_prim.
Qed.

Lemma send_files_quiet c fs md : keeps stays_quiet (send_files_to_user c fs md).
Proof.
  unfold send_files_to_user.
  apply (keeps_try_except _ stays_quiet_trans); [apply send_files_body_quiet|].
  intros e. keeps_tac stays_quiet_refl stays_quiet_trans quiet_prim.
Qed.


End Frame.

(** ** Delivery of one file and of none *)

Section SilentDelivery.
Import Disk Bot.

(** C9. When the file list holds one path and that path is not on the disk,
    [send_files_to_user] calls the transport not at all and returns: the
    world, with the record of the calls made, is what it was. With an empty
    file list the requester is told that nothing was downloaded. *)
Theorem missing_single_file_is_silent
  (chat_id : Z) (file_path : string) (metadata : gmap string string) (w : world) :
  exists_ (disk w) file_path = false ->
  send_files_to_user chat_id [file_path] metadata w = (inr tt, w) /\
  exists tail,
    sent (send_files_to_user chat_id [] metadata w).2 =
    sent w ++ mkDelivery (send_message chat_id "❌ No files were downloaded.") None
                (default None (head (network w))) :: tail.
Proof.
  intros Hmissing. split.
  - unfold send_files_to_user, try_except, send_files_body.
    cbn [length Nat.ltb Nat.leb].
    unfold mbind, M_bind, bind, get. rewrite Hmissing. reflexivity.
  - unfold send_files_to_user, try_except, send_files_body, app.
    destruct (network w) as [|[e|] net]; cbn.
    + exists []. reflexivity.
    + unfold mbind, M_bind, bind, log, modify. cbn.
      destruct net as [|[e'|] net']; cbn; eexists;
        rewrite <- app_assoc; reflexivity.
    + exists []. reflexivity.
Qed.

Lemma missing_single_file_is_silent_witness :
  exists_ (disk (Fixtures.world0 ∅ [])) "downloads/7/1/a.mp4" = false /\
  send_files_to_user 100 ["downloads/7/1/a.mp4"] ∅ (Fixtures.world0 ∅ [])
  = (inr tt, Fixtures.world0 ∅ []).
Proof.
  split; [reflexivity|].
  apply (missing_single_file_is_silent 100 "downloads/7/1/a.mp4" ∅ (Fixtures.world0 ∅ [])).
  reflexivity.
Defined.

End SilentDelivery.

(** ** The download job after a successful fetch *)

Module JobFacts.
Import Disk Registry Bot Frame.

(** The world in which the job delivers the files: the downloader has
    written the disk [d] and returned [r], and the record is updated. *)
Definition recorded (E : env) (t : task_data) (w : world)
  (d : gmap (list string) node) (r : fetch_result) : world :=
  let output_dir := task_dir (config E) (user_id t) (record_id t) in
  set_ledger
    (DB.update_download_record (clock w) (record_id t) "completed"
       (Some (Path.to_str output_dir)) (Some (total_size d (files r))) None (ledger w))
    (set_disk d w).

(** The download history is the same. *)
Definition same_ledger (w w' : world) : Prop := ledger w' = ledger w.

Lemma same_ledger_refl (w : world) : same_ledger w w.
Proof. reflexivity. Qed.

Lemma same_ledger_trans (w1 w2 w3 : world) :
  same_ledger w1 w2 -> same_ledger w2 w3 -> same_ledger w1 w3.
Proof. unfold same_ledger. congruence. Qed.

Lemma app_ledger (c : call) : keeps same_ledger (app c).
Proof. intros w. apply (app_books c w). Qed.

Lemma log_ledger (level msg : string) : keeps same_ledger (log level msg).
Proof. intros w. reflexivity. Qed.

Lemma create_cleanup_task_ledger (u r dl : Z) :
  keeps same_ledger (create_cleanup_task u r dl).
Proof. intros w. reflexivity. Qed.

(** Telling the requester of the failure and logging it. *)
Lemma notify_failure_ledger (c : call) (level msg : string) :
  keeps same_ledger (try_except (app c) (fun _ => ret tt);; log level msg).
Proof.
  apply (keeps_bind _ same_ledger_trans).
  - apply (keeps_try_except _ same_ledger_trans); [apply app_ledger|].
    intros _. apply (keeps_ret _ same_ledger_refl).
  - intros _. apply log_ledger.
Qed.

Lemma ledger_try_finally {A : Type} (m : M A) (u r dl : Z) (w : world) :
  ledger (try_finally m (create_cleanup_task u r dl) w).2 = ledger (m w).2.
Proof. unfold try_finally. now destruct (m w). Qed.

(** The download history at the end of a job whose downloader returned a
    success: the update to [completed], and on top of it the update to
    [failed] when an exception leaves [send_files_to_user]. *)
Lemma ledger_after_success (E : env) (t : task_data) (w : world) (s : service)
  (d0 d : gmap (list string) node) (r : fetch_result) :
  get_service_for_url (services E) (url t) = Some s ->
  mkdir_parents (task_dir (config E) (user_id t) (record_id t)) (disk w) = inr d0 ->
  download E s (url t) (Path.to_str (task_dir (config E) (user_id t) (record_id t))) d0
  = (inr r, d) ->
  success r = true ->
  ledger (process_download_task E t w).2 =
  match (send_files_to_user (chat_id t) (files r) (default ∅ (metadata r))
           (recorded E t w d r)).1 with
  | inr _ => ledger (recorded E t w d r)
  | inl e =>
      DB.update_download_record (clock w) (record_id t) "failed" None None (Some e)
        (ledger (recorded E t w d r))
  end.
Proof.
  intros Hsvc Hmk Hdl Hok.
  unfold process_download_task. rewrite ledger_try_finally.
  unfold try_except at 1.
  unfold mbind at 1 2 3 4 5 6, M_bind, bind. rewrite Hsvc. unfold ret at 1.
  unfold on_disk at 1. rewrite Hmk.
  unfold run_download. cbn [disk set_disk]. rewrite Hdl, Hok.
  unfold get at 1. cbn [disk set_disk].
  unfold update_download_record at 1, modify at 1.
  cbn [clock ledger set_disk].
  change (set_ledger _ _) with (recorded E t w d r).
  pose proof (send_files_books (chat_id t) (files r) (default ∅ (metadata r))
                (recorded E t w d r)) as (Hl & Hc & _).
  destruct (send_files_to_user _ _ _ (recorded E t w d r)) as [[e|[]] w3];
    cbn [fst snd] in Hl, Hc |- *.
  - unfold mbind at 1, M_bind, bind.
    unfold update_download_record at 1, modify at 1.
    pose proof (notify_failure_ledger
                  (send_message (chat_id t) (failure_text (url t) e)) "ERROR"
                  ("Download task failed: " +:+ url t +:+ " - " +:+ e)) as Hn.
    rewrite (Hn _). cbn [ledger set_ledger]. now rewrite Hl, Hc.
  - unfold mbind, M_bind, bind, log, modify. exact Hl.
Qed.

End JobFacts.

(** ** The record of a completed download *)

Section CompletedRecord.
Import Disk Registry Bot Frame JobFacts.










End CompletedRecord.

(** ** Delivery of several files as one archive *)

Module ArchiveFacts.
Import Disk Bot Frame.

(** The disk once the temporary file [zip_name] is created. *)
Definition staged (w : world) (zip_name : string) : gmap (list string) node :=
  <[Path.parts zip_name := mkNode false 0 Data None]> (disk w).

(** The members written for [files] on the disk [d]. *)
Definition members_of (d : gmap (list string) node) (files : list string)
  : list (string * string) :=
  map (fun f => (member_name d f (Path.name (Path.parts f)), f))
      (List.filter (exists_ d) files).

Definition archive_node (d : gmap (list string) node) (zf : list (string * string)) : node :=
  mkNode false (zip_size d zf) (Zip zf) None.

Definition archive_caption (files : list string) (metadata : gmap string string) : string :=
  "✅ Downloaded: " +:+ default "Media files" (metadata !! "title")
  +:+ " (" +:+ pretty (length files) +:+ " files)".

(** [ZipFile.write] takes every file of the list. *)
Definition all_written (d : gmap (list string) node) (files : list string) : Prop :=
  Forall (fun f => write_raises d f = None) files.

#[global] Instance all_written_dec d files : Decision (all_written d files).
Proof. unfold all_written. apply _. Defined.

Lemma zip_loop_members (d : gmap (list string) node) (files : list string)
  (zf : list (string * string)) :
  all_written d files ->
  zip_loop d files zf = (zf ++ members_of d files, None).
Proof.
  revert zf. induction files as [|f files IH]; intros zf Hall; cbn.
  - now rewrite app_nil_r.
  - apply Forall_cons in Hall as [Hf Hall].
    unfold members_of. cbn. destruct (exists_ d f); cbn.
    + rewrite Hf, (IH _ Hall), <- app_assoc. reflexivity.
    + now apply IH.
Qed.

(** When [ZipFile.write] does not take a file, the loop ends with the
    exception it raised. *)
Lemma zip_loop_refused (d : gmap (list string) node) (files : list string)
  (zf : list (string * string)) :
  ~ all_written d files -> exists e, (zip_loop d files zf).2 = Some e.
Proof.
  revert zf. induction files as [|f files IH]; intros zf Hnot.
  - exfalso. apply Hnot. constructor.
  - cbn [zip_loop].
    destruct (write_raises d f) as [e|] eqn:Ef.
    + destruct (exists_ d f) eqn:Ex; [eauto|]. exfalso.
      unfold write_raises in Ef. unfold exists_, path_exists in Ex.
      destruct (d !! Path.parts f); discriminate.
    + assert (Hrest : ~ all_written d files).
      { intros H. apply Hnot. now constructor. }
      destruct (exists_ d f); now apply IH.
Qed.

(** The temporary file is taken by [ZipFile.write]. *)
Lemma all_written_staged (w : world) (zip_name : string) (files : list string) :
  all_written (disk w) files -> all_written (staged w zip_name) files.
Proof.
  unfold all_written. intros H. eapply Forall_impl; [exact H|]. intros f Hf.
  unfold write_raises, staged in *.
  destruct (decide (Path.parts zip_name = Path.parts f)) as [<-|Hne].
  - now rewrite lookup_insert_eq.
  - now rewrite lookup_insert_ne.
Qed.

(** The world in which the archive is handed to the transport, and the
    world once the transport has seen the call. *)
Definition archive_written (w : world) (zip_name : string) (rest : list string)
  (files : list string) : world :=
  let d1 := staged w zip_name in
  set_disk (<[Path.parts zip_name := archive_node d1 (members_of d1 files)]> d1)
    (set_tmp_names rest w).

Definition archive_offered (chat_id : Z) (metadata : gmap string string) (w : world)
  (zip_name : string) (rest : list string) (files : list string) : world :=
  let d1 := staged w zip_name in
  let w1 := archive_written w zip_name rest files in
  set_sent
    (sent w ++
     [mkDelivery (send_document chat_id zip_name (archive_caption files metadata))
        (Some (archive_node d1 (members_of d1 files)))
        (default None (head (network w)))])
    (set_network (tail (network w)) w1).

(** What the branch for several files does when the archive is written. *)
Lemma send_archive_eval (chat_id : Z) (files : list string)
  (metadata : gmap string string) (w : world) (zip_name : string) (rest : list string) :
  (1 < length files)%nat ->
  named_temporary_file (tmp_names w) (disk w) = Some (zip_name, rest) ->
  all_written (staged w zip_name) files ->
  send_files_body chat_id files metadata w =
  let w2 := archive_offered chat_id metadata w zip_name rest files in
  match default None (head (network w)) with
  | Some e => (inl e, w2)
  | None => (inr tt, set_disk (delete (Path.parts zip_name) (disk w2)) w2)
  end.
Proof.
  intros Hlen Htmp Hall. unfold send_files_body.
  destruct files as [|f fs]; [cbn in Hlen; lia|].
  apply Nat.ltb_lt in Hlen. rewrite Hlen.
  unfold mbind, M_bind, bind, new_zip_file. rewrite Htmp.
  unfold get, write_zip, modify. cbn [disk set_disk set_tmp_names].
  fold (staged w zip_name).
  rewrite (zip_loop_members _ _ [] Hall). cbn [app fst snd]. unfold ret.
  unfold app, archive_offered, archive_written, archive_caption.
  cbn [network set_disk set_tmp_names set_network set_sent sent disk attachment].
  rewrite lookup_insert_eq.
  destruct (network w) as [|[e|] net]; cbn [head default tail]; try reflexivity.
  all: unfold on_disk, unlink_missing_ok;
       cbn [disk set_sent set_network set_disk];
       rewrite lookup_insert_eq; reflexivity.
Qed.

(** What the branch for several files does when [ZipFile.write] raises:
    the archive is closed with the members it has, nothing is handed to the
    transport, and the exception leaves the branch. *)
Lemma send_refused_eval (chat_id : Z) (files : list string)
  (metadata : gmap string string) (w : world) (zip_name : string) (rest : list string) :
  (1 < length files)%nat ->
  named_temporary_file (tmp_names w) (disk w) = Some (zip_name, rest) ->
  ~ all_written (staged w zip_name) files ->
  exists e zf,
    send_files_body chat_id files metadata w =
    (inl e, set_disk (<[Path.parts zip_name := archive_node (staged w zip_name) zf]>
                        (staged w zip_name))
              (set_tmp_names rest w)).
Proof.
  intros Hlen Htmp Hnot. unfold send_files_body.
  destruct files as [|f fs]; [cbn in Hlen; lia|].
  apply Nat.ltb_lt in Hlen. rewrite Hlen.
  unfold mbind, M_bind, bind, new_zip_file. rewrite Htmp.
  unfold get, write_zip, modify. cbn [disk set_disk set_tmp_names].
  fold (staged w zip_name).
  destruct (zip_loop_refused _ _ [] Hnot) as [e He].
  destruct (zip_loop (staged w zip_name) (f :: fs) []) as [zf o]. cbn [snd] in He.
  subst o. cbn [fst snd]. unfold raise. exists e, zf. reflexivity.
Qed.

(** What the branch for several files does when no temporary file can be
    created. *)
Lemma send_unstaged_eval (chat_id : Z) (files : list string)
  (metadata : gmap string string) (w : world) :
  (1 < length files)%nat ->
  named_temporary_file (tmp_names w) (disk w) = None ->
  exists e, send_files_body chat_id files metadata w = (inl e, w).
Proof.
  intros Hlen Htmp. unfold send_files_body.
  destruct files as [|f fs]; [cbn in Hlen; lia|].
  apply Nat.ltb_lt in Hlen. rewrite Hlen.
  unfold mbind, M_bind, bind, new_zip_file. rewrite Htmp. eauto.
Qed.

End ArchiveFacts.

Section ArchiveDelivery.
Import Disk Bot Frame ArchiveFacts.

(** The archives among the calls the transport saw. *)
Definition archives (ds : list delivery) : list (list (string * string)) :=
  omap (fun dl =>
          match what dl, upload dl with
          | send_document _ _ _, Some (mkNode _ _ (Zip zf) _) => Some zf
          | _, _ => None
          end) ds.

Definition base_name (f : string) : string := Path.name (Path.parts f).

(** The claim as the specification words it: for a list of [N > 1] files one
    archive is sent, with [N] members named by the base names of the files,
    no two of them under the same name. *)
Definition archive_claim (chat_id : Z) (files : list string)
  (metadata : gmap string string) (w : world) : Prop :=
  (1 < length files)%nat ->
  exists zf,
    archives (sent (send_files_to_user chat_id files metadata w).2) =
    archives (sent w) ++ [zf] /\
    length zf = length files /\
    map fst zf = map base_name files /\
    NoDup (map fst zf).

(** Two images of one post, kept by the downloader in two directories. *)
Definition twin_disk : gmap (list string) node :=
  <[ ["downloads"; "7"; "1"; "a"; "x.jpg"] := Fixtures.file_node 10 ]>
  (<[ ["downloads"; "7"; "1"; "b"; "x.jpg"] := Fixtures.file_node 20 ]> Fixtures.disk3).

Definition twin_files : list string :=
  ["downloads/7/1/a/x.jpg"; "downloads/7/1/b/x.jpg"].

Lemma twin_archive :
  archives (sent (send_files_to_user 100 twin_files ∅ (Fixtures.world0 twin_disk [])).2)
  = [[("x.jpg", "downloads/7/1/a/x.jpg"); ("x.jpg", "downloads/7/1/b/x.jpg")]].
Proof. reflexivity. Qed.

(** A list that names a file the downloader has not left on the disk. *)
Definition stale_files : list string :=
  ["downloads/7/1/a.mp4"; "downloads/7/1/old.mp4"; "downloads/7/1/b.jpg"].

Lemma stale_archive :
  archives (sent (send_files_to_user 100 stale_files ∅
                    (Fixtures.world0 Fixtures.disk3 [])).2)
  = [[("a.mp4", "downloads/7/1/a.mp4"); ("b.jpg", "downloads/7/1/b.jpg")]].
Proof. reflexivity. Qed.

(** C2, counterexample. Two files with the same base name give two members
    with the same name: nothing renames the second. And a list of three
    files one of which is not on the disk gives an archive of two members. *)
Lemma archive_claim_fails :
  (~ archive_claim 100 twin_files ∅ (Fixtures.world0 twin_disk [])) /\
  (~ archive_claim 100 stale_files ∅ (Fixtures.world0 Fixtures.disk3 [])).
Proof.
  split.
  - intros H. destruct H as (zf & Hzf & _ & _ & Hnd); [cbn; lia|].
    rewrite twin_archive in Hzf. cbn in Hzf. injection Hzf as <-.
    cbn in Hnd. apply NoDup_cons in Hnd as [Hin _].
    apply Hin. apply list_elem_of_here.
  - intros H. destruct H as (zf & Hzf & Hlen & _); [cbn; lia|].
    rewrite stale_archive in Hzf. cbn in Hzf. injection Hzf as <-.
    discriminate Hlen.
Qed.

Lemma filter_all {A : Type} (f : A -> bool) (l : list A) :
  Forall (fun x => f x = true) l -> List.filter f l = l.
Proof.
  induction l as [|x l IH]; [reflexivity|].
  intros H. apply Forall_cons in H as [Hx H]. cbn. rewrite Hx. f_equal. now apply IH.
Qed.

(** A file of the list that exists is a regular file with a base name. *)
Definition regular (d : gmap (list string) node) (f : string) : Prop :=
  forall n, d !! Path.parts f = Some n -> is_dir n = false /\ base_name f <> "".

Lemma member_name_regular (d : gmap (list string) node) (f : string) :
  exists_ d f = true -> regular d f -> member_name d f (base_name f) = base_name f.
Proof.
  unfold exists_, path_exists, regular, member_name. intros Hex Hreg.
  destruct (d !! Path.parts f) as [n|]; [|discriminate].
  destruct (Hreg n eq_refl) as [-> Hne].
  apply String.eqb_neq in Hne. rewrite Hne. apply StrFacts.app_nil_r.
Qed.

(** A path of the list that is a directory with a base name. *)
Definition directory (d : gmap (list string) node) (f : string) : Prop :=
  exists n, d !! Path.parts f = Some n /\ is_dir n = true /\ base_name f <> "".

Lemma member_name_directory (d : gmap (list string) node) (f : string) :
  directory d f -> member_name d f (base_name f) = base_name f +:+ "/".
Proof.
  unfold directory, member_name. intros (n & -> & -> & Hne).
  apply String.eqb_neq in Hne. now rewrite Hne.
Qed.

(** The message that reports an exception is no archive. *)
Lemma report_archives (chat_id : Z) (e : string) (w1 : world) :
  archives (sent ((log "ERROR" ("Error sending files to " +:+ pretty chat_id +:+ ": " +:+ e);;
                   app (send_message chat_id ("❌ Error sending files: " +:+ e))) w1).2)
  = archives (sent w1).
Proof.
  unfold mbind, M_bind, bind, log, modify, app.
  cbn [network set_logs sent attachment].
  destruct (network w1) as [|[e'|] net];
    cbn [snd sent set_sent set_network set_logs];
    unfold archives; rewrite omap_app; cbn; now rewrite app_nil_r.
Qed.

(** C2, as amended. For a list of [N > 1] files the transport is handed one
    archive, unless no temporary file can be created or [ZipFile.write]
    raises for one of the files: then it is handed none. The members of the
    archive are the files of the list that exist on the disk when the archive
    is built, in the order of the list, one member for each: at most [N], and
    [N] when all exist. Each member is stored under the name [ZipFile.write]
    derives from the base name of its file: for a regular file that base
    name, which holds no directory part, for a directory that base name
    followed by a slash. Nothing renames a member, also when two have the
    same name. *)
Theorem archive_members
  (chat_id : Z) (files : list string) (metadata : gmap string string) (w : world) :
  (1 < length files)%nat ->
  match named_temporary_file (tmp_names w) (disk w) with
  | Some (zip_name, _) =>
      let d1 := staged w zip_name in
      if decide (all_written d1 files) then
        exists zf,
          archives (sent (send_files_to_user chat_id files metadata w).2) =
          archives (sent w) ++ [zf] /\
          map snd zf = List.filter (exists_ d1) files /\
          (length zf <= length files)%nat /\
          (Forall (fun f => exists_ d1 f = true) files -> length zf = length files) /\
          Forall (fun m =>
                    m.1 = member_name d1 m.2 (base_name m.2) /\
                    (regular d1 m.2 -> m.1 = base_name m.2 /\ Path.has_slash m.1 = false) /\
                    (directory d1 m.2 -> m.1 = base_name m.2 +:+ "/")) zf
      else
        archives (sent (send_files_to_user chat_id files metadata w).2) =
        archives (sent w)
  | None =>
      archives (sent (send_files_to_user chat_id files metadata w).2) =
      archives (sent w)
  end.
Proof.
  intros Hlen.
  destruct (named_temporary_file (tmp_names w) (disk w)) as [[zip_name rest]|] eqn:Htmp.
  2: { destruct (send_unstaged_eval chat_id files metadata w Hlen Htmp) as [e He].
       unfold send_files_to_user, try_except. rewrite He. apply report_archives. }
  cbv zeta. destruct (decide (all_written (staged w zip_name) files)) as [Hall|Hnot].
  2: { destruct (send_refused_eval chat_id files metadata w zip_name rest Hlen Htmp Hnot)
         as (e & zf & He).
       unfold send_files_to_user, try_except. rewrite He, report_archives.
       reflexivity. }
  set (d1 := staged w zip_name). exists (members_of d1 files).
  assert (Hsnd : map snd (members_of d1 files) = List.filter (exists_ d1) files).
  { unfold members_of. rewrite map_map. cbn. apply map_id. }
  split; [|split; [exact Hsnd|split; [|split]]].
  - unfold send_files_to_user, try_except.
    rewrite (send_archive_eval chat_id files metadata w zip_name rest Hlen Htmp Hall).
    cbn zeta. fold d1. unfold archive_offered. fold d1.
    destruct (default None (head (network w))) as [e|] eqn:Eo.
    + rewrite report_archives. cbn [sent set_sent set_network].
      unfold archives. rewrite omap_app. reflexivity.
    + cbn [snd sent set_disk set_sent].
      unfold archives. rewrite omap_app. reflexivity.
  - rewrite <- (length_map snd), Hsnd. apply List.filter_length_le.
  - intros Hex. rewrite <- (length_map snd), Hsnd. f_equal.
    now apply filter_all.
  - unfold members_of. apply Forall_map. cbn. apply Forall_forall. intros f Hf.
    apply list_elem_of_In, filter_In in Hf as [Hin Hex]. fold (base_name f).
    split; [reflexivity|]. split.
    + intros Hreg. rewrite (member_name_regular d1 f Hex Hreg).
      split; [reflexivity | apply PathFacts.name_no_slash].
    + apply member_name_directory.
Qed.

Lemma archive_members_witness :
  exists zf,
    archives (sent (send_files_to_user 100 Fixtures.files3 ∅
                      (Fixtures.world0 Fixtures.disk3 [])).2) = [] ++ [zf] /\
    map fst zf = ["a.mp4"; "b.jpg"; "c.txt"].
Proof.
  pose proof (archive_members 100 Fixtures.files3 ∅ (Fixtures.world0 Fixtures.disk3 [])
                ltac:(cbn; lia)) as H.
  replace (named_temporary_file (tmp_names (Fixtures.world0 Fixtures.disk3 []))
             (disk (Fixtures.world0 Fixtures.disk3 [])))
    with (Some ("/tmp/tmpk3v9.zip", @nil string)) in H by reflexivity.
  cbv zeta in H.
  destruct (decide (all_written (staged (Fixtures.world0 Fixtures.disk3 []) "/tmp/tmpk3v9.zip")
                      Fixtures.files3)) as [_|Hnot].
  - destruct H as (zf & Harch & Hsnd & _ & _ & Hnames).
    exists zf. split; [exact Harch|].
    assert (E : map snd zf = Fixtures.files3) by (rewrite Hsnd; reflexivity).
    destruct zf as [|[n1 f1] [|[n2 f2] [|[n3 f3] [|? ?]]]]; try discriminate E.
    injection E as -> -> ->.
    repeat (apply Forall_cons in Hnames as [[? _] Hnames]). cbn in *. subst.
    reflexivity.
  - exfalso. apply Hnot. repeat constructor.
Defined.

(** What becomes of the temporary archive: it is unlinked when the
    transport accepts the document, and it stays on the disk when the
    transport raises, the [unlink] standing behind the call. *)
Lemma archive_fate
  (chat_id : Z) (files : list string) (metadata : gmap string string) (w : world)
  (zip_name : string) (rest : list string) :
  (1 < length files)%nat ->
  named_temporary_file (tmp_names w) (disk w) = Some (zip_name, rest) ->
  all_written (staged w zip_name) files ->
  disk (send_files_to_user chat_id files metadata w).2 !! Path.parts zip_name =
  match default None (head (network w)) with
  | Some _ => Some (archive_node (staged w zip_name) (members_of (staged w zip_name) files))
  | None => None
  end.
Proof.
  intros Hlen Htmp Hall. unfold send_files_to_user, try_except.
  rewrite (send_archive_eval chat_id files metadata w zip_name rest Hlen Htmp Hall).
  cbn zeta. destruct (default None (head (network w))) as [e|].
  - pose proof (keeps_bind same_disk same_disk_trans
                  (log "ERROR" ("Error sending files to " +:+ pretty chat_id +:+ ": " +:+ e))
                  (fun _ => app (send_message chat_id ("❌ Error sending files: " +:+ e)))
                  (log_disk _ _) (fun _ => app_disk _)) as Hd.
    rewrite (Hd _). unfold archive_offered, archive_written.
    cbn [disk set_sent set_network set_disk]. apply lookup_insert_eq.
  - cbn [snd disk set_disk]. apply lookup_delete_eq.
Qed.

(** C6, the failing input. Three produced files, and a transport that
    refuses the document: when [send_files_to_user] is over the archive is
    still in the temporary directory. *)
Theorem archive_left_behind_when_send_fails :
  let w := Fixtures.world0 Fixtures.disk3 [Some "FLOOD_WAIT_X"] in
  let w' := (send_files_to_user 100 Fixtures.files3 ∅ w).2 in
  exists_ (disk w) "/tmp/tmpk3v9.zip" = false /\
  exists_ (disk w') "/tmp/tmpk3v9.zip" = true /\
  map outcome (sent w') = [Some "FLOOD_WAIT_X"; None].
Proof. repeat split. Qed.

Example archive_removed_when_send_succeeds :
  let w := Fixtures.world0 Fixtures.disk3 [] in
  exists_ (disk (send_files_to_user 100 Fixtures.files3 ∅ w).2) "/tmp/tmpk3v9.zip" = false.
Proof. reflexivity. Qed.

End ArchiveDelivery.

(** ** A delivery that fails *)

Section DeliveryFailure.
Import Disk Registry Bot Frame JobFacts.

(** The status of the row at the end of a job whose downloader returned a
    success: [failed] when an exception leaves [send_files_to_user]. *)
Lemma status_after_delivery
  (E : env) (t : task_data) (w : world) (s : service)
  (d0 d : gmap (list string) node) (r : fetch_result) (row : DB.DownloadHistory) :
  get_service_for_url (services E) (url t) = Some s ->
  mkdir_parents (task_dir (config E) (user_id t) (record_id t)) (disk w) = inr d0 ->
  download E s (url t) (Path.to_str (task_dir (config E) (user_id t) (record_id t))) d0
  = (inr r, d) ->
  success r = true ->
  ledger w !! record_id t = Some row ->
  DB.status <$> ledger (process_download_task E t w).2 !! record_id t =
  Some (match (send_files_to_user (chat_id t) (files r) (default ∅ (metadata r))
                 (recorded E t w d r)).1 with
        | inr _ => "completed"
        | inl _ => "failed"
        end).
Proof.
  intros Hsvc Hmk Hdl Hok Hrow.
  rewrite (ledger_after_success E t w s d0 d r Hsvc Hmk Hdl Hok).
  assert (Hrec : exists row', ledger (recorded E t w d r) !! record_id t = Some row' /\
                              DB.status row' = "completed").
  { unfold recorded. cbn [ledger set_ledger].
    unfold DB.update_download_record. rewrite Hrow, lookup_insert_eq.
    eexists. split; [reflexivity|].
    repeat match goal with |- context [if ?b then _ else _] => destruct b end;
      reflexivity. }
  destruct Hrec as (row' & Hrow' & Hst).
  destruct (send_files_to_user _ _ _ _).1 as [e|[]].
  - unfold DB.update_download_record. rewrite Hrow', lookup_insert_eq. cbn.
    repeat match goal with |- context [if ?b then _ else _] => destruct b end;
      reflexivity.
  - rewrite Hrow'. cbn. now rewrite Hst.
Qed.

Definition one_video_env : env :=
  Fixtures.env_returning (mkResult true ["downloads/7/1/a.mp4"] None None).

(** C3, the failing input. The fetch succeeds with one video; the requester
    has blocked the bot, so [send_video] raises and the message that reports
    the error raises too. The exception leaves [send_files_to_user], reaches
    the handler of the job, and the row ends as [failed]. *)
Theorem delivery_failure_marks_task_failed :
  let w := Fixtures.world0 Fixtures.disk3
             [Some "USER_IS_BLOCKED"; Some "USER_IS_BLOCKED"; Some "USER_IS_BLOCKED"] in
  ledger (process_download_task one_video_env Fixtures.task1 w).2 !! 1%Z =
  Some (DB.mkRow 7 "https://youtu.be/abc" "youtube" "failed"
          (Some "downloads/7/1") (Some 10%Z) 1000 (Some 5000%Z) (Some "USER_IS_BLOCKED")).
Proof. reflexivity. Qed.

(** When the message that reports the error goes through, the row stays
    [completed]. *)
Example delivery_failure_reported :
  let w := Fixtures.world0 Fixtures.disk3 [Some "FLOOD_WAIT_X"] in
  DB.status <$> ledger (process_download_task one_video_env Fixtures.task1 w).2 !! 1%Z
  = Some "completed".
Proof. reflexivity. Qed.

End DeliveryFailure.

(** ** The urls of a message *)

Section UrlExtraction.
Import Regex RegexFacts URLParser URLParserFacts.

Lemma str_app_inj_length (a b c d : string) :
  a +:+ b = c +:+ d -> String.length a = String.length c -> a = c /\ b = d.
Proof.
  revert c. induction a as [|x a IH]; intros [|y c] E Hlen; try discriminate Hlen.
  - now rewrite !StrFacts.app_nil_l in E.
  - rewrite !StrFacts.app_cons in E. injection E as -> E. injection Hlen as Hlen.
    destruct (IH c E Hlen) as [-> ->]. now split.
Qed.

Lemma str_app_eq_split (a b c d : string) :
  a +:+ b = c +:+ d ->
  exists k, (a = c +:+ k /\ d = k +:+ b) \/ (c = a +:+ k /\ b = k +:+ d).
Proof.
  revert c. induction a as [|x a IH]; intros c E.
  - exists c. right. now rewrite StrFacts.app_nil_l in *.
  - destruct c as [|y c].
    + exists (String x a). left. now rewrite StrFacts.app_nil_l in *.
    + rewrite !StrFacts.app_cons in E. injection E as -> E.
      destruct (IH c E) as (k & [[-> ->] | [-> ->]]); exists k; [left | right];
        now rewrite StrFacts.app_cons.
Qed.

Lemma match_here_not_none (r : regex) (s u rest : string) :
  match_here r s u rest -> ~ no_match_here r s.
Proof. intros (E & Hu & _) Hnone. exact (Hnone u rest E Hu). Qed.

(** The scan has one result. *)
Lemma occurrences_unique (r : regex) (s : string) (l1 l2 : list string) :
  occurrences r s l1 -> occurrences r s l2 -> l1 = l2.
Proof.
  intros H1. revert l2.
  induction H1 as [s Hnone | g u rest us Hgap Hu Hrest IH]; intros l2 H2.
  - inversion H2 as [|g' u' rest' us' Hgap' Hu' Hrest' E]; subst; [reflexivity|].
    exfalso. exact (match_here_not_none _ _ _ _ Hu' (Hnone g' _ eq_refl)).
  - inversion H2 as [s' Hnone' E|g' u' rest' us' Hgap' Hu' Hrest' E]; subst.
    + exfalso. exact (match_here_not_none _ _ _ _ Hu (Hnone' g _ eq_refl)).
    + assert (Eg : g = g' /\ u +:+ rest = u' +:+ rest').
      { destruct (str_app_eq_split _ _ _ _ E) as (k & [[Ek Ed] | [Ek Ed]]).
        - destruct k as [|c k].
          + rewrite StrFacts.app_nil_r in Ek. rewrite StrFacts.app_nil_l in Ed. now subst.
          + exfalso. rewrite Ed in Hu.
            exact (match_here_not_none _ _ _ _ Hu (Hgap' _ _ Ek ltac:(discriminate))).
        - destruct k as [|c k].
          + rewrite StrFacts.app_nil_r in Ek. rewrite StrFacts.app_nil_l in Ed. now subst.
          + exfalso. rewrite Ed in Hu'.
            exact (match_here_not_none _ _ _ _ Hu' (Hgap _ _ Ek ltac:(discriminate))). }
      destruct Eg as [-> Eu].
      destruct Hu as (_ & Hm & Hlong). destruct Hu' as (_ & Hm' & Hlong').
      pose proof (Hlong u' rest' Eu Hm') as Hle.
      pose proof (Hlong' u rest (eq_sym Eu) Hm) as Hle'.
      destruct (str_app_inj_length _ _ _ _ Eu ltac:(lia)) as [-> ->].
      f_equal. now apply IH.
Qed.

Definition classify (url : string) : option (string * string) :=
  (fun platform => (url, platform)) <$> detect_platform url.

(** C7. [extract_urls text] is obtained from the url-shaped substrings of
    the text, scheme [http://] or [https://] and the run of characters up to
    the next whitespace, found by scanning the text from left to right: each
    one that [detect_platform] classifies is returned with its platform, in
    the order in which they stand in the text, and those that it does not
    classify are left out. The scan has one result, [findall_urls text]. *)
Theorem extract_urls_exact (text : string) :
  occurrences url_pattern text (findall_urls text) /\
  (forall found, occurrences url_pattern text found -> found = findall_urls text) /\
  extract_urls text = omap classify (findall_urls text) /\
  (forall url platform,
     (url, platform) ∈ extract_urls text <->
     url ∈ findall_urls text /\ detect_platform url = Some platform).
Proof.
  pose proof (findall_occurrences text) as Hocc.
  assert (Hex : extract_urls text = omap classify (findall_urls text)).
  { unfold extract_urls. now rewrite extract_loop_omap. }
  split; [exact Hocc|]. split; [|split; [exact Hex|]].
  - intros found Hfound. exact (occurrences_unique _ _ _ _ Hfound Hocc).
  - intros url platform. rewrite Hex, list_elem_of_omap. unfold classify. split.
    + intros (u & Hu & Hc). destruct (detect_platform u) as [p|] eqn:E; [|discriminate].
      cbn in Hc. injection Hc as -> ->. now split.
    + intros [Hu Hd]. exists url. split; [exact Hu|]. now rewrite Hd.
Qed.

End UrlExtraction.

(** ** Routing *)

Section Routing.
Import Registry.

(** C4. On a registry built by the discovery, the lookup of a platform gives
    the service registered under that very name when there is one, else the
    service registered as [generic] when there is one, else nothing; this is
    the service [get_service_for_url] returns for a url of that platform.
    When the directory holds the TikTok service alone, [douyin] resolves to
    the same object as [tiktok], and [youtube] to nothing. *)
Theorem lookup_resolution
  (listing : list (string * module_outcome)) (p : string) :
  let services := _discover_services listing in
  lookup services p =
    match services !! p with
    | Some f => Some f
    | None => services !! "generic"
    end /\
  (forall url,
     get_service_for_url services url =
     match URLParser.detect_platform url with
     | Some platform => lookup services platform
     | None => services !! "generic"
     end) /\
  (forall cls,
     let registry := _discover_services [("tiktok_service.py", Provides cls)] in
     registry !! "tiktok" = Some (mkService 0 cls) /\
     lookup registry "douyin" = Some (mkService 0 cls) /\
     lookup registry "youtube" = None).
Proof.
  intros services. split; [|split].
  - unfold lookup. destruct (services !! p); [reflexivity|].
    now destruct (services !! "generic").
  - intros url. unfold get_service_for_url.
    destruct (URLParser.detect_platform url) as [platform|] eqn:E; [|reflexivity].
    now rewrite (URLParserFacts.detect_platform_truthy _ _ E).
  - intros cls. repeat split.
Qed.

End Routing.

(** ** The bound on concurrent downloads *)

Module DispatcherFacts.
Import Dispatcher.

Definition weight (p : phase) : nat := if is_holder p then 1 else 0.

Lemma holders_cons (p : phase) (l : list phase) :
  holders (p :: l) = weight p + holders l.
Proof. unfold holders, weight. cbn. now destruct (is_holder p). Qed.

Lemma holders_insert (l : list phase) (i : nat) (p q : phase) :
  l !! i = Some p ->
  holders (<[i := q]> l) + weight p = holders l + weight q.
Proof.
  revert i. induction l as [|x l IH]; intros [|i] H; try discriminate.
  - injection H as ->. cbn [insert list_insert]. rewrite !holders_cons. lia.
  - cbn [insert list_insert]. rewrite !holders_cons.
    rewrite <- !Nat.add_assoc. f_equal. apply IH. exact H.
Qed.

Lemma holders_replicate (n : nat) : holders (replicate n Queued) = 0.
Proof. induction n as [|n IH]; [reflexivity | exact IH]. Qed.

Lemma fetching_le_holders (l : list phase) : fetching l <= holders l.
Proof.
  induction l as [|p l IH]; [reflexivity|].
  unfold fetching, holders in *. cbn [List.filter].
  case_bool_decide as Hp; [subst p; cbn; lia|].
  destruct (is_holder p); cbn [length]; lia.
Qed.

(** What [move] does. *)
Lemma move_spec (i : nat) (from to : phase) (s s' : state) :
  move i from to s = Some s' ->
  jobs s !! i = Some from /\ s' = mkState (value s) (<[i := to]> (jobs s)).
Proof.
  unfold move. destruct (jobs s !! i) as [p|]; [|discriminate].
  case_bool_decide; [|discriminate]. subst p. now intros [= <-].
Qed.

(** The job an event is about, the phase it leaves and the phase it
    enters. *)
Definition subject (ev : event) : nat :=
  match ev with
  | Start i _ | Wake i | CancelWait i | Abort i | FetchBegin i | FetchEnd i | Release i => i
  end.

Lemma step_moves (ev : event) (s s' : state) :
  step ev s = Some s' ->
  exists from to,
    jobs s !! subject ev = Some from /\
    jobs s' = <[subject ev := to]> (jobs s) /\
    value s + weight from = value s' + weight to /\
    to <> Queued /\
    (from = Queued -> started_before (subject ev) (jobs s) = true) /\
    (to = Waiting -> from = Queued /\
                     ((0 <? value s)%nat && no_waiter (jobs s) = false)).
Proof.
  destruct ev as [i barge|i|i|i|i|i|i]; cbn [step subject].
  - destruct (started_before i (jobs s)) eqn:Hsb; [|discriminate].
    destruct ((0 <? value s)%nat && (barge || no_waiter (jobs s))) eqn:Hacq.
    + intros H. apply move_spec in H as [Hi ->]. cbn [jobs value] in *.
      apply andb_true_iff in Hacq as [Hv _]. apply Nat.ltb_lt in Hv.
      exists Queued, Holding. repeat split; first [done | cbn; lia].
    + intros H. apply move_spec in H as [Hi ->].
      exists Queued, Waiting. repeat split; try done.
      destruct (0 <? value s)%nat; [|reflexivity].
      rewrite andb_true_l in Hacq |- *.
      apply orb_false_iff in Hacq as [_ ->]. reflexivity.
  - destruct (0 <? value s)%nat eqn:Hv; [|discriminate]. apply Nat.ltb_lt in Hv.
    intros H. apply move_spec in H as [Hi ->]. cbn [jobs value] in *.
    exists Waiting, Holding. repeat split; first [done | cbn; lia].
  - intros H. apply move_spec in H as [Hi ->].
    exists Waiting, Done. repeat split; done.
  - intros H. apply move_spec in H as [Hi ->].
    exists Holding, Finishing. repeat split; done.
  - intros H. apply move_spec in H as [Hi ->].
    exists Holding, Fetching. repeat split; done.
  - intros H. apply move_spec in H as [Hi ->].
    exists Fetching, Finishing. repeat split; done.
  - intros H. apply move_spec in H as [Hi ->]. cbn [jobs value] in *.
    exists Finishing, Done. repeat split; first [done | cbn; lia].
Qed.

(** The counter of the semaphore and the jobs inside the block add up to
    the same number after every step. *)
Lemma step_permits (ev : event) (s s' : state) :
  step ev s = Some s' ->
  value s' + holders (jobs s') = value s + holders (jobs s).
Proof.
  intros H. apply step_moves in H as (from & to & Hi & -> & Hv & _).
  pose proof (holders_insert _ _ _ to Hi). lia.
Qed.

Lemma run_permits (evs : list event) (s s' : state) :
  run evs s = Some s' ->
  value s' + holders (jobs s') = value s + holders (jobs s).
Proof.
  revert s. induction evs as [|ev evs IH]; intros s; cbn.
  - now intros [= ->].
  - destruct (step ev s) as [s1|] eqn:E; [|discriminate].
    intros H. rewrite (IH _ H). now apply (step_permits ev).
Qed.

(** The first job is never made to wait, and as long as it has not started
    no job has. *)
Definition first_served (bound : nat) (s : state) : Prop :=
  value s + holders (jobs s) = bound /\
  jobs s !! 0 <> Some Waiting /\
  (jobs s !! 0 = Some Queued -> Forall (fun p => p = Queued) (jobs s)).

Lemma all_queued_quiet (l : list phase) :
  Forall (fun p => p = Queued) l -> holders l = 0 /\ no_waiter l = true.
Proof.
  induction l as [|p l IH]; [now split|].
  intros H. apply Forall_cons in H as [-> H]. destruct (IH H) as [Hh Hw].
  rewrite holders_cons. cbn. now split.
Qed.

Lemma started_before_first (i : nat) (l : list phase) :
  i <> 0 -> started_before i l = true -> l !! 0 <> Some Queued.
Proof.
  intros Hi H. destruct i as [|i]; [congruence|]. destruct l as [|p l]; [done|].
  cbn in H. apply andb_true_iff in H as [H _].
  intros [= ->]. discriminate H.
Qed.

Lemma step_first_served (bound : nat) (ev : event) (s s' : state) :
  0 < bound ->
  first_served bound s -> step ev s = Some s' -> first_served bound s'.
Proof.
  intros Hb (Hsum & Hw & Hq) H.
  pose proof (step_permits _ _ _ H) as Hp.
  apply step_moves in H as (from & to & Hi & Hj & Hv & Hto & Hfrom & Hwait).
  split; [lia|]. rewrite Hj.
  destruct (decide (subject ev = 0)) as [E0|Hne].
  - rewrite E0 in *.
    assert (Hnew : <[0 := to]> (jobs s) !! 0 = Some to).
    { apply list_lookup_insert_eq. apply lookup_lt_Some in Hi. exact Hi. }
    rewrite Hnew. split.
    + intros [= ->]. destruct (Hwait eq_refl) as [-> Hacq].
      destruct (all_queued_quiet _ (Hq Hi)) as [Hh Hnw].
      rewrite Hnw, andb_true_r in Hacq. apply Nat.ltb_ge in Hacq. lia.
    + intros [= ->]. congruence.
  - rewrite list_lookup_insert_ne by congruence. split; [exact Hw|].
    intros H0. exfalso. specialize (Hq H0).
    rewrite Forall_lookup in Hq. pose proof (Hq _ _ Hi) as ->.
    exact (started_before_first _ _ Hne (Hfrom eq_refl) H0).
Qed.

Lemma run_first_served (bound : nat) (evs : list event) (s s' : state) :
  0 < bound ->
  first_served bound s -> run evs s = Some s' -> first_served bound s'.
Proof.
  intros Hb. revert s. induction evs as [|ev evs IH]; intros s Hs; cbn.
  - now intros [= <-].
  - destruct (step ev s) as [s1|] eqn:E; [|discriminate].
    apply IH. now apply (step_first_served bound ev s).
Qed.

Lemma init_first_served (max : Z) (n : nat) (s0 : state) :
  init max n = Some s0 -> first_served (Z.to_nat max) s0.
Proof.
  unfold init. destruct (max <? 0)%Z; [discriminate|]. intros [= <-].
  unfold first_served. cbn [value jobs]. rewrite holders_replicate.
  split; [lia|]. split.
  - destruct n; cbn; congruence.
  - intros _. apply Forall_forall. intros p Hp.
    now apply elem_of_replicate in Hp as [-> _].
Qed.

Lemma two_holders (l : list phase) (p q : phase) :
  l !! 0 = Some p -> l !! 1 = Some q -> weight p + weight q <= holders l.
Proof.
  destruct l as [|a [|b l]]; try discriminate.
  intros [= ->] [= ->]. rewrite !holders_cons. lia.
Qed.

End DispatcherFacts.

Section ConcurrencyBound.
Import Dispatcher DispatcherFacts.

(** C1. In every state the queue worker and the jobs can reach, whatever the
    number of jobs submitted, the jobs whose call of [service.download] has
    begun and is not over are at most [MAX_CONCURRENT_DOWNLOADS]. With a
    bound of 1, when the job submitted second is in its call of
    [service.download], the job submitted first has left the semaphore block,
    so that its own call is over. *)
Theorem at_most_bound_fetching
  (max_concurrent_downloads : Z) (n : nat) (evs : list event) (s0 s : state) :
  init max_concurrent_downloads n = Some s0 ->
  run evs s0 = Some s ->
  (Z.of_nat (fetching (jobs s)) <= max_concurrent_downloads)%Z /\
  (max_concurrent_downloads = 1%Z ->
   jobs s !! 1 = Some Fetching -> jobs s !! 0 = Some Done).
Proof.
  intros Hinit Hrun.
  pose proof (init_first_served _ _ _ Hinit) as Hfs0.
  assert (Hmax : (0 <= max_concurrent_downloads)%Z).
  { unfold init in Hinit. destruct (max_concurrent_downloads <? 0)%Z eqn:E;
      [discriminate | lia]. }
  split.
  - pose proof (run_permits _ _ _ Hrun) as Hp.
    destruct Hfs0 as (Hsum & _). pose proof (fetching_le_holders (jobs s)). lia.
  - intros -> H1.
    destruct (run_first_served 1 evs s0 s ltac:(lia) Hfs0 Hrun) as (Hsum & Hw & Hq).
    destruct (jobs s !! 0) as [p|] eqn:H0.
    + pose proof (two_holders _ _ _ H0 H1) as Hh. cbn in Hh.
      destruct p; cbn in Hh; try lia.
      * specialize (Hq eq_refl). rewrite Forall_lookup in Hq.
        specialize (Hq _ _ H1). discriminate.
      * congruence.
      * reflexivity.
    + apply lookup_ge_None in H0. apply lookup_lt_Some in H1. lia.
Qed.

Lemma at_most_bound_fetching_witness :
  exists s,
    run [Start 0 false; Start 1 false; FetchBegin 0; FetchEnd 0; Release 0;
         Wake 1; FetchBegin 1] (mkState 1 [Queued; Queued]) = Some s /\
    (Z.of_nat (fetching (jobs s)) <= 1)%Z /\
    jobs s !! 0 = Some Done.
Proof.
  exists (mkState 0 [Done; Fetching]).
  split; [reflexivity|].
  destruct (at_most_bound_fetching 1 2
              [Start 0 false; Start 1 false; FetchBegin 0; FetchEnd 0; Release 0;
               Wake 1; FetchBegin 1]
              (mkState 1 [Queued; Queued]) (mkState 0 [Done; Fetching])
              eq_refl eq_refl) as [Hle Hfirst].
  split; [exact Hle | exact (Hfirst eq_refl eq_refl)].
Defined.

End ConcurrencyBound.

(** ** The decimal writing of an integer as a path component *)

Module PrettyFacts.

Definition seg_char (c : ascii) : bool := Str.is_digit c || Ascii.eqb c "-".

Lemma pretty_N_char_digit (x : N) : seg_char (pretty_N_char x) = true.
Proof. unfold pretty_N_char. now repeat case_match. Qed.

Lemma pretty_N_go_chars (x : N) (s : string) :
  Str.all_chars seg_char s = true -> Str.all_chars seg_char (pretty_N_go x s) = true.
Proof.
  revert s. induction (N.lt_wf_0 x) as [x _ IH]; intros s Hs.
  destruct (decide (x = 0)%N) as [->|Hx]; [now rewrite pretty_N_go_0|].
  rewrite pretty_N_go_step by lia. apply IH.
  - apply N.div_lt; lia.
  - cbn. now rewrite pretty_N_char_digit.
Qed.

Lemma pretty_N_go_length (x : N) (s : string) :
  String.length s <= String.length (pretty_N_go x s).
Proof.
  revert s. induction (N.lt_wf_0 x) as [x _ IH]; intros s.
  destruct (decide (x = 0)%N) as [->|Hx]; [now rewrite pretty_N_go_0|].
  rewrite pretty_N_go_step by lia.
  etrans; [|apply IH; apply N.div_lt; lia]. cbn. lia.
Qed.

Lemma pretty_N_segment (x : N) :
  Str.all_chars seg_char (pretty x) = true /\ pretty x <> "".
Proof.
  unfold pretty, pretty_N. case_decide as Hx; [now split|]. split.
  - now apply pretty_N_go_chars.
  - rewrite pretty_N_go_step by lia. intros E.
    pose proof (pretty_N_go_length (x `div` 10) (String (pretty_N_char (x `mod` 10)) "")) as H.
    rewrite E in H. cbn in H. lia.
Qed.

Lemma pretty_Z_segment (z : Z) :
  Str.all_chars seg_char (pretty z) = true /\ pretty z <> "".
Proof.
  unfold pretty, pretty_Z. destruct z as [|p|p].
  - now split.
  - apply (pretty_N_segment (N.pos p)).
  - destruct (pretty_N_segment (N.pos p)) as [Hc Hne]. split.
    + change (pretty p) with (pretty (N.pos p)). rewrite StrFacts.app_cons, StrFacts.app_nil_l.
      cbn. exact Hc.
    + discriminate.
Qed.

Lemma split_plain (s : string) :
  Str.all_chars seg_char s = true -> Path.split s = [s].
Proof.
  induction s as [|c s IH]; [reflexivity|].
  cbn. intros H. apply andb_true_iff in H as [Hc Hs].
  destruct (Ascii.eqb_spec c "/") as [->|_]; [discriminate Hc|].
  now rewrite (IH Hs).
Qed.

(** A string of digits and dashes is one path component. *)
Lemma parts_plain (s : string) :
  Str.all_chars seg_char s = true -> s <> "" -> Path.parts s = [s] /\ Path.anchor s = [].
Proof.
  intros Hc Hne. destruct s as [|c s]; [congruence|].
  assert (Ha : Path.anchor (String c s) = []).
  { cbn in Hc. apply andb_true_iff in Hc as [Hc _].
    unfold Path.anchor. destruct (Ascii.eqb_spec c "/") as [->|Hn]; [discriminate Hc|].
    destruct c as [[] [] [] [] [] [] [] []]; try reflexivity. congruence. }
  split; [|exact Ha].
  unfold Path.parts. rewrite Ha, (split_plain _ Hc). cbn [List.filter app].
  assert (Hseg : Path.is_segment (String c s) = true).
  { unfold Path.is_segment. cbn. cbn in Hc. apply andb_true_iff in Hc as [Hc _].
    destruct (Ascii.eqb_spec c ".") as [->|_]; [discriminate Hc|]. reflexivity. }
  now rewrite Hseg.
Qed.

Lemma join_pretty (p : list string) (z : Z) : Path.join p (pretty z) = p ++ [pretty z].
Proof.
  destruct (pretty_Z_segment z) as [Hc Hne].
  destruct (parts_plain _ Hc Hne) as [Hp Ha].
  unfold Path.join. now rewrite Ha, Hp.
Qed.

End PrettyFacts.

(** ** The cleanup of the directory of a task *)

Module CleanupFacts.
Import Disk Registry Bot Frame.

Lemma task_dir_parts (cfg : Config) (uid rid : Z) :
  task_dir cfg uid rid = Path.parts (DOWNLOAD_PATH cfg) ++ [pretty uid; pretty rid].
Proof.
  unfold task_dir. rewrite !PrettyFacts.join_pretty, <- app_assoc. reflexivity.
Qed.

(** The directories of two tasks are apart: a path beneath both belongs to
    one task. *)
Lemma task_dir_apart (cfg : Config) (u1 r1 u2 r2 : Z) (p : list string) :
  task_dir cfg u1 r1 `prefix_of` p -> task_dir cfg u2 r2 `prefix_of` p ->
  u1 = u2 /\ r1 = r2.
Proof.
  intros H1 H2. rewrite !task_dir_parts in *.
  assert (E : Path.parts (DOWNLOAD_PATH cfg) ++ [pretty u1; pretty r1] =
              Path.parts (DOWNLOAD_PATH cfg) ++ [pretty u2; pretty r2]).
  { destruct (prefix_weak_total _ _ _ H1 H2) as [H|H];
      [|symmetry]; apply (prefix_length_eq _ _ H); rewrite !length_app; cbn; lia. }
  apply app_inv_head in E. injection E as Eu Er.
  split; now apply (inj pretty).
Qed.

(** The clock and the sleeping tasks are the same. *)
Definition same_schedule (w w' : world) : Prop :=
  clock w' = clock w /\ timers w' = timers w.

Lemma same_schedule_refl (w : world) : same_schedule w w.
Proof. now split. Qed.

Lemma same_schedule_trans (w1 w2 w3 : world) :
  same_schedule w1 w2 -> same_schedule w2 w3 -> same_schedule w1 w3.
Proof. unfold same_schedule. intros [? ?] [? ?]. split; congruence. Qed.

Lemma books_schedule {A : Type} (m : M A) : keeps same_books m -> keeps same_schedule m.
Proof. intros H w. destruct (H w) as (_ & ? & ?). now split. Qed.

Lemma update_schedule rid st fp fs em :
  keeps same_schedule (update_download_record rid st fp fs em).
Proof. intros w. now split. Qed.

Lemma run_download_schedule E s u out : keeps same_schedule (run_download E s u out).
Proof.
  intros w. unfold run_download. destruct (download E s u out (disk w)). now split.
Qed.

Ltac schedule_prim :=
  first [ apply update_schedule | apply run_download_schedule
        | apply books_schedule;
          first [ apply app_books | apply log_books | apply on_disk_books
                | apply send_files_books ] ].

(** The job appends its cleanup task to the sleeping tasks; the task is due
    [CLEANUP_DELAY_HOURS * 3600] seconds after the clock reading. *)
Lemma job_schedules_cleanup (E : env) (t : task_data) (w : world) :
  clock (process_download_task E t w).2 = clock w /\
  timers (process_download_task E t w).2 =
  timers w ++ [mkTimer (clock w + CLEANUP_DELAY_HOURS (config E) * 3600)
                 (user_id t) (record_id t)].
Proof.
  unfold process_download_task, try_finally.
  match goal with |- context [try_except ?m ?h w] =>
    assert (Hk : keeps same_schedule (try_except m h)) end.
  { keeps_tac same_schedule_refl same_schedule_trans schedule_prim. }
  specialize (Hk w).
  destruct (try_except _ _ w) as [res w1]. destruct Hk as [Hc Ht]. cbn in Hc, Ht.
  unfold create_cleanup_task, modify. cbn. now rewrite Hc, Ht.
Qed.

(** What the cleanup does to the disk, the clock and the sleeping tasks. *)
Lemma cleanup_effect (cfg : Config) (uid rid : Z) (w : world) :
  let w' := (cleanup_after_sleep cfg uid rid w).2 in
  same_schedule w w' /\
  forall q,
    disk w' !! q =
    match disk w !! task_dir cfg uid rid with
    | Some n => if is_dir n && beneath (task_dir cfg uid rid) q then None else disk w !! q
    | None => disk w !! q
    end.
Proof.
  unfold cleanup_after_sleep, try_except, mbind, M_bind, bind, get, path_exists.
  destruct (disk w !! task_dir cfg uid rid) as [n|] eqn:Hdir; cbn zeta.
  - unfold on_disk, rmtree. rewrite Hdir. destruct (is_dir n).
    + cbn. split; [now split|]. intros q. rewrite map_lookup_filter.
      destruct (disk w !! q) as [x|]; cbn; [|now destruct (beneath _ q)].
      destruct (beneath (task_dir cfg uid rid) q); cbn.
      * now rewrite option_guard_False.
      * now rewrite option_guard_True.
    + cbn. split; [now split | reflexivity].
  - cbn. split; [now split | reflexivity].
Qed.

(** Every cleanup of the task that is still asleep is due at [deadline] or
    later. *)
Definition due_from (deadline uid rid : Z) (w : world) : Prop :=
  forall tm, tm ∈ timers w -> timer_user_id tm = uid -> timer_record_id tm = rid ->
             (deadline <= due tm)%Z.

Lemma loop_step_before_deadline (cfg : Config) (uid rid deadline : Z)
  (ev : event) (w w' : world) :
  due_from deadline uid rid w ->
  loop_step cfg ev w = Some w' ->
  due_from deadline uid rid w' /\ (clock w <= clock w')%Z /\
  ((clock w' < deadline)%Z ->
   forall p, task_dir cfg uid rid `prefix_of` p -> disk w' !! p = disk w !! p).
Proof.
  intros Hdue. destruct ev as [seconds|i]; cbn [loop_step].
  - destruct (0 <=? seconds)%Z eqn:Hs; [|discriminate]. intros [= <-].
    apply Z.leb_le in Hs. cbn. split; [exact Hdue|]. split; [lia | reflexivity].
  - destruct (timers w !! i) as [tm|] eqn:Htm; [|discriminate].
    destruct (due tm <=? clock w)%Z eqn:Hd; [|discriminate]. intros [= <-].
    apply Z.leb_le in Hd.
    destruct (cleanup_effect cfg (timer_user_id tm) (timer_record_id tm)
                (set_timers (delete i (timers w)) w)) as ([Hc Ht] & Hq).
    cbn [clock timers disk set_timers] in Hc, Ht, Hq.
    split; [|split].
    + intros tm' Hin. rewrite Ht in Hin.
      apply list_elem_of_delete_inv in Hin. now apply Hdue.
    + rewrite Hc. lia.
    + rewrite Hc. intros Hlt p Hp. rewrite Hq.
      destruct (disk w !! task_dir cfg (timer_user_id tm) (timer_record_id tm)) as [n|];
        [|reflexivity].
      destruct (is_dir n); [|reflexivity]. cbn.
      unfold beneath. case_bool_decide as Hb; [|reflexivity].
      exfalso. destruct (task_dir_apart _ _ _ _ _ _ Hb Hp) as [Eu Er].
      assert (Hin : tm ∈ timers w) by (apply list_elem_of_lookup; eauto).
      specialize (Hdue tm Hin Eu Er). lia.
Qed.

Lemma loop_run_before_deadline (cfg : Config) (uid rid deadline : Z)
  (evs : list event) (w w' : world) :
  due_from deadline uid rid w ->
  loop_run cfg evs w = Some w' ->
  (clock w <= clock w')%Z /\
  ((clock w' < deadline)%Z ->
   forall p, task_dir cfg uid rid `prefix_of` p -> disk w' !! p = disk w !! p).
Proof.
  revert w. induction evs as [|ev evs IH]; intros w Hdue; cbn.
  - intros [= <-]. split; [lia | reflexivity].
  - destruct (loop_step cfg ev w) as [w1|] eqn:E; [|discriminate].
    intros Hrun.
    destruct (loop_step_before_deadline _ _ _ _ _ _ _ Hdue E) as (Hdue1 & Hc1 & Hd1).
    destruct (IH w1 Hdue1 Hrun) as (Hc2 & Hd2).
    split; [lia|]. intros Hlt p Hp.
    rewrite (Hd2 Hlt p Hp). apply Hd1; [lia | exact Hp].
Qed.

End CleanupFacts.

Section DeferredCleanup.
Import Disk Registry Bot Frame CleanupFacts.

(** C8. The job leaves behind one cleanup task for its output directory
    [DOWNLOAD_PATH/user_id/record_id], due [CLEANUP_DELAY_HOURS * 3600]
    seconds after it was created, and no cleanup of the same task is due
    earlier. However the event loop then lets time pass and resumes the
    sleeping cleanup tasks, as long as the clock is before that deadline
    nothing at or beneath the directory has changed. When the cleanup runs on
    a directory that is there, the directory and everything beneath it are
    gone afterwards; when the directory is not there, the cleanup changes
    nothing and returns normally. *)
Theorem cleanup_only_after_delay
  (E : env) (t : task_data) (w : world) (evs : list event) (w' : world) :
  let cfg := config E in
  let w1 := (process_download_task E t w).2 in
  let deadline := (clock w1 + CLEANUP_DELAY_HOURS cfg * 3600)%Z in
  let dir := task_dir cfg (user_id t) (record_id t) in
  due_from deadline (user_id t) (record_id t) w ->
  loop_run cfg evs w1 = Some w' ->
  timers w1 = timers w ++ [mkTimer deadline (user_id t) (record_id t)] /\
  ((clock w' < deadline)%Z ->
   forall p, dir `prefix_of` p -> disk w' !! p = disk w1 !! p) /\
  (forall wf n,
     disk wf !! dir = Some n -> is_dir n = true ->
     forall p, dir `prefix_of` p ->
               disk (cleanup_after_sleep cfg (user_id t) (record_id t) wf).2 !! p = None) /\
  (forall wf,
     disk wf !! dir = None ->
     cleanup_after_sleep cfg (user_id t) (record_id t) wf = (inr tt, wf)).
Proof.
  intros cfg w1 deadline dir Hdue Hrun.
  destruct (job_schedules_cleanup E t w) as [Hc Ht].
  fold w1 in Hc, Ht.
  assert (Hd : deadline = (clock w + CLEANUP_DELAY_HOURS cfg * 3600)%Z).
  { unfold deadline. now rewrite Hc. }
  split; [now rewrite Hd|]. split; [|split].
  - assert (Hdue1 : due_from deadline (user_id t) (record_id t) w1).
    { intros tm Hin Hu Hr. rewrite Ht in Hin.
      apply elem_of_app in Hin as [Hin|Hin]; [now apply Hdue|].
      apply list_elem_of_singleton in Hin as ->. cbn. rewrite Hd. unfold cfg. lia. }
    exact (proj2 (loop_run_before_deadline cfg _ _ deadline evs w1 w' Hdue1 Hrun)).
  - intros wf n Hdir Hn p Hp.
    destruct (cleanup_effect cfg (user_id t) (record_id t) wf) as [_ Hq].
    rewrite Hq. fold dir. rewrite Hdir, Hn. cbn.
    unfold beneath. now rewrite bool_decide_eq_true_2.
  - intros wf Hdir.
    unfold cleanup_after_sleep, try_except, mbind, M_bind, bind, get, path_exists.
    fold cfg dir. now rewrite Hdir.
Qed.

(** A delay of 24 hours from time 5000: the directory is there after 23
    hours and 59 minutes, the cleanup cannot run then, and it has removed the
    directory when it runs after 24 hours and 1 minute. *)
Lemma cleanup_only_after_delay_witness :
  let E := Fixtures.env_returning (mkResult true Fixtures.files3 None None) in
  let w1 := (process_download_task E Fixtures.task1
               (Fixtures.world0 Fixtures.disk3 [])).2 in
  (exists w',
     loop_run Fixtures.cfg [Tick 86340] w1 = Some w' /\
     disk w' !! ["downloads"; "7"; "1"; "a.mp4"] = Some (Fixtures.file_node 10)) /\
  loop_run Fixtures.cfg [Tick 86340; Wake 0] w1 = None /\
  (exists w'',
     loop_run Fixtures.cfg [Tick 86460; Wake 0] w1 = Some w'' /\
     disk w'' !! ["downloads"; "7"; "1"] = None /\
     disk w'' !! ["downloads"; "7"; "1"; "a.mp4"] = None /\
     disk w'' !! ["downloads"; "7"] = Some dir_node).
Proof.
  intros E w1. split; [|split].
  - eexists. split; [reflexivity|].
    destruct (cleanup_only_after_delay E Fixtures.task1
                (Fixtures.world0 Fixtures.disk3 []) [Tick 86340]
                (set_clock 91340 w1)) as (_ & Hkeep & _).
    + intros tm Hin. apply elem_of_nil in Hin. contradiction.
    + reflexivity.
    + cbn [clock set_clock]. rewrite (Hkeep ltac:(reflexivity)); [reflexivity|].
      exists ["a.mp4"]. reflexivity.
  - reflexivity.
  - pose (wt := set_clock (clock w1 + 86460) w1).
    pose (wf := set_timers (delete 0 (timers wt)) wt).
    exists (cleanup_after_sleep Fixtures.cfg 7 1 wf).2.
    destruct (cleanup_only_after_delay E Fixtures.task1
                (Fixtures.world0 Fixtures.disk3 []) [] w1) as (_ & _ & Hgone & _).
    { intros tm Hin. apply elem_of_nil in Hin. contradiction. }
    { reflexivity. }
    destruct (cleanup_effect Fixtures.cfg 7 1 wf) as [_ Hq].
    split; [reflexivity|]. split; [|split].
    + apply (Hgone wf dir_node); [reflexivity | reflexivity | exists []; reflexivity].
    + apply (Hgone wf dir_node); [reflexivity | reflexivity | exists ["a.mp4"]; reflexivity].
    + rewrite Hq. reflexivity.
Defined.

End DeferredCleanup.

(** ** The database: the users and the life of a download record *)

Module DBFacts.

(** Every key of a table is below the key the next row gets. *)
Lemma next_id_above (t : DB.table) (k : Z) :
  is_Some (t !! k) -> (k < DB.next_id t)%Z.
Proof.
  unfold DB.next_id. revert k.
  apply (map_fold_weak_ind
           (fun acc (m : DB.table) => forall k, is_Some (m !! k) -> (k < 1 + acc)%Z)).
  - intros k [x Hx]. rewrite lookup_empty in Hx. discriminate.
  - intros i x m r Hi IH k Hk. destruct (decide (k = i)) as [->|Hne].
    + lia.
    + rewrite lookup_insert_ne in Hk by congruence. specialize (IH k Hk). lia.
Qed.

Lemma next_id_fresh (t : DB.table) : t !! DB.next_id t = None.
Proof.
  destruct (t !! DB.next_id t) eqn:E; [|reflexivity].
  pose proof (next_id_above t (DB.next_id t) ltac:(eauto)). lia.
Qed.

Lemma truthy_str_some (o : option string) : DB.truthy_str o = true -> is_Some o.
Proof. destruct o; [eauto | discriminate]. Qed.

Lemma truthy_int_some (o : option Z) : DB.truthy_int o = true -> is_Some o.
Proof. destruct o; [eauto | discriminate]. Qed.

(** How the download history may change when the row [rid] is written: no
    row comes or goes, the other rows are the same, and in a row the user,
    the url, the platform and the creation time stay while a path, a size, an
    error message or a completion time that is there stays there. *)
Definition evolves (rid : Z) (t t' : DB.table) : Prop :=
  forall k,
    match t !! k, t' !! k with
    | Some r, Some r' =>
        (k <> rid -> r' = r) /\
        DB.user_id r' = DB.user_id r /\ DB.url r' = DB.url r /\
        DB.platform r' = DB.platform r /\ DB.created_at r' = DB.created_at r /\
        (is_Some (DB.file_path r) -> is_Some (DB.file_path r')) /\
        (is_Some (DB.file_size r) -> is_Some (DB.file_size r')) /\
        (is_Some (DB.error_message r) -> is_Some (DB.error_message r')) /\
        (is_Some (DB.completed_at r) -> is_Some (DB.completed_at r'))
    | None, None => True
    | _, _ => False
    end.

Lemma evolves_refl (rid : Z) (t : DB.table) : evolves rid t t.
Proof. intros k. destruct (t !! k); [|exact I]. repeat split; auto. Qed.

Lemma evolves_trans (rid : Z) (t1 t2 t3 : DB.table) :
  evolves rid t1 t2 -> evolves rid t2 t3 -> evolves rid t1 t3.
Proof.
  intros H12 H23 k. specialize (H12 k). specialize (H23 k).
  destruct (t1 !! k) as [r1|], (t2 !! k) as [r2|], (t3 !! k) as [r3|];
    try contradiction; try exact I.
  destruct H12 as (A1 & A2 & A3 & A4 & A5 & A6 & A7 & A8 & A9).
  destruct H23 as (B1 & B2 & B3 & B4 & B5 & B6 & B7 & B8 & B9).
  repeat split; try congruence; auto.
  intros Hk. rewrite (B1 Hk). exact (A1 Hk).
Qed.

Lemma update_evolves (utcnow record_id : Z) (status : string)
  (file_path : option string) (file_size : option Z) (error_message : option string)
  (t : DB.table) :
  evolves record_id t
    (DB.update_download_record utcnow record_id status file_path file_size
       error_message t).
Proof.
  unfold DB.update_download_record.
  destruct (t !! record_id) as [r|] eqn:E; [|apply evolves_refl].
  intros k. destruct (decide (k = record_id)) as [->|Hne].
  - rewrite E, lookup_insert_eq.
    destruct (DB.truthy_str file_path) eqn:T1, (DB.truthy_int file_size) eqn:T2,
      (DB.truthy_str error_message) eqn:T3, (String.eqb status "completed");
      cbn; repeat split; try congruence; eauto;
      intros _; first [ now apply truthy_str_some | now apply truthy_int_some ].
  - rewrite lookup_insert_ne by congruence.
    destruct (t !! k); [|exact I]. repeat split; auto.
Qed.

Lemma update_status (utcnow record_id : Z) (status : string)
  (file_path : option string) (file_size : option Z) (error_message : option string)
  (t : DB.table) :
  (DB.status <$> (DB.update_download_record utcnow record_id status file_path file_size
                    error_message t !! record_id))
  = (fun _ => status) <$> (t !! record_id).
Proof.
  unfold DB.update_download_record.
  destruct (t !! record_id) as [r|] eqn:E; [|now rewrite E].
  rewrite lookup_insert_eq.
  destruct (DB.truthy_str file_path), (DB.truthy_int file_size),
    (DB.truthy_str error_message), (String.eqb status "completed"); reflexivity.
Qed.

End DBFacts.

Section Database.

(** X1. [ban_user] reports whether the user is known, and a later
    [is_user_banned] answers with the flag that was given exactly when the
    user is known: banning a user the bot has never seen is refused and
    leaves them not banned. Nobody else's ban, and nobody's role, changes. *)
Theorem ban_user_then_is_user_banned (uid : Z) (banned : bool) (t : Users.table) :
  (Users.ban_user uid banned t).1 = bool_decide (is_Some (t !! uid)) /\
  Users.is_user_banned uid (Users.ban_user uid banned t).2
  = banned && bool_decide (is_Some (t !! uid)) /\
  (forall other, other <> uid ->
     Users.is_user_banned other (Users.ban_user uid banned t).2
     = Users.is_user_banned other t) /\
  (forall who, Users.get_user_role who (Users.ban_user uid banned t).2
               = Users.get_user_role who t).
Proof.
  unfold Users.ban_user, Users.is_user_banned, Users.get_user_role.
  destruct (t !! uid) as [u|] eqn:E; cbn [fst snd].
  - rewrite bool_decide_true by eauto. rewrite lookup_insert_eq, andb_true_r.
    repeat split; try reflexivity.
    + intros other Hne. now rewrite lookup_insert_ne by congruence.
    + intros who. destruct (decide (who = uid)) as [->|Hne].
      * now rewrite lookup_insert_eq, E.
      * now rewrite lookup_insert_ne by congruence.
  - rewrite bool_decide_false by (intros [? ?]; discriminate).
    rewrite E, andb_false_r. repeat split; reflexivity.
Qed.

(** X2. [update_user_role] reports whether the user is known, and a later
    [get_user_role] gives the new role exactly when the user is known and the
    default ["user"] otherwise. Nobody else's role, and nobody's ban, changes. *)
Theorem update_user_role_then_get_user_role (uid : Z) (new_role : string)
  (t : Users.table) :
  (Users.update_user_role uid new_role t).1 = bool_decide (is_Some (t !! uid)) /\
  Users.get_user_role uid (Users.update_user_role uid new_role t).2
  = (if bool_decide (is_Some (t !! uid)) then new_role else "user") /\
  (forall other, other <> uid ->
     Users.get_user_role other (Users.update_user_role uid new_role t).2
     = Users.get_user_role other t) /\
  (forall who, Users.is_user_banned who (Users.update_user_role uid new_role t).2
               = Users.is_user_banned who t).
Proof.
  unfold Users.update_user_role, Users.is_user_banned, Users.get_user_role.
  destruct (t !! uid) as [u|] eqn:E; cbn [fst snd].
  - rewrite bool_decide_true by eauto. rewrite lookup_insert_eq.
    repeat split; try reflexivity.
    + intros other Hne. now rewrite lookup_insert_ne by congruence.
    + intros who. destruct (decide (who = uid)) as [->|Hne].
      * now rewrite lookup_insert_eq, E.
      * now rewrite lookup_insert_ne by congruence.
  - rewrite bool_decide_false by (intros [? ?]; discriminate).
    rewrite E. repeat split; reflexivity.
Qed.

(** X3. [get_or_create_user] stores the row it returns, with the names it
    was given and the time of the call as [last_seen]; it leaves the rows of
    the other users alone, and it changes nobody's role and nobody's ban: a
    banned user who writes again is still banned, a new user starts as a
    plain user who is not banned. *)
Theorem get_or_create_user_keeps_role_and_ban (utcnow uid : Z)
  (username first_name last_name : option string) (t : Users.table) :
  let user := (Users.get_or_create_user utcnow uid username first_name last_name t).1 in
  let t' := (Users.get_or_create_user utcnow uid username first_name last_name t).2 in
  t' !! uid = Some user /\
  Users.username user = username /\ Users.first_name user = first_name /\
  Users.last_name user = last_name /\ Users.last_seen user = utcnow /\
  (forall other, other <> uid -> t' !! other = t !! other) /\
  (forall who, Users.get_user_role who t' = Users.get_user_role who t) /\
  (forall who, Users.is_user_banned who t' = Users.is_user_banned who t).
Proof.
  unfold Users.get_or_create_user, Users.is_user_banned, Users.get_user_role.
  destruct (t !! uid) as [u|] eqn:E; cbn [fst snd]; cbv zeta;
    rewrite lookup_insert_eq; repeat split; try reflexivity.
  all: try (intros other Hne; now rewrite lookup_insert_ne by congruence).
  all: intros who; destruct (decide (who = uid)) as [->|Hne];
    [ now rewrite lookup_insert_eq, E | now rewrite lookup_insert_ne by congruence ].
Qed.

(** X4. [create_download_record] returns a key that was not in the table and
    stores under it a pending row for the user, the url and the platform,
    created at the time of the call, without path, size, error or completion
    time; the rows that were there are the same. *)
Theorem create_download_record_fresh (utcnow uid : Z) (u p : string) (t : DB.table) :
  let rid := (DB.create_download_record utcnow uid u p t).1 in
  let t' := (DB.create_download_record utcnow uid u p t).2 in
  t !! rid = None /\
  t' !! rid = Some (DB.mkRow uid u p "pending" None None utcnow None None) /\
  (forall k, k <> rid -> t' !! k = t !! k).
Proof.
  unfold DB.create_download_record. cbn [fst snd]. cbv zeta.
  split; [apply DBFacts.next_id_fresh|]. split.
  - apply lookup_insert_eq.
  - intros k Hne. now rewrite lookup_insert_ne by congruence.
Qed.

(** X5. Whatever its arguments, [update_download_record] adds no row and
    removes none, changes no row but the one it is given, and in that row
    keeps the user, the url, the platform and the creation time; a path, a
    size, an error message or a completion time that was stored is never
    cleared (so a row marked failed after it was completed still has its
    completion time). The status of the row, when it is there, is the new one. *)
Theorem update_download_record_evolves (utcnow record_id : Z) (status : string)
  (file_path : option string) (file_size : option Z) (error_message : option string)
  (t : DB.table) :
  DBFacts.evolves record_id t
    (DB.update_download_record utcnow record_id status file_path file_size
       error_message t) /\
  (DB.status <$> (DB.update_download_record utcnow record_id status file_path file_size
                    error_message t !! record_id))
  = (fun _ => status) <$> (t !! record_id).
Proof.
  split; [apply DBFacts.update_evolves | apply DBFacts.update_status].
Qed.

End Database.

(** ** Letter case and whitespace in urls *)

Module CaseFacts.
Import Str Regex URLParser.

Ltac by_cases_on_char c :=
  destruct c as [[] [] [] [] [] [] [] []]; reflexivity.

Lemma lower_idem (c : ascii) : lower (lower c) = lower c.
Proof. by_cases_on_char c. Qed.

Lemma is_space_lower (c : ascii) : is_space (lower c) = is_space c.
Proof. by_cases_on_char c. Qed.

Lemma is_digit_lower (c : ascii) : is_digit (lower c) = is_digit c.
Proof. by_cases_on_char c. Qed.

Lemma alnum_lower (c : ascii) : alnum (lower c) = alnum c.
Proof. by_cases_on_char c. Qed.

Lemma word_dash_lower (c : ascii) : word_dash (lower c) = word_dash c.
Proof. by_cases_on_char c. Qed.

Lemma not_slash_lower (c : ascii) : not_slash (lower c) = not_slash c.
Proof. by_cases_on_char c. Qed.

Lemma dot_lower (c : ascii) : dot (lower c) = dot c.
Proof. by_cases_on_char c. Qed.

(** A pattern none of whose classes tells a letter from its lower case. *)
Fixpoint case_blind (r : regex) : Prop :=
  match r with
  | Void | Eps => True
  | Cls p => forall c, p (lower c) = p c
  | Cat r1 r2 | Alt r1 r2 => case_blind r1 /\ case_blind r2
  | Star r1 => case_blind r1
  end.

Lemma deriv_lower (c : ascii) (r : regex) :
  case_blind r -> deriv (lower c) r = deriv c r.
Proof.
  induction r as [| |p|r1 IH1 r2 IH2|r1 IH1 r2 IH2|r1 IH1]; cbn; intros H;
    try reflexivity.
  - now rewrite H.
  - destruct H as [H1 H2]. now rewrite IH1, IH2.
  - destruct H as [H1 H2]. now rewrite IH1, IH2.
  - now rewrite IH1.
Qed.

Lemma case_blind_deriv (c : ascii) (r : regex) :
  case_blind r -> case_blind (deriv c r).
Proof.
  induction r as [| |p|r1 IH1 r2 IH2|r1 IH1 r2 IH2|r1 IH1]; cbn; intros H;
    try exact I.
  - destruct (p c); exact I.
  - destruct H as [H1 H2]. destruct (nullable r1); cbn; auto.
  - destruct H as [H1 H2]. auto.
  - auto.
Qed.

Lemma re_match_lower (r : regex) (s : string) :
  case_blind r -> re_match r (lower_str s) = re_match r s.
Proof.
  revert r. induction s as [|c s IH]; intros r H; [reflexivity|].
  cbn. f_equal. rewrite (deriv_lower c r H). apply IH, case_blind_deriv, H.
Qed.

Lemma case_blind_lit_i (s : string) : case_blind (lit_i s).
Proof.
  induction s as [|c s IH]; [exact I|]. split; [|exact IH].
  intros x. cbn. now rewrite lower_idem.
Qed.

Lemma case_blind_chr_i (c : ascii) : case_blind (chr_i c).
Proof. intros x. cbn. now rewrite lower_idem. Qed.

Lemma case_blind_scheme_opt : case_blind scheme_opt.
Proof.
  repeat split; try apply case_blind_lit_i; apply case_blind_chr_i.
Qed.

Lemma case_blind_www_opt : case_blind www_opt.
Proof. split; [apply case_blind_lit_i | exact I]. Qed.

Lemma case_blind_plus (p : ascii -> bool) :
  (forall c, p (lower c) = p c) -> case_blind (Plus (Cls p)).
Proof. intros H. split; exact H. Qed.

Ltac blind :=
  repeat first
    [ exact I
    | apply case_blind_scheme_opt
    | apply case_blind_www_opt
    | apply case_blind_lit_i
    | apply case_blind_plus;
      first [ exact is_digit_lower | exact alnum_lower | exact word_dash_lower
            | exact not_slash_lower | exact dot_lower ]
    | split ].

(** Every pattern of the table is blind to letter case: the literals are
    matched under [re.IGNORECASE], and no class holds a letter without the
    letter of the other case. *)
Lemma PATTERNS_case_blind :
  Forall (fun entry => Forall case_blind entry.2) PATTERNS.
Proof.
  unfold PATTERNS.
  repeat (apply List.Forall_cons; [cbn [snd]|]); try apply List.Forall_nil.
  all: repeat (apply List.Forall_cons; [|]); try apply List.Forall_nil.
  all: cbn [seq]; blind.
Qed.

Lemma first_platform_lower (table : list (string * list regex)) (url : string) :
  Forall (fun entry => Forall case_blind entry.2) table ->
  first_platform table (lower_str url) = first_platform table url.
Proof.
  induction table as [|[k ps] table IH]; intros H; [reflexivity|].
  apply Forall_cons in H as [Hps H]. cbn [first_platform].
  replace (existsb (fun pattern => re_match pattern (lower_str url)) ps)
    with (existsb (fun pattern => re_match pattern url) ps).
  - now rewrite IH.
  - cbn [snd] in Hps. clear -Hps. induction ps as [|p ps IHp]; [reflexivity|].
    apply Forall_cons in Hps as [Hp Hps]. cbn.
    now rewrite (re_match_lower p url Hp), IHp.
Qed.

Lemma lstrip_lower (s : string) : lstrip (lower_str s) = lower_str (lstrip s).
Proof.
  induction s as [|c s IH]; [reflexivity|]. cbn.
  rewrite is_space_lower. now destruct (is_space c).
Qed.

Lemma rstrip_lower (s : string) : rstrip (lower_str s) = lower_str (rstrip s).
Proof.
  induction s as [|c s IH]; [reflexivity|]. cbn. rewrite IH, is_space_lower.
  destruct (rstrip s); cbn; [now destruct (is_space c) | reflexivity].
Qed.

Lemma detect_platform_lower (url : string) :
  detect_platform (lower_str url) = detect_platform url.
Proof.
  unfold detect_platform, strip. rewrite lstrip_lower, rstrip_lower.
  apply first_platform_lower, PATTERNS_case_blind.
Qed.

(** *** The letters [A] to [Z] *)

(** The character with [A] to [Z] replaced by [a] to [z]. *)
Definition ascii_lower (c : ascii) : ascii :=
  if is_upper_ascii c then ascii_of_N (code c + 32) else c.

Fixpoint ascii_lower_str (s : string) : string :=
  match s with
  | "" => ""
  | String c s' => String (ascii_lower c) (ascii_lower_str s')
  end.

Lemma lower_ascii_lower (c : ascii) : lower (ascii_lower c) = lower c.
Proof. by_cases_on_char c. Qed.

Lemma lower_ascii_lower_str (s : string) :
  lower_str (ascii_lower_str s) = lower_str s.
Proof.
  induction s as [|c s IH]; [reflexivity|]. cbn. now rewrite lower_ascii_lower, IH.
Qed.

(** *** Whitespace *)

Definition blank (s : string) : Prop := all_chars is_space s = true.

Lemma lstrip_blank (a s : string) : blank a -> lstrip (a +:+ s) = lstrip s.
Proof.
  unfold blank. induction a as [|c a IH]; [reflexivity|]. cbn.
  intros H. apply andb_true_iff in H as [Hc H]. rewrite StrFacts.app_cons. cbn.
  rewrite Hc. now apply IH.
Qed.

Lemma rstrip_blank (b : string) : blank b -> rstrip b = "".
Proof.
  unfold blank. induction b as [|c b IH]; [reflexivity|]. cbn.
  intros H. apply andb_true_iff in H as [Hc H]. now rewrite (IH H), Hc.
Qed.

Lemma rstrip_app_blank (s b : string) : blank b -> rstrip (s +:+ b) = rstrip s.
Proof.
  intros Hb. induction s as [|c s IH].
  - rewrite StrFacts.app_nil_l. now apply rstrip_blank.
  - rewrite StrFacts.app_cons. cbn. now rewrite IH.
Qed.

Lemma strip_blank (a s b : string) :
  blank a -> blank b -> strip (a +:+ s +:+ b) = strip s.
Proof.
  intros Ha Hb. unfold strip. rewrite (lstrip_blank a _ Ha). clear a Ha.
  induction s as [|c s IH].
  - rewrite StrFacts.app_nil_l. cbn [lstrip].
    replace (lstrip b) with "".
    + reflexivity.
    + clear -Hb. unfold blank in Hb. induction b as [|c b IH]; [reflexivity|].
      cbn in *. apply andb_true_iff in Hb as [-> Hb]. now apply IH.
  - rewrite StrFacts.app_cons. cbn [lstrip]. destruct (is_space c); [exact IH|].
    rewrite <- StrFacts.app_cons. now apply rstrip_app_blank.
Qed.

Lemma rstrip_idem (s : string) : rstrip (rstrip s) = rstrip s.
Proof.
  induction s as [|c s IH]; [reflexivity|]. cbn.
  destruct (rstrip s) as [|d t] eqn:E.
  - destruct (is_space c) eqn:Ec; [reflexivity|]. cbn. now rewrite Ec.
  - cbn [rstrip] in IH |- *. cbn. cbn in IH. now rewrite IH.
Qed.

(** What [lstrip] leaves does not begin with whitespace. *)
Lemma lstrip_head (s : string) :
  match lstrip s with "" => True | String c _ => is_space c = false end.
Proof.
  induction s as [|c s IH]; [exact I|]. cbn.
  destruct (is_space c) eqn:Ec; [exact IH | exact Ec].
Qed.

(** [rstrip] keeps a first character that is not whitespace. *)
Lemma rstrip_head (c : ascii) (s : string) :
  is_space c = false -> exists t, rstrip (String c s) = String c t.
Proof.
  intros Hc. cbn. rewrite Hc. destruct (rstrip s); eauto.
Qed.

Lemma strip_idem (s : string) : strip (strip s) = strip s.
Proof.
  unfold strip. pose proof (lstrip_head s) as H.
  destruct (lstrip s) as [|c t] eqn:E; [reflexivity|].
  destruct (rstrip_head c t H) as [t' Ht]. rewrite Ht.
  cbn [lstrip]. rewrite H. rewrite <- Ht. apply rstrip_idem.
Qed.

(** A character that is not whitespace in front of a string without
    trailing whitespace. *)
Lemma rstrip_cons_fixed (c : ascii) (s : string) :
  is_space c = false -> rstrip s = s -> rstrip (String c s) = String c s.
Proof. intros Hc Hs. cbn. rewrite Hs, Hc. now destruct s. Qed.

End CaseFacts.

Module ScanFacts.
Import Str Regex RegexFacts URLParser URLParserFacts.

(** An occurrence found by the scan is in the language of the pattern and
    stands in the text. *)
Lemma occurrences_elem (r : regex) (s : string) (l : list string) (u : string) :
  occurrences r s l -> u ∈ l ->
  matches r u /\ exists before after, s = before +:+ u +:+ after.
Proof.
  intros H. induction H as [s Hnone | g u0 rest us Hgap Hu Hrest IH]; intros Hin.
  - apply elem_of_nil in Hin. contradiction.
  - apply elem_of_cons in Hin as [-> | Hin].
    + destruct Hu as (_ & Hm & _). split; [exact Hm|]. now exists g, rest.
    + destruct (IH Hin) as (Hm & b & a & ->). split; [exact Hm|].
      exists (g +:+ u0 +:+ b), a. now rewrite !StrFacts.app_assoc.
Qed.

Lemma all_chars_app (p : ascii -> bool) (a b : string) :
  all_chars p (a +:+ b) = all_chars p a && all_chars p b.
Proof.
  induction a as [|c a IH]; [reflexivity|].
  rewrite StrFacts.app_cons. cbn. now rewrite IH, andb_assoc.
Qed.

(** A prefix without whitespace is not found in front of a whitespace
    character where it is not found in front of the end of the string. *)
Lemma strip_prefix_before_space (p a : string) (sp : ascii) (b : string) :
  all_chars not_space p = true -> is_space sp = true ->
  strip_prefix p (a +:+ String sp b) = (fun t => t +:+ String sp b) <$> strip_prefix p a.
Proof.
  intros Hp Hsp. revert a. induction p as [|c p IH]; intros a; [reflexivity|].
  cbn in Hp. apply andb_true_iff in Hp as [Hc Hp].
  destruct a as [|d a].
  - rewrite StrFacts.app_nil_l. cbn.
    destruct (Ascii.eqb_spec c sp) as [->|]; [|reflexivity].
    unfold not_space in Hc. now rewrite Hsp in Hc.
  - rewrite StrFacts.app_cons. cbn. destruct (Ascii.eqb c d); [now apply IH | reflexivity].
Qed.

Lemma span_nonspace_before_space (a : string) (sp : ascii) (b : string) :
  is_space sp = true ->
  span_nonspace (a +:+ String sp b)
  = ((span_nonspace a).1, (span_nonspace a).2 +:+ String sp b).
Proof.
  intros Hsp. induction a as [|c a IH].
  - rewrite StrFacts.app_nil_l. cbn. now rewrite Hsp.
  - rewrite StrFacts.app_cons. cbn. destruct (is_space c); [reflexivity|].
    rewrite IH. now destruct (span_nonspace a).
Qed.

(** The match that starts a text is the same when a whitespace character
    and more text follow. *)
Lemma url_at_before_space (a : string) (sp : ascii) (b : string) :
  is_space sp = true ->
  url_at (a +:+ String sp b)
  = (fun ur : string * string => (ur.1, ur.2 +:+ String sp b)) <$> url_at a.
Proof.
  intros Hsp. unfold url_at.
  rewrite (strip_prefix_before_space "https://" a sp b eq_refl Hsp).
  rewrite (strip_prefix_before_space "http://" a sp b eq_refl Hsp).
  destruct (strip_prefix "https://" a) as [t|]; cbn [fmap option_fmap option_map].
  - rewrite (span_nonspace_before_space t sp b Hsp).
    destruct (span_nonspace t) as [[|c w] r]; reflexivity.
  - destruct (strip_prefix "http://" a) as [t|]; cbn [fmap option_fmap option_map];
      [|reflexivity].
    rewrite (span_nonspace_before_space t sp b Hsp).
    destruct (span_nonspace t) as [[|c w] r]; reflexivity.
Qed.

Lemma findall_from_before_space (a : string) (sp : ascii) (b : string) (k : nat) :
  is_space sp = true -> k <= String.length a ->
  findall_from k (a +:+ String sp b) = findall_from k a ++ findall_from 0 b.
Proof.
  intros Hsp. revert k. induction a as [|c a IH]; intros k Hk.
  - cbn in Hk. assert (k = 0) as -> by lia. rewrite StrFacts.app_nil_l.
    cbn [findall_from]. 
    pose proof (url_at_before_space "" sp b Hsp) as E.
    rewrite StrFacts.app_nil_l in E. rewrite E. reflexivity.
  - rewrite StrFacts.app_cons. destruct k as [|k].
    + cbn [findall_from]. rewrite <- StrFacts.app_cons.
      rewrite (url_at_before_space (String c a) sp b Hsp).
      destruct (url_at (String c a)) as [[u rest]|] eqn:E;
        cbn [fmap option_fmap option_map fst].
      * apply url_at_some in E as (Eu & Hm & _).
        assert (Hlen : String.length u - 1 <= String.length a).
        { apply (f_equal String.length) in Eu. rewrite StrFacts.length_app in Eu.
          cbn in Eu. lia. }
        rewrite (IH _ Hlen). reflexivity.
      * apply (IH 0). lia.
    + cbn [findall_from]. apply IH. cbn in Hk. lia.
Qed.

Lemma findall_urls_before_space (a : string) (sp : ascii) (b : string) :
  is_space sp = true ->
  findall_urls (a +:+ String sp b) = findall_urls a ++ findall_urls b.
Proof. intros Hsp. apply findall_from_before_space; [exact Hsp | lia]. Qed.

End ScanFacts.

Section UrlProperties.
Import Str Regex RegexFacts URLParser URLParserFacts CaseFacts ScanFacts.

(** X6. [detect_platform] does not look at the case of the letters [A] to
    [Z]: two urls that become the same when these are replaced by [a] to [z]
    get the same answer. *)
Theorem detect_platform_ignores_ascii_case (url url' : string) :
  ascii_lower_str url = ascii_lower_str url' ->
  detect_platform url = detect_platform url'.
Proof.
  intros E.
  rewrite <- (detect_platform_lower url), <- (detect_platform_lower url').
  now rewrite <- (lower_ascii_lower_str url), <- (lower_ascii_lower_str url'), E.
Qed.

Lemma detect_platform_ignores_ascii_case_witness :
  ascii_lower_str "HTTPS://WWW.YouTube.COM/watch?v=aB3"
  = ascii_lower_str "https://www.youtube.com/watch?v=ab3" /\
  detect_platform "HTTPS://WWW.YouTube.COM/watch?v=aB3"
  = detect_platform "https://www.youtube.com/watch?v=ab3".
Proof.
  split; [reflexivity|].
  apply (detect_platform_ignores_ascii_case "HTTPS://WWW.YouTube.COM/watch?v=aB3"
           "https://www.youtube.com/watch?v=ab3").
  reflexivity.
Defined.

(** X7. [detect_platform] does not look at the whitespace around the url. *)
Theorem detect_platform_ignores_blanks (before url after : string) :
  blank before -> blank after ->
  detect_platform (before +:+ url +:+ after) = detect_platform url.
Proof.
  intros Ha Hb. unfold detect_platform. now rewrite (strip_blank _ _ _ Ha Hb).
Qed.

Lemma detect_platform_ignores_blanks_witness :
  detect_platform ("  " +:+ "youtu.be/aB3" +:+ Bot.nl) = detect_platform "youtu.be/aB3".
Proof.
  apply (detect_platform_ignores_blanks "  " "youtu.be/aB3" Bot.nl); reflexivity.
Defined.

(** X8. [normalize_url] gives a url without whitespace around it that begins
    with [http://] or [https://], and normalizing again changes nothing. *)
Theorem normalize_url_idempotent (url : string) :
  normalize_url (normalize_url url) = normalize_url url /\
  strip (normalize_url url) = normalize_url url /\
  (startswith (normalize_url url) "http://" = true \/
   startswith (normalize_url url) "https://" = true).
Proof.
  assert (Hfix : strip (normalize_url url) = normalize_url url).
  { unfold normalize_url.
    destruct (startswith (strip url) "http://" || startswith (strip url) "https://").
    - apply strip_idem.
    - unfold strip at 1. change (lstrip ("https://" +:+ strip url))
        with ("https://" +:+ strip url).
      assert (Hs : rstrip (strip url) = strip url) by apply rstrip_idem.
      change ("https://" +:+ strip url)
        with (String "h" (String "t" (String "t" (String "p" (String "s"
               (String ":" (String "/" (String "/" (strip url))))))))).
      repeat (apply rstrip_cons_fixed; [reflexivity|]). exact Hs. }
  assert (Hscheme : startswith (normalize_url url) "http://" = true \/
                    startswith (normalize_url url) "https://" = true).
  { unfold normalize_url.
    destruct (startswith (strip url) "http://" || startswith (strip url) "https://")
      eqn:E.
    - apply orb_true_iff in E. exact E.
    - right. unfold startswith. now rewrite StrFacts.strip_prefix_of_app. }
  split; [|split; [exact Hfix | exact Hscheme]].
  unfold normalize_url at 1. rewrite Hfix.
  destruct Hscheme as [-> | ->]; [reflexivity | now rewrite orb_true_r].
Qed.

(** X9. Every pair that [extract_urls] returns holds a piece of the text
    that begins with [http://] or [https://] in lower case and has no
    whitespace in it, and the platform [detect_platform] gives for that
    piece, which is one of the six of the table; [is_supported_url] accepts
    the url. *)
Theorem extract_urls_well_formed (text url platform : string) :
  (url, platform) ∈ extract_urls text ->
  (startswith url "http://" = true \/ startswith url "https://" = true) /\
  all_chars not_space url = true /\
  (exists before after, text = before +:+ url +:+ after) /\
  detect_platform url = Some platform /\
  is_supported_url url = true /\
  platform ∈ ["tiktok"; "douyin"; "instagram"; "youtube"; "twitter"; "facebook"].
Proof.
  intros Hin. unfold extract_urls in Hin.
  rewrite extract_loop_omap, app_nil_l, list_elem_of_omap in Hin.
  destruct Hin as (u & Hu & Hc).
  destruct (detect_platform u) as [p|] eqn:Ed; [|discriminate].
  cbn in Hc. injection Hc as -> ->.
  destruct (occurrences_elem _ _ _ _ (findall_occurrences text) Hu) as [Hm Hsub].
  apply url_pattern_lang in Hm as (w & Hw & _ & Hall).
  split; [|split; [|split; [exact Hsub|split; [exact Ed|split]]]].
  - unfold startswith.
    destruct Hw as [-> | ->]; [left | right]; now rewrite StrFacts.strip_prefix_of_app.
  - destruct Hw as [-> | ->]; rewrite all_chars_app, Hall; reflexivity.
  - unfold is_supported_url. now rewrite Ed.
  - unfold detect_platform in Ed. exact (first_platform_key _ _ _ Ed).
Qed.

Lemma extract_urls_well_formed_witness :
  ("https://youtu.be/aB3", "youtube") ∈ extract_urls "see https://youtu.be/aB3 now" /\
  is_supported_url "https://youtu.be/aB3" = true.
Proof.
  assert (Hin : ("https://youtu.be/aB3", "youtube")
                ∈ extract_urls "see https://youtu.be/aB3 now").
  { replace (extract_urls "see https://youtu.be/aB3 now")
      with [("https://youtu.be/aB3", "youtube")] by (vm_compute; reflexivity).
    apply list_elem_of_here. }
  split; [exact Hin|].
  apply (extract_urls_well_formed "see https://youtu.be/aB3 now"
           "https://youtu.be/aB3" "youtube" Hin).
Defined.

(** X10. [extract_urls] works piece by piece: of two texts joined by a
    whitespace character it returns what it returns of the first, followed
    by what it returns of the second. A text without any url gives nothing. *)
Theorem extract_urls_of_joined_texts (a b : string) (sp : ascii) :
  is_space sp = true ->
  extract_urls (a +:+ String sp b) = extract_urls a ++ extract_urls b.
Proof.
  intros Hsp. unfold extract_urls.
  rewrite !extract_loop_omap, !app_nil_l.
  rewrite (findall_urls_before_space a sp b Hsp). apply omap_app.
Qed.

Lemma extract_urls_of_joined_texts_witness :
  extract_urls ("https://youtu.be/aB3" +:+ String " " "and https://vm.tiktok.com/ZM8 too")
  = extract_urls "https://youtu.be/aB3" ++ extract_urls "and https://vm.tiktok.com/ZM8 too".
Proof.
  apply (extract_urls_of_joined_texts "https://youtu.be/aB3"
           "and https://vm.tiktok.com/ZM8 too" " ").
  reflexivity.
Defined.

End UrlProperties.

(** ** The download job: what holds when it is over *)

Module Outcome.
Import Disk Registry Bot Frame JobFacts.

(** [triple P m Q Qe]: started in a world where [P] holds, [m] returns [a]
    in a world where [Q a] holds, or raises [e] in a world where [Qe e]
    holds. *)
Definition triple {A : Type} (P : world -> Prop) (m : M A)
  (Q : A -> world -> Prop) (Qe : string -> world -> Prop) : Prop :=
  forall w, P w ->
    match m w with
    | (inr a, w') => Q a w'
    | (inl e, w') => Qe e w'
    end.

Lemma triple_bind {A B : Type} (P : world -> Prop) (m : M A) (k : A -> M B)
  (Q : A -> world -> Prop) (R : B -> world -> Prop) (Qe : string -> world -> Prop) :
  triple P m Q Qe -> (forall a, triple (Q a) (k a) R Qe) -> triple P (m ≫= k) R Qe.
Proof.
  intros Hm Hk w HP. unfold mbind, M_bind, bind. specialize (Hm w HP).
  destruct (m w) as [[e|a] w1]; [exact Hm | exact (Hk a w1 Hm)].
Qed.

Lemma triple_try_except {A : Type} (P : world -> Prop) (m : M A) (h : string -> M A)
  (Q : A -> world -> Prop) (Pe Qe : string -> world -> Prop) :
  triple P m Q Pe -> (forall e, triple (Pe e) (h e) Q Qe) ->
  triple P (try_except m h) Q Qe.
Proof.
  intros Hm Hh w HP. unfold try_except. specialize (Hm w HP).
  destruct (m w) as [[e|a] w1]; [exact (Hh e w1 Hm) | exact Hm].
Qed.

Lemma triple_post {A : Type} (P : world -> Prop) (m : M A)
  (Q Q' : A -> world -> Prop) (Qe Qe' : string -> world -> Prop) :
  triple P m Q Qe ->
  (forall a w, Q a w -> Q' a w) -> (forall e w, Qe e w -> Qe' e w) ->
  triple P m Q' Qe'.
Proof.
  intros Hm HQ HQe w HP. specialize (Hm w HP).
  destruct (m w) as [[e|a] w1]; auto.
Qed.

Lemma triple_modify (P : world -> Prop) (f : world -> world)
  (Q : unit -> world -> Prop) (Qe : string -> world -> Prop) :
  (forall w, P w -> Q tt (f w)) -> triple P (modify f) Q Qe.
Proof. intros H w HP. exact (H w HP). Qed.

(** A property of the download history holds after a computation that
    leaves the history alone, however the computation ends. *)
Lemma triple_same_ledger {A : Type} (T : gmap Z DB.DownloadHistory -> Prop) (m : M A) :
  keeps same_ledger m ->
  triple (fun w => T (ledger w)) m (fun _ w => T (ledger w)) (fun _ w => T (ledger w)).
Proof.
  intros Hm w HP. specialize (Hm w). unfold same_ledger in Hm.
  destruct (m w) as [[e|a] w1]; cbn in Hm; now rewrite Hm.
Qed.

Lemma on_disk_ledger op : keeps same_ledger (on_disk op).
Proof. intros w. apply (on_disk_books op w). Qed.

Lemma run_download_ledger E s u out : keeps same_ledger (run_download E s u out).
Proof. intros w. unfold run_download. now destruct (download E s u out (disk w)). Qed.

Lemma send_files_ledger c fs md : keeps same_ledger (send_files_to_user c fs md).
Proof. intros w. apply (send_files_books c fs md w). Qed.

Section Job.
Context (E : env) (t : task_data).

(** [P] and [S] speak of the download history; [S] holds once the row of
    the task is updated where [P] held, and [S] gives [P]. *)
Context (P S : gmap Z DB.DownloadHistory -> Prop).
Context (S_P : forall l, S l -> P l).
Context (update_S : forall now st fp fs em l,
            st = "completed" \/ st = "failed" ->
            P l -> S (DB.update_download_record now (record_id t) st fp fs em l)).

Let Pw (w : world) : Prop := P (ledger w).
Let Sw (w : world) : Prop := S (ledger w).

Lemma update_triple st fp fs em (Qe : string -> world -> Prop) :
  st = "completed" \/ st = "failed" ->
  triple Pw (update_download_record (record_id t) st fp fs em) (fun _ => Sw) Qe.
Proof.
  intros Hst. apply triple_modify. intros w HP. unfold Sw. cbn [ledger set_ledger].
  now apply update_S.
Qed.

Lemma keep_P {A : Type} (m : M A) :
  keeps same_ledger m -> triple Pw m (fun _ => Pw) (fun _ => Pw).
Proof. apply (triple_same_ledger P). Qed.

Lemma keep_S {A : Type} (m : M A) :
  keeps same_ledger m -> triple Sw m (fun _ => Sw) (fun _ => Pw).
Proof.
  intros Hm. eapply triple_post; [apply (triple_same_ledger S), Hm | auto |].
  intros e w. apply S_P.
Qed.

Lemma log_triple level msg (Qe : string -> world -> Prop) :
  triple Sw (log level msg) (fun _ => Sw) Qe.
Proof. apply triple_modify. intros w H. exact H. Qed.

(** The handler of the job: the row is updated, the requester is told if
    the transport allows, and nothing is raised. *)
Lemma handler_triple (e : string) :
  triple Pw
    (update_download_record (record_id t) "failed" None None (Some e);;
     try_except (app (send_message (chat_id t) (failure_text (url t) e)))
                (fun _ => ret tt);;
     log "ERROR" ("Download task failed: " +:+ url t +:+ " - " +:+ e))
    (fun _ => Sw) (fun _ _ => False).
Proof.
  eapply triple_bind; [apply update_triple; now right|]. intros ?.
  eapply triple_bind with (Q := fun _ => Sw); [|intros ?; apply log_triple].
  eapply triple_try_except with (Pe := fun _ => Sw).
  - eapply triple_post; [apply (triple_same_ledger S), app_ledger | auto | auto].
  - intros _ w H. exact H.
Qed.

Lemma body_triple :
  triple Pw
    (service ← match get_service_for_url (services E) (url t) with
               | Some s => ret s
               | None => raise ("No service available for platform: " +:+ platform t)
               end;
     let output_dir := task_dir (config E) (user_id t) (record_id t) in
     on_disk (mkdir_parents output_dir);;
     run_download E service (url t) (Path.to_str output_dir) ≫= fun result : fetch_result =>
     if success result then
       size ← get (fun w => total_size (disk w) (files result));
       update_download_record (record_id t) "completed"
         (Some (Path.to_str output_dir)) (Some size) None;;
       send_files_to_user (chat_id t) (files result) (default ∅ (metadata result));;
       log "INFO" ("Download completed: " +:+ url t +:+ " for user " +:+ pretty (user_id t))
     else
       let error_msg := default "Unknown error" (error result) in
       update_download_record (record_id t) "failed" None None (Some error_msg);;
       app (send_message (chat_id t) (failure_text (url t) error_msg));;
       log "ERROR" ("Download failed: " +:+ url t +:+ " - " +:+ error_msg))
    (fun _ => Sw) (fun _ => Pw).
Proof.
  eapply triple_bind with (Q := fun _ => Pw).
  { destruct (get_service_for_url (services E) (url t)); intros w H; exact H. }
  intros service. cbv zeta.
  eapply triple_bind; [apply keep_P, on_disk_ledger|]. intros ?.
  eapply triple_bind; [apply keep_P, run_download_ledger|]. intros result.
  destruct (success result).
  - eapply triple_bind with (Q := fun _ => Pw); [intros w H; exact H|]. intros size.
    eapply triple_bind; [apply update_triple; now left|]. intros ?.
    eapply triple_bind; [apply keep_S, send_files_ledger|]. intros ?.
    apply log_triple.
  - eapply triple_bind; [apply update_triple; now right|]. intros ?.
    eapply triple_bind; [apply keep_S, app_ledger|]. intros ?.
    apply log_triple.
Qed.

Lemma job_triple :
  triple Pw (process_download_task E t) (fun _ => Sw) (fun _ _ => False).
Proof.
  intros w HP. unfold process_download_task, try_finally.
  pose proof (triple_try_except _ _ _ _ _ _ body_triple handler_triple w HP) as H.
  match goal with |- context [try_except ?m ?h w] =>
    change (try_except m h w) with (try_except m h w) in H;
    destruct (try_except m h w) as [[e|[]] w1] end.
  - contradiction.
  - exact H.
Qed.

End Job.

(** The relation between the worlds before and after that [evolves] is. *)
Definition evolving (rid : Z) (w w' : world) : Prop :=
  DBFacts.evolves rid (ledger w) (ledger w').

Lemma evolving_refl rid (w : world) : evolving rid w w.
Proof. apply DBFacts.evolves_refl. Qed.

Lemma evolving_trans rid (w1 w2 w3 : world) :
  evolving rid w1 w2 -> evolving rid w2 w3 -> evolving rid w1 w3.
Proof. apply DBFacts.evolves_trans. Qed.

Lemma ledger_evolving {A : Type} rid (m : M A) :
  keeps same_ledger m -> keeps (evolving rid) m.
Proof.
  intros H w. unfold evolving. rewrite (H w). apply DBFacts.evolves_refl.
Qed.

Lemma update_evolving rid st fp fs em :
  keeps (evolving rid) (update_download_record rid st fp fs em).
Proof. intros w. apply DBFacts.update_evolves. Qed.

Lemma job_evolving (E : env) (t : task_data) :
  keeps (evolving (record_id t)) (process_download_task E t).
Proof.
  unfold process_download_task.
  keeps_tac (evolving_refl (record_id t)) (evolving_trans (record_id t))
    ltac:(first [ apply update_evolving
                | apply ledger_evolving;
                  first [ apply app_ledger | apply log_ledger | apply on_disk_ledger
                        | apply run_download_ledger | apply send_files_ledger
                        | apply create_cleanup_task_ledger ] ]).
Qed.

(** The row of the task, when it is there, ends completed or failed. *)
Lemma job_settles (E : env) (t : task_data) (w : world) :
  is_Some (ledger w !! record_id t) ->
  exists row,
    ledger (process_download_task E t w).2 !! record_id t = Some row /\
    (DB.status row = "completed" \/ DB.status row = "failed").
Proof.
  intros Hrow.
  pose proof (job_triple E t
                (fun l => is_Some (l !! record_id t))
                (fun l => exists row, l !! record_id t = Some row /\
                                      (DB.status row = "completed" \/
                                       DB.status row = "failed"))) as H.
  cbv beta in H.
  assert (H1 : forall l : gmap Z DB.DownloadHistory,
             (exists row, l !! record_id t = Some row /\
                          (DB.status row = "completed" \/ DB.status row = "failed")) ->
             is_Some (l !! record_id t)).
  { intros l (row & Hl & _). eauto. }
  assert (H2 : forall now st fp fs em (l : gmap Z DB.DownloadHistory),
             st = "completed" \/ st = "failed" ->
             is_Some (l !! record_id t) ->
             exists row,
               DB.update_download_record now (record_id t) st fp fs em l !! record_id t
               = Some row /\
               (DB.status row = "completed" \/ DB.status row = "failed")).
  { intros now st fp fs em l Hst [r Hr].
    pose proof (DBFacts.update_status now (record_id t) st fp fs em l) as Hs.
    rewrite Hr in Hs.
    destruct (DB.update_download_record now (record_id t) st fp fs em l !! record_id t)
      as [row|]; [|discriminate].
    exists row. split; [reflexivity|]. cbn in Hs. injection Hs as ->. exact Hst. }
  specialize (H H1 H2 w Hrow).
  destruct (process_download_task E t w) as [[e|[]] w1]; [contradiction | exact H].
Qed.

End Outcome.

Section JobOutcome.
Import Disk Registry Bot Frame JobFacts Outcome.

(** X11. No [Exception] leaves the download job: whatever exception the
    lookup of the service, the file system, the downloader or the transport
    raises is caught inside the job, which then returns. (The cancellation
    of the task is no [Exception] and is not covered; the calls of the
    database are taken to return.) *)
Theorem no_exception_leaves_the_job (E : env) (t : task_data) (w : world) :
  (process_download_task E t w).1 = inr tt.
Proof.
  pose proof (job_triple E t (fun _ => True) (fun _ => True)
                (fun _ _ => I) (fun _ _ _ _ _ _ _ _ => I) w I) as H.
  destruct (process_download_task E t w) as [[e|[]] w1];
    [contradiction | reflexivity].
Qed.

(** X12. The download job writes to no row of the download history but its
    own: no row is added or removed, the other rows are what they were, and
    in its own row the user, the url, the platform and the creation time
    stay, and nothing that was stored is cleared. *)
Theorem job_writes_only_its_record (E : env) (t : task_data) (w : world) :
  DBFacts.evolves (record_id t) (ledger w) (ledger (process_download_task E t w).2).
Proof. apply (job_evolving E t w). Qed.

(** X13. When the row of the task is in the download history and the task
    of the job is not cancelled, the job leaves the row completed or failed,
    never pending, whichever exception the file system, the downloader or
    the transport raises on the way. *)
Theorem job_settles_its_record (E : env) (t : task_data) (w : world) :
  is_Some (ledger w !! record_id t) ->
  exists row,
    ledger (process_download_task E t w).2 !! record_id t = Some row /\
    (DB.status row = "completed" \/ DB.status row = "failed").
Proof. apply Outcome.job_settles. Qed.

Lemma job_settles_its_record_witness :
  is_Some (ledger (Fixtures.world0 Fixtures.disk3 []) !! record_id Fixtures.task1) /\
  exists row,
    ledger (process_download_task
              (Fixtures.env_returning (mkResult false [] None (Some "Video unavailable")))
              Fixtures.task1 (Fixtures.world0 Fixtures.disk3 [])).2
      !! record_id Fixtures.task1 = Some row /\
    (DB.status row = "completed" \/ DB.status row = "failed").
Proof.
  assert (Hrow : is_Some (ledger (Fixtures.world0 Fixtures.disk3 [])
                            !! record_id Fixtures.task1)).
  { eexists. reflexivity. }
  split; [exact Hrow|].
  apply (job_settles_its_record
           (Fixtures.env_returning (mkResult false [] None (Some "Video unavailable")))
           Fixtures.task1 (Fixtures.world0 Fixtures.disk3 []) Hrow).
Defined.

End JobOutcome.

Section FailedJobs.
Import Disk Registry Bot Frame JobFacts.

(** The update that marks the row of [t] failed with the message [e]. *)
Definition marked_failed (t : task_data) (now : Z) (e : string)
  (l : gmap Z DB.DownloadHistory) : gmap Z DB.DownloadHistory :=
  DB.update_download_record now (record_id t) "failed" None None (Some e) l.

(** The message that tells the requester of the failure, as the transport
    saw it. *)
Definition told (t : task_data) (e : string) (o : option string) : delivery :=
  mkDelivery (send_message (chat_id t) (failure_text (url t) e)) None o.

(** X14. A url for which the registry has no service: the downloader is not
    asked and the disk stays as it is; the row is marked failed with the
    message that names the platform of the task, the requester is sent that
    message once, and the cleanup is scheduled all the same. *)
Theorem job_without_service (E : env) (t : task_data) (w : world) :
  get_service_for_url (services E) (url t) = None ->
  let e := "No service available for platform: " +:+ platform t in
  let w' := (process_download_task E t w).2 in
  disk w' = disk w /\
  ledger w' = marked_failed t (clock w) e (ledger w) /\
  sent w' = sent w ++ [told t e (default None (head (network w)))] /\
  timers w' = timers w ++ [mkTimer (clock w + CLEANUP_DELAY_HOURS (config E) * 3600)
                             (user_id t) (record_id t)].
Proof.
  intros Hnone. cbv zeta.
  unfold process_download_task, try_finally, try_except at 1.
  unfold mbind at 1, M_bind, bind at 1. rewrite Hnone. unfold raise at 1.
  unfold mbind, M_bind, bind, update_download_record, modify, try_except, app, log,
    create_cleanup_task, modify, ret, told, marked_failed.
  destruct w as [l d c net snt tmp lg tms].
  destruct net as [|[e'|] net]; cbn; repeat split; reflexivity.
Qed.

Lemma job_without_service_witness :
  let E := mkEnv Fixtures.cfg ∅ (fun _ _ _ d => (inr (mkResult true [] None None), d)) in
  let w := Fixtures.world0 Fixtures.disk3 [] in
  get_service_for_url (services E) (url Fixtures.task1) = None /\
  disk (process_download_task E Fixtures.task1 w).2 = disk w.
Proof.
  cbv zeta.
  assert (H : get_service_for_url ∅ (url Fixtures.task1) = None)
    by (vm_compute; reflexivity).
  split; [exact H|].
  exact (proj1 (job_without_service
                  (mkEnv Fixtures.cfg ∅ (fun _ _ _ d => (inr (mkResult true [] None None), d)))
                  Fixtures.task1 (Fixtures.world0 Fixtures.disk3 []) H)).
Defined.

(** X15. A fetch that fails, by an exception [e] of the downloader or by a
    result without success whose error is [e] (["Unknown error"] when the
    result has none): the disk is what the downloader left, the requester is
    sent the failure message with [e], and the row is marked failed with
    [e]. The two ways differ when the transport refuses that message with
    [e']: after an exception nothing more happens, after a failure result
    the row is marked failed again, now with [e'], and a second message with
    [e'] is sent. *)
Theorem failed_fetch_is_recorded (E : env) (t : task_data) (w : world) (s : service)
  (d0 d : gmap (list string) node) (out : string + fetch_result) :
  get_service_for_url (services E) (url t) = Some s ->
  mkdir_parents (task_dir (config E) (user_id t) (record_id t)) (disk w) = inr d0 ->
  download E s (url t) (Path.to_str (task_dir (config E) (user_id t) (record_id t))) d0
  = (out, d) ->
  match out with inl _ => True | inr r => success r = false end ->
  let e := match out with inl e => e | inr r => default "Unknown error" (error r) end in
  let refused := default None (head (network w)) in
  let w' := (process_download_task E t w).2 in
  disk w' = d /\
  ledger w' =
    match out, refused with
    | inr _, Some e' => marked_failed t (clock w) e' (marked_failed t (clock w) e (ledger w))
    | _, _ => marked_failed t (clock w) e (ledger w)
    end /\
  sent w' =
    sent w ++ told t e refused ::
    match out, refused with
    | inr _, Some e' => [told t e' (default None (head (tail (network w))))]
    | _, _ => []
    end.
Proof.
  intros Hsvc Hmk Hdl Hout. cbv zeta.
  remember (process_download_task E t w) as res eqn:Hres.
  unfold process_download_task, try_finally, try_except at 1 in Hres.
  unfold mbind at 1 2 3, M_bind, bind at 1 2 3 in Hres.
  rewrite Hsvc in Hres. unfold ret at 1 in Hres.
  unfold on_disk at 1 in Hres. rewrite Hmk in Hres.
  unfold run_download in Hres. cbn [disk set_disk] in Hres. rewrite Hdl in Hres.
  unfold told, marked_failed.
  destruct w as [l dk c net snt tmp lg tms]. cbn [network clock ledger sent] in *.
  destruct out as [e|r].
  - unfold mbind, M_bind, bind, update_download_record, modify, try_except, app, log,
      create_cleanup_task, modify, ret in Hres.
    destruct net as [|[e'|] net]; cbn in Hres; subst res; cbn;
      repeat split; reflexivity.
  - rewrite Hout in Hres.
    unfold mbind, M_bind, bind, update_download_record, modify, try_except, app, log,
      create_cleanup_task, modify, ret in Hres.
    destruct net as [|[e'|] net]; cbn in Hres;
      [subst res; cbn; repeat split; reflexivity | |
       subst res; cbn; repeat split; reflexivity].
    destruct net as [|[e2|] net]; cbn in Hres; subst res; cbn;
      repeat split; try reflexivity; now rewrite <- app_assoc.
Qed.

Lemma failed_fetch_is_recorded_witness :
  let E := Fixtures.env_returning (mkResult false [] None (Some "Video unavailable")) in
  let w := Fixtures.world0 Fixtures.disk3 [Some "USER_IS_BLOCKED"] in
  disk (process_download_task E Fixtures.task1 w).2 = Fixtures.disk3 /\
  DB.error_message <$> ledger (process_download_task E Fixtures.task1 w).2 !! 1%Z
  = Some (Some "USER_IS_BLOCKED").
Proof.
  cbv zeta.
  destruct (failed_fetch_is_recorded
              (Fixtures.env_returning (mkResult false [] None (Some "Video unavailable")))
              Fixtures.task1 (Fixtures.world0 Fixtures.disk3 [Some "USER_IS_BLOCKED"])
              (mkService 2 "YTDLPService") Fixtures.disk3 Fixtures.disk3
              (inr (mkResult false [] None (Some "Video unavailable"))))
    as (Hd & Hl & _).
  - vm_compute. reflexivity.
  - reflexivity.
  - reflexivity.
  - reflexivity.
  - split; [exact Hd|]. rewrite Hl. reflexivity.
Defined.

End FailedJobs.

(** ** What delivery and cleanup leave on the disk *)

Section DiskResidue.
Import Disk Registry Bot Frame ArchiveFacts CleanupFacts.

(** The name [NamedTemporaryFile] picks is not taken. *)
Lemma named_temporary_file_free (candidates : list string)
  (d : gmap (list string) node) (n : string) (rest : list string) :
  named_temporary_file candidates d = Some (n, rest) -> d !! Path.parts n = None.
Proof.
  induction candidates as [|c candidates IH]; cbn; [discriminate|].
  unfold path_exists. destruct (d !! Path.parts c) eqn:Ec; [exact IH|].
  now intros [= <- <-].
Qed.

(** X16. When the transport accepts the first call made and [ZipFile.write]
    takes every file of the list, [send_files_to_user] leaves the file system
    exactly as it found it: the archive written for several files is removed
    again, and the produced files are neither changed nor removed. When
    [ZipFile.write] raises for a file of a list of several, the archive
    stays in the temporary directory, whatever the transport does. *)
Theorem delivery_leaves_disk_as_found
  (chat_id : Z) (files : list string) (metadata : gmap string string) (w : world) :
  (default None (head (network w)) = None ->
   all_written (disk w) files ->
   disk (send_files_to_user chat_id files metadata w).2 = disk w) /\
  (forall zip_name rest,
     (1 < length files)%nat ->
     named_temporary_file (tmp_names w) (disk w) = Some (zip_name, rest) ->
     ~ all_written (staged w zip_name) files ->
     exists_ (disk w) zip_name = false /\
     exists_ (disk (send_files_to_user chat_id files metadata w).2) zip_name = true).
Proof.
  assert (Hhandler : forall e w1,
            disk ((log "ERROR" ("Error sending files to " +:+ pretty chat_id +:+ ": " +:+ e);;
                   app (send_message chat_id ("❌ Error sending files: " +:+ e))) w1).2
            = disk w1).
  { intros e w1.
    apply (keeps_bind same_disk same_disk_trans _ _ (log_disk _ _) (fun _ => app_disk _)). }
  split.
  - intros Hnet Hall. unfold send_files_to_user, try_except.
    destruct (decide (1 < length files)%nat) as [Hlen|Hlen].
    + destruct (named_temporary_file (tmp_names w) (disk w)) as [[zip_name rest]|] eqn:Htmp.
      * rewrite (send_archive_eval chat_id files metadata w zip_name rest Hlen Htmp
                   (all_written_staged w zip_name files Hall)).
        cbv zeta. rewrite Hnet. cbn [snd disk set_disk].
        unfold archive_offered, archive_written, staged.
        cbn [disk set_sent set_network set_disk].
        rewrite insert_insert_eq.
        apply delete_insert_id, (named_temporary_file_free _ _ _ _ Htmp).
      * destruct (send_unstaged_eval chat_id files metadata w Hlen Htmp) as [e ->].
        apply Hhandler.
    + assert (Hbody : disk (send_files_body chat_id files metadata w).2 = disk w).
      { unfold send_files_body. destruct files as [|f fs]; [apply app_disk|].
        apply Nat.ltb_nlt in Hlen. rewrite Hlen.
        unfold mbind, M_bind, bind, get. destruct (exists_ (disk w) f); [|reflexivity].
        unfold send_one.
        repeat match goal with |- context [if ?b then _ else _] => destruct b end;
          apply app_disk. }
      destruct (send_files_body chat_id files metadata w) as [[e|[]] w1];
        cbn [snd] in Hbody |- *; [now rewrite Hhandler | exact Hbody].
  - intros zip_name rest Hlen Htmp Hnot.
    pose proof (named_temporary_file_free _ _ _ _ Htmp) as Hfree.
    split; [unfold exists_, path_exists; now rewrite Hfree|].
    destruct (send_refused_eval chat_id files metadata w zip_name rest Hlen Htmp Hnot)
      as (e & zf & He).
    unfold send_files_to_user, try_except. rewrite He, Hhandler.
    unfold exists_, path_exists. cbn [disk set_disk]. now rewrite lookup_insert_eq.
Qed.

(** A produced file dated before 1980, which [ZipFile.write] does not take. *)
Definition dated_disk : gmap (list string) node :=
  <[ ["downloads"; "7"; "1"; "old.mp4"] :=
       mkNode false 5 Data (Some "ZIP does not support timestamps before 1980") ]>
  Fixtures.disk3.

Lemma delivery_leaves_disk_as_found_witness :
  disk (send_files_to_user 100 Fixtures.files3 ∅ (Fixtures.world0 Fixtures.disk3 [])).2
  = Fixtures.disk3 /\
  exists_ (disk (send_files_to_user 100 ["downloads/7/1/a.mp4"; "downloads/7/1/old.mp4"] ∅
                   (Fixtures.world0 dated_disk [])).2) "/tmp/tmpk3v9.zip" = true.
Proof.
  split.
  - apply (proj1 (delivery_leaves_disk_as_found 100 Fixtures.files3 ∅
                    (Fixtures.world0 Fixtures.disk3 []))).
    + reflexivity.
    + repeat constructor.
  - apply (proj2 (delivery_leaves_disk_as_found 100
                    ["downloads/7/1/a.mp4"; "downloads/7/1/old.mp4"] ∅
                    (Fixtures.world0 dated_disk [])) "/tmp/tmpk3v9.zip" []).
    + cbn. lia.
    + reflexivity.
    + intros H. apply Forall_cons in H as [_ H]. apply Forall_cons in H as [H _].
      discriminate H.
Defined.

(** X17. The cleanup of one task never raises, leaves the download history
    alone, and touches nothing outside the directory of its task: every
    path that is not beneath that directory, and so every file of another
    task or another user, is on the disk afterwards as it was before. *)
Theorem cleanup_stays_in_task_dir (cfg : Config) (uid rid : Z) (w : world) :
  let w' := (cleanup_after_sleep cfg uid rid w).2 in
  (cleanup_after_sleep cfg uid rid w).1 = inr tt /\
  ledger w' = ledger w /\
  (forall q, ~ task_dir cfg uid rid `prefix_of` q -> disk w' !! q = disk w !! q) /\
  (forall uid' rid' q, task_dir cfg uid' rid' `prefix_of` q ->
                       uid' <> uid \/ rid' <> rid ->
                       disk w' !! q = disk w !! q).
Proof.
  cbv zeta.
  destruct (cleanup_effect cfg uid rid w) as [_ Hq].
  assert (Hout : forall q, ~ task_dir cfg uid rid `prefix_of` q ->
                           disk (cleanup_after_sleep cfg uid rid w).2 !! q = disk w !! q).
  { intros q Hn. rewrite Hq.
    destruct (disk w !! task_dir cfg uid rid) as [n|]; [|reflexivity].
    unfold beneath. rewrite bool_decide_false by exact Hn.
    now rewrite andb_false_r. }
  split; [|split; [|split; [exact Hout|]]].
  - unfold cleanup_after_sleep, try_except, mbind, M_bind, bind, get, path_exists.
    destruct (disk w !! task_dir cfg uid rid) as [n|] eqn:Hdir; cbn zeta; [|reflexivity].
    unfold on_disk, rmtree. rewrite Hdir. destruct (is_dir n); reflexivity.
  - unfold cleanup_after_sleep, try_except, mbind, M_bind, bind, get, path_exists.
    destruct (disk w !! task_dir cfg uid rid) as [n|] eqn:Hdir; cbn zeta; [|reflexivity].
    unfold on_disk, rmtree. rewrite Hdir. destruct (is_dir n); reflexivity.
  - intros uid' rid' q Hp Hne. apply Hout. intros Hp'.
    destruct (task_dir_apart _ _ _ _ _ _ Hp Hp') as [-> ->].
    destruct Hne as [Hne|Hne]; now apply Hne.
Qed.

End DiskResidue.

(** ** Discovery: who holds a name in the end *)

Module DiscoveryFacts.
Import Registry.

(** The name under which the service of a file is registered. *)
Definition service_name_of (file_name : string) : string :=
  remove_all "_service" (stem file_name).

(** The fallback loop of the [ytdlp] service leaves the names that are
    taken to those who hold them. *)
Lemma fallback_keeps (inst : service) (platforms : list string)
  (services : gmap string service) (n : string) (s : service) :
  services !! n = Some s ->
  fold_left (fun acc platform =>
               match acc !! platform with
               | Some _ => acc
               | None => <[platform := inst]> acc
               end) platforms services !! n = Some s.
Proof.
  revert services. induction platforms as [|p platforms IH]; intros services H;
    [exact H|].
  cbn [fold_left]. apply IH.
  destruct (services !! p) eqn:Ep; [exact H|].
  rewrite lookup_insert_ne; [exact H|]. intros ->. congruence.
Qed.

(** A service object is registered under the name of its file. *)
Lemma register_own (n : string) (inst : service) (services : gmap string service) :
  register n inst services !! n = Some inst.
Proof.
  unfold register. destruct (String.eqb_spec n "tiktok") as [->|Ht].
  - rewrite lookup_insert_ne by discriminate. apply lookup_insert_eq.
  - destruct (String.eqb n "ytdlp").
    + apply fallback_keeps, lookup_insert_eq.
    + apply lookup_insert_eq.
Qed.

(** The registration of [m] leaves a name [n] that is taken as it is,
    unless [m] is [n], or [m] is [tiktok] and [n] is [douyin]. *)
Lemma register_other (m n : string) (inst s : service) (services : gmap string service) :
  m <> n -> ~ (m = "tiktok" /\ n = "douyin") ->
  services !! n = Some s -> register m inst services !! n = Some s.
Proof.
  intros Hmn Hd H. unfold register.
  assert (H1 : <[m := inst]> services !! n = Some s)
    by now rewrite lookup_insert_ne.
  destruct (String.eqb_spec m "tiktok") as [->|Ht].
  - rewrite lookup_insert_ne; [exact H1|]. intros <-. now apply Hd.
  - destruct (String.eqb m "ytdlp"); [now apply fallback_keeps | exact H1].
Qed.

(** A file that writes the name [n] when it is scanned. *)
Definition overwrites (n : string) (entry : string * module_outcome) : Prop :=
  match entry.2 with
  | Provides _ =>
      service_name_of entry.1 = n \/ (service_name_of entry.1 = "tiktok" /\ n = "douyin")
  | _ => False
  end.

Lemma discover_loop_keeps (service_files : list (string * module_outcome)) (fresh : nat)
  (services : gmap string service) (n : string) (s : service) :
  Forall (fun entry => ~ overwrites n entry) service_files ->
  services !! n = Some s ->
  discover_loop service_files fresh services !! n = Some s.
Proof.
  revert fresh services.
  induction service_files as [|[f o] rest IH]; intros fresh services Hall H; [exact H|].
  apply Forall_cons in Hall as [Hf Hall]. cbn [discover_loop].
  destruct (String.eqb f "base_downloader.py" || String.eqb f "__init__.py");
    [now apply IH|].
  destruct o as [| e | cls e | cls]; try now apply IH.
  apply IH; [exact Hall|]. unfold overwrites in Hf. cbn [fst snd] in Hf.
  fold (service_name_of f). apply register_other; [| |exact H].
  - intros E. apply Hf. now left.
  - intros E. apply Hf. now right.
Qed.

(** The glob [*_service.py] lets neither of the two skipped names through. *)
Lemma glob_excludes_skipped (f : string) :
  Str.endswith f "_service.py" = true ->
  String.eqb f "base_downloader.py" || String.eqb f "__init__.py" = false.
Proof.
  intros H.
  destruct (String.eqb_spec f "base_downloader.py") as [->|_]; [discriminate H|].
  destruct (String.eqb_spec f "__init__.py") as [->|_]; [discriminate H|].
  reflexivity.
Qed.

Lemma discover_loop_last_writer (before after : list (string * module_outcome))
  (f cls : string) (fresh : nat) (services : gmap string service) :
  Str.endswith f "_service.py" = true ->
  Forall (fun entry => ~ overwrites (service_name_of f) entry) after ->
  class_name <$> (discover_loop (before ++ (f, Provides cls) :: after) fresh services
                    !! service_name_of f) = Some cls.
Proof.
  intros Hglob Hafter. revert fresh services.
  induction before as [|[g o] before IH]; intros fresh services.
  - cbn [app discover_loop]. rewrite (glob_excludes_skipped f Hglob).
    fold (service_name_of f).
    rewrite (discover_loop_keeps after (S fresh) _ (service_name_of f)
               (mkService fresh cls) Hafter (register_own _ _ _)).
    reflexivity.
  - cbn [app discover_loop].
    destruct (String.eqb g "base_downloader.py" || String.eqb g "__init__.py");
      [apply IH|].
    destruct o; apply IH.
Qed.

(** Nothing is ever taken out of the registry. *)
Lemma fallback_keeps_presence (inst : service) (platforms : list string)
  (services : gmap string service) (k : string) :
  is_Some (services !! k) ->
  is_Some (fold_left (fun acc platform =>
                        match acc !! platform with
                        | Some _ => acc
                        | None => <[platform := inst]> acc
                        end) platforms services !! k).
Proof. intros [s H]. exists s. now apply fallback_keeps. Qed.

Lemma fallback_adds (inst : service) (platforms : list string)
  (services : gmap string service) (k : string) :
  k ∈ platforms ->
  is_Some (fold_left (fun acc platform =>
                        match acc !! platform with
                        | Some _ => acc
                        | None => <[platform := inst]> acc
                        end) platforms services !! k).
Proof.
  revert services. induction platforms as [|p platforms IH]; intros services Hin.
  - apply elem_of_nil in Hin. contradiction.
  - cbn [fold_left]. apply elem_of_cons in Hin as [<- | Hin]; [|now apply IH].
    apply fallback_keeps_presence.
    destruct (services !! k) eqn:Ek; [now rewrite Ek | now rewrite lookup_insert_eq].
Qed.

Lemma insert_keeps_presence (n k : string) (inst : service)
  (services : gmap string service) :
  is_Some (services !! k) -> is_Some (<[n := inst]> services !! k).
Proof.
  intros H. destruct (decide (n = k)) as [->|Hne].
  - rewrite lookup_insert_eq. eauto.
  - now rewrite lookup_insert_ne.
Qed.

Lemma register_keeps_presence (n k : string) (inst : service)
  (services : gmap string service) :
  is_Some (services !! k) -> is_Some (register n inst services !! k).
Proof.
  intros H. unfold register.
  destruct (String.eqb n "tiktok"); [now do 2 apply insert_keeps_presence|].
  destruct (String.eqb n "ytdlp").
  - now apply fallback_keeps_presence, insert_keeps_presence.
  - now apply insert_keeps_presence.
Qed.

Lemma discover_loop_keeps_presence (service_files : list (string * module_outcome))
  (fresh : nat) (services : gmap string service) (k : string) :
  is_Some (services !! k) ->
  is_Some (discover_loop service_files fresh services !! k).
Proof.
  revert fresh services.
  induction service_files as [|[f o] rest IH]; intros fresh services H; [exact H|].
  cbn [discover_loop].
  destruct (String.eqb f "base_downloader.py" || String.eqb f "__init__.py");
    [now apply IH|].
  destruct o; try now apply IH.
  apply IH. now apply register_keeps_presence.
Qed.

(** Once the [ytdlp] service is scanned, [generic] is in the registry. *)
Lemma discover_loop_generic (before after : list (string * module_outcome))
  (f cls : string) (fresh : nat) (services : gmap string service) :
  Str.endswith f "_service.py" = true ->
  service_name_of f = "ytdlp" ->
  is_Some (discover_loop (before ++ (f, Provides cls) :: after) fresh services
             !! "generic").
Proof.
  intros Hglob Hname. revert fresh services.
  induction before as [|[g o] before IH]; intros fresh services.
  - cbn [app discover_loop]. rewrite (glob_excludes_skipped f Hglob).
    fold (service_name_of f). rewrite Hname.
    apply discover_loop_keeps_presence. unfold register. cbn [String.eqb Ascii.eqb].
    apply fallback_adds. unfold fallback_platforms.
    do 3 apply list_elem_of_further. apply list_elem_of_here.
  - cbn [app discover_loop].
    destruct (String.eqb g "base_downloader.py" || String.eqb g "__init__.py");
      [apply IH|].
    destruct o; apply IH.
Qed.

End DiscoveryFacts.

Section Discovery.
Import Registry DiscoveryFacts.

(** X18. The service a file of [app/services] provides is the one the
    registry holds under the name of the file when the discovery is over,
    unless a file scanned later writes that name: one with the same service
    name, or the TikTok one when the name is [douyin]. The [ytdlp] fallback
    is no such file: wherever it stands in the scan, it takes no platform
    from the service that is named after it. *)
Theorem last_provider_holds_the_name
  (before after : list (string * module_outcome)) (f cls : string) :
  Str.endswith f "_service.py" = true ->
  (forall entry, entry ∈ after -> Str.endswith entry.1 "_service.py" = true ->
                 ~ overwrites (service_name_of f) entry) ->
  class_name <$> (_discover_services (before ++ (f, Provides cls) :: after)
                    !! service_name_of f) = Some cls.
Proof.
  intros Hglob Hafter. unfold _discover_services.
  rewrite List.filter_app. cbn [List.filter fst]. rewrite Hglob.
  apply discover_loop_last_writer; [exact Hglob|].
  apply Forall_forall. intros entry Hin.
  apply list_elem_of_In, filter_In in Hin as [Hin Hg].
  apply Hafter; [now apply list_elem_of_In | exact Hg].
Qed.

Lemma last_provider_holds_the_name_witness :
  class_name <$> (_discover_services
                    ([("ytdlp_service.py", Provides "YTDLPService")] ++
                     ("youtube_service.py", Provides "YouTubeService") ::
                     [("ytdlp_service.py", Provides "YTDLPService");
                      ("tiktok_service.py", Provides "TikTokDownloaderService")])
                    !! service_name_of "youtube_service.py") = Some "YouTubeService".
Proof.
  apply (last_provider_holds_the_name
           [("ytdlp_service.py", Provides "YTDLPService")]
           [("ytdlp_service.py", Provides "YTDLPService");
            ("tiktok_service.py", Provides "TikTokDownloaderService")]
           "youtube_service.py" "YouTubeService").
  - reflexivity.
  - intros entry Hin _. 
    apply elem_of_cons in Hin as [-> | Hin].
    + intros [H|[H _]]; discriminate H.
    + apply list_elem_of_singleton in Hin as ->.
      intros [H|[_ H]]; discriminate H.
Defined.

(** X24. When the scan of [app/services] meets a file that provides the
    [ytdlp] service, [get_service_for_url] finds a service for every url,
    supported or not, whatever else the directory holds and in whatever
    order it is scanned. *)
Theorem fallback_serves_every_url
  (before after : list (string * module_outcome)) (f cls url : string) :
  Str.endswith f "_service.py" = true ->
  service_name_of f = "ytdlp" ->
  is_Some (get_service_for_url
             (_discover_services (before ++ (f, Provides cls) :: after)) url).
Proof.
  intros Hglob Hname.
  assert (Hgen : is_Some (_discover_services (before ++ (f, Provides cls) :: after)
                            !! "generic")).
  { unfold _discover_services. rewrite List.filter_app. cbn [List.filter fst].
    rewrite Hglob. now apply discover_loop_generic. }
  unfold get_service_for_url, lookup.
  destruct (URLParser.detect_platform url) as [p|]; [|exact Hgen].
  destruct (Str.truthy p); [|exact Hgen].
  destruct (_discover_services _ !! p); [eauto|].
  destruct Hgen as [g ->]. eauto.
Qed.

Lemma fallback_serves_every_url_witness :
  is_Some (get_service_for_url
             (_discover_services
                ([("tiktok_service.py", Provides "TikTokDownloaderService")] ++
                 ("ytdlp_service.py", Provides "YTDLPService") :: []))
             "https://example.org/clip").
Proof.
  apply (fallback_serves_every_url
           [("tiktok_service.py", Provides "TikTokDownloaderService")] []
           "ytdlp_service.py" "YTDLPService" "https://example.org/clip");
    reflexivity.
Defined.

End Discovery.

(** ** The download semaphore: no job is stuck *)

Module ProgressFacts.
Import Dispatcher DispatcherFacts.

(** How many steps a job has before it. *)
Definition rank (p : phase) : nat :=
  match p with
  | Queued => 5 | Waiting => 4 | Holding => 3 | Fetching => 2 | Finishing => 1 | Done => 0
  end.

Definition work (l : list phase) : nat := fold_right (fun p acc => rank p + acc) 0 l.

Lemma work_insert (l : list phase) (i : nat) (p q : phase) :
  l !! i = Some p -> work (<[i := q]> l) + rank p = work l + rank q.
Proof.
  revert i. induction l as [|x l IH]; intros [|i] H; try discriminate.
  - injection H as ->. cbn. lia.
  - change (<[S i := q]> (x :: l)) with (x :: <[i := q]> l).
    unfold work in *. cbn [fold_right]. specialize (IH i H). lia.
Qed.

Lemma move_ok (i : nat) (from to : phase) (s : state) :
  jobs s !! i = Some from ->
  move i from to s = Some (mkState (value s) (<[i := to]> (jobs s))).
Proof. intros H. unfold move. rewrite H. now rewrite bool_decide_true. Qed.

Lemma no_holder_holders (l : list phase) :
  Forall (fun p => ~ is_holder p = true) l -> holders l = 0.
Proof.
  induction l as [|p l IH]; [reflexivity|]. intros H.
  apply Forall_cons in H as [Hp H]. rewrite holders_cons, (IH H).
  unfold weight. destruct (is_holder p); [now exfalso | reflexivity].
Qed.

Lemma no_waiter_true (l : list phase) :
  Forall (fun p => ~ p = Waiting) l -> no_waiter l = true.
Proof.
  induction l as [|p l IH]; [reflexivity|]. intros H.
  apply Forall_cons in H as [Hp H]. cbn. rewrite bool_decide_false by exact Hp.
  now apply IH.
Qed.

Lemma started_before_true (i : nat) (l : list phase) :
  (forall j y, l !! j = Some y -> j < i -> ~ y = Queued) -> started_before i l = true.
Proof.
  revert i. induction l as [|p l IH]; intros [|i] H; try reflexivity.
  cbn. rewrite bool_decide_false by (apply (H 0 p eq_refl); lia).
  apply IH. intros j y Hj Hlt. apply (H (S j) y Hj). lia.
Qed.

(** Unless every job is over, some job can take a step, as long as the
    semaphore was created with a permit. *)
Lemma can_step (bound : nat) (s : state) :
  0 < bound -> value s + holders (jobs s) = bound ->
  ~ Forall (fun p => p = Done) (jobs s) ->
  exists ev s', step ev s = Some s' /\ work (jobs s') < work (jobs s).
Proof.
  intros Hb Hinv Hnot.
  destruct (list_find (fun p => is_holder p = true) (jobs s)) as [[i p]|] eqn:Eh.
  { apply list_find_Some in Eh as (Hi & Hp & _).
    destruct p; try discriminate Hp.
    - exists (FetchBegin i). eexists. split; [apply (move_ok _ _ _ _ Hi)|].
      cbn [jobs]. pose proof (work_insert _ _ _ Fetching Hi). cbn in *. lia.
    - exists (FetchEnd i). eexists. split; [apply (move_ok _ _ _ _ Hi)|].
      cbn [jobs]. pose proof (work_insert _ _ _ Finishing Hi). cbn in *. lia.
    - exists (Release i). eexists.
      split; [apply (move_ok i Finishing Done (mkState _ _) Hi)|].
      cbn [jobs]. pose proof (work_insert _ _ _ Done Hi). cbn in *. lia. }
  apply list_find_None in Eh. rewrite (no_holder_holders _ Eh) in Hinv.
  assert (Hpos : (0 <? value s)%nat = true) by (apply Nat.ltb_lt; lia).
  destruct (list_find (fun p => p = Waiting) (jobs s)) as [[i p]|] eqn:Ew.
  { apply list_find_Some in Ew as (Hi & -> & _).
    exists (Wake i). eexists. split.
    - cbn [step]. rewrite Hpos. apply (move_ok i Waiting Holding (mkState _ _) Hi).
    - cbn [jobs]. pose proof (work_insert _ _ _ Holding Hi). cbn in *. lia. }
  apply list_find_None in Ew.
  destruct (list_find (fun p => p = Queued) (jobs s)) as [[i p]|] eqn:Eq.
  { apply list_find_Some in Eq as (Hi & -> & Hfirst).
    exists (Start i false). eexists. split.
    - cbn [step]. rewrite (started_before_true _ _ Hfirst), Hpos, (no_waiter_true _ Ew).
      cbn [orb andb]. apply (move_ok i Queued Holding (mkState _ _) Hi).
    - cbn [jobs]. pose proof (work_insert _ _ _ Holding Hi). cbn in *. lia. }
  apply list_find_None in Eq. exfalso. apply Hnot.
  rewrite Forall_forall in Eh, Ew, Eq |- *. intros p Hp.
  specialize (Eh p Hp). specialize (Ew p Hp). specialize (Eq p Hp).
  destruct p; try reflexivity; try congruence; now exfalso.
Qed.

Lemma all_done_holders (l : list phase) :
  Forall (fun p => p = Done) l -> holders l = 0.
Proof.
  intros H. apply no_holder_holders. eapply Forall_impl; [exact H|].
  intros p -> Hp. discriminate Hp.
Qed.

Lemma can_finish (bound : nat) (k : nat) (s : state) :
  0 < bound -> value s + holders (jobs s) = bound -> work (jobs s) <= k ->
  exists more s', run more s = Some s' /\ Forall (fun p => p = Done) (jobs s') /\
                  value s' = bound.
Proof.
  intros Hb. revert s. induction k as [|k IH]; intros s Hinv Hk.
  - destruct (decide (Forall (fun p => p = Done) (jobs s))) as [Hd|Hn].
    + exists [], s. split; [reflexivity|]. split; [exact Hd|].
      rewrite (all_done_holders _ Hd) in Hinv. lia.
    + destruct (can_step bound s Hb Hinv Hn) as (ev & s1 & _ & Hlt). lia.
  - destruct (decide (Forall (fun p => p = Done) (jobs s))) as [Hd|Hn].
    + exists [], s. split; [reflexivity|]. split; [exact Hd|].
      rewrite (all_done_holders _ Hd) in Hinv. lia.
    + destruct (can_step bound s Hb Hinv Hn) as (ev & s1 & Hstep & Hlt).
      destruct (IH s1) as (more & s' & Hrun & Hdone & Hval).
      * rewrite (step_permits _ _ _ Hstep). exact Hinv.
      * lia.
      * exists (ev :: more), s'. split; [|now split].
        cbn [run]. now rewrite Hstep.
Qed.

End ProgressFacts.

Section Progress.
Import Dispatcher DispatcherFacts ProgressFacts.

(** X19. With a bound of one or more, the jobs are never stuck behind the
    semaphore: from whatever state the submitted jobs have reached, by
    whatever steps, there are further steps after which every job is over
    and every permit is back. *)
Theorem jobs_can_all_finish (max_concurrent_downloads : Z) (n : nat)
  (evs : list event) (s0 s : state) :
  (0 < max_concurrent_downloads)%Z ->
  init max_concurrent_downloads n = Some s0 ->
  run evs s0 = Some s ->
  exists more s',
    run more s = Some s' /\
    Forall (fun p => p = Done) (jobs s') /\
    value s' = Z.to_nat max_concurrent_downloads.
Proof.
  intros Hmax Hinit Hrun.
  destruct (init_first_served _ _ _ Hinit) as [Hinv _].
  apply (can_finish (Z.to_nat max_concurrent_downloads) (work (jobs s)) s).
  - lia.
  - rewrite (run_permits _ _ _ Hrun). exact Hinv.
  - lia.
Qed.

Lemma jobs_can_all_finish_witness :
  exists more s',
    run more (mkState 0 [Fetching; Waiting; Queued]) = Some s' /\
    Forall (fun p => p = Done) (jobs s') /\
    value s' = Z.to_nat 1.
Proof.
  apply (jobs_can_all_finish 1 3 [Start 0 false; Start 1 false; FetchBegin 0]
           (mkState 1 [Queued; Queued; Queued]) (mkState 0 [Fetching; Waiting; Queued])).
  - lia.
  - reflexivity.
  - reflexivity.
Defined.

End Progress.

(** ** The handlers: what a request puts on the queue *)

Module HandlerFacts.
Import Handlers.

(** The task queued for the pair [up] of a url and its platform, and its
    record: the key of the record was free in the table [before], and in the
    table [after] it holds a pending row for the sender of [m]. *)
Definition queued_for (m : message) (before after : gmap Z DB.DownloadHistory)
  (now : Z) (task : Bot.task_data) (up : string * string) : Prop :=
  Bot.url task = up.1 /\ Bot.platform task = up.2 /\
  Bot.user_id task = from_user_id m /\ Bot.chat_id task = msg_chat_id m /\
  Bot.message_id task = msg_id m /\
  before !! Bot.record_id task = None /\
  after !! Bot.record_id task
  = Some (DB.mkRow (from_user_id m) up.1 up.2 "pending" None None now None None).

(** What the loop over the urls does. *)
Lemma queue_loop_spec (m : message) (urls : list (string * string)) (d : desk) :
  (queue_loop m urls d).1 = inr tt /\
  users (queue_loop m urls d).2 = users d /\
  utcnow (queue_loop m urls d).2 = utcnow d /\
  answers (queue_loop m urls d).2 = answers d /\
  answered (queue_loop m urls d).2 = answered d /\
  shutdown_event (queue_loop m urls d).2 = shutdown_event d /\
  exists new,
    download_queue (queue_loop m urls d).2 = download_queue d ++ new /\
    Forall2 (queued_for m (downloads d) (downloads (queue_loop m urls d).2) (utcnow d))
      new urls /\
    NoDup (Bot.record_id <$> new) /\
    (forall k, is_Some (downloads d !! k) ->
               downloads (queue_loop m urls d).2 !! k = downloads d !! k).
Proof.
  revert d. induction urls as [|[u p] rest IH]; intros d.
  - cbn. repeat split. exists []. rewrite app_nil_r.
    repeat split; constructor.
  - set (rid := DB.next_id (downloads d)).
    set (row := DB.mkRow (from_user_id m) u p "pending" None None (utcnow d) None None).
    set (task := Bot.mkTask rid (from_user_id m) (msg_chat_id m) (msg_id m) u p).
    set (d1 := set_journal
                 (journal d ++ [("INFO", "Queued download: " +:+ u +:+ " for user " +:+
                                         pretty (from_user_id m))])
                 (set_download_queue (download_queue d ++ [task])
                    (set_downloads (<[rid := row]> (downloads d)) d))).
    assert (E : queue_loop m ((u, p) :: rest) d = queue_loop m rest d1) by reflexivity.
    rewrite E. clear E.
    destruct (IH d1) as (H1 & H2 & H3 & H4 & H5 & H6 & new & Hq & Hall & Hnd & Hframe).
    assert (Hfresh : downloads d !! rid = None) by apply DBFacts.next_id_fresh.
    assert (Hrow : downloads (queue_loop m rest d1).2 !! rid = Some row).
    { rewrite Hframe; cbn [downloads d1 set_journal set_download_queue set_downloads];
        rewrite lookup_insert_eq; eauto. }
    repeat split; try assumption.
    exists (task :: new). split; [|split; [|split]].
    + rewrite Hq. cbn [download_queue d1 set_journal set_download_queue set_downloads].
      now rewrite <- app_assoc.
    + constructor.
      * repeat split; try reflexivity; assumption.
      * eapply Forall2_impl; [exact Hall|].
        intros t' up (A1 & A2 & A3 & A4 & A5 & A6 & A7).
        repeat split; try assumption.
        cbn [downloads d1 set_journal set_download_queue set_downloads] in A6.
        apply lookup_insert_None in A6 as [A6 _]. exact A6.
    + cbn [fmap list_fmap]. constructor; [|exact Hnd].
      intros Hin. apply list_elem_of_fmap in Hin as (t' & Ht' & Hin).
      apply list_elem_of_lookup in Hin as [i Hi].
      destruct (Forall2_lookup_l _ _ _ _ _ Hall Hi) as (up & _ & Hup).
      destruct Hup as (_ & _ & _ & _ & _ & A6 & _).
      cbn [downloads d1 set_journal set_download_queue set_downloads] in A6.
      change (Bot.record_id task) with rid in Ht'. rewrite <- Ht' in A6.
      rewrite lookup_insert_eq in A6. discriminate.
    + intros k Hk. rewrite Hframe;
        cbn [downloads d1 set_journal set_download_queue set_downloads].
      * apply lookup_insert_ne. intros <-. rewrite Hfresh in Hk.
        destruct Hk as [? Hk]. discriminate.
      * rewrite lookup_insert_ne; [exact Hk|]. intros <-. rewrite Hfresh in Hk.
        destruct Hk as [? Hk]. discriminate.
Qed.

(** An answer changes the record of the answers and nothing else. *)
Lemma say_frame (a : answer) (d : desk) :
  users (say a d).2 = users d /\ downloads (say a d).2 = downloads d /\
  download_queue (say a d).2 = download_queue d /\
  shutdown_event (say a d).2 = shutdown_event d.
Proof. unfold say. destruct (answers d) as [|[e|] rest]; now repeat split. Qed.

(** What a request that is let through does to the queue and the tables. *)
Lemma request_spec (m : message) (d : desk) :
  Users.is_user_banned (from_user_id m) (users d) = false ->
  default None (head (answers d)) = None ->
  let d' := (process_download_request m d).2 in
  is_Some (users d' !! from_user_id m) /\
  exists new,
    download_queue d' = download_queue d ++ new /\
    Forall2 (queued_for m (downloads d) (downloads d') (utcnow d))
      new (URLParser.extract_urls (text m)) /\
    NoDup (Bot.record_id <$> new) /\
    (forall k, is_Some (downloads d !! k) -> downloads d' !! k = downloads d !! k).
Proof.
  intros Hban Hnet. cbv zeta. unfold process_download_request. rewrite Hban.
  set (d0 := set_users _ d).
  assert (Huser : is_Some (users d0 !! from_user_id m)).
  { unfold d0. cbn [users set_users]. unfold Users.get_or_create_user.
    destruct (users d !! from_user_id m); cbn [snd]; rewrite lookup_insert_eq; eauto. }
  destruct (URLParser.extract_urls (text m)) as [|up urls] eqn:Eurls.
  - destruct (say_frame
                (reply_text ("❌ No supported URLs found in your message." +:+ Bot.nl +:+
                             "Send /help to see supported platforms.")) d0)
      as (Hu & Hd & Hq & _).
    rewrite Hu, Hd, Hq. split; [exact Huser|].
    exists []. rewrite app_nil_r. repeat split; constructor.
  - set (a1 := reply_text _). set (a2 := edit_text _).
    unfold mbind, H_bind, hbind.
    assert (Hsay : say a1 d0
                   = (inr tt, set_answered (answered d0 ++ [(a1, None)])
                                (set_answers (tail (answers d0)) d0))).
    { unfold say. change (answers d0) with (answers d).
      destruct (answers d) as [|[e|] others]; [reflexivity | discriminate Hnet | reflexivity]. }
    rewrite Hsay. set (d1 := set_answered _ _).
    destruct (queue_loop_spec m (up :: urls) d1)
      as (H1 & H2 & _ & _ & _ & _ & new & Hq & Hall & Hnd & Hframe).
    destruct (queue_loop m (up :: urls) d1) as [[e|[]] d2]; [discriminate H1|].
    cbn [fst snd] in *.
    destruct (say_frame a2 d2) as (Hu & Hd & Hq2 & _).
    rewrite Hu, Hd, Hq2, H2. split; [exact Huser|].
    exists new. repeat split; assumption.
Qed.

End HandlerFacts.

Section Requests.
Import Handlers HandlerFacts.

(** X20. A request of a user who is not banned, when the transport accepts
    the first answer: the queue grows by one task for each pair that
    [extract_urls] finds in the text, in that order; each task carries the
    sender, the chat, the message, the url and the platform, and the key of
    a record that was not in the download history before and is a pending
    row for that sender, url and platform now. The keys differ from one
    another, the rows that were there are unchanged, and the sender is in the
    table of users. *)
Theorem request_queues_one_task_per_url (m : message) (d : desk) :
  Users.is_user_banned (from_user_id m) (users d) = false ->
  default None (head (answers d)) = None ->
  let d' := (process_download_request m d).2 in
  is_Some (users d' !! from_user_id m) /\
  exists new,
    download_queue d' = download_queue d ++ new /\
    Forall2 (queued_for m (downloads d) (downloads d') (utcnow d))
      new (URLParser.extract_urls (text m)) /\
    NoDup (Bot.record_id <$> new) /\
    (forall k, is_Some (downloads d !! k) -> downloads d' !! k = downloads d !! k).
Proof. apply HandlerFacts.request_spec. Qed.

Lemma request_queues_one_task_per_url_witness :
  let m := mkMessage 7 (Some "ann") (Some "Ann") None 100 55
             "see https://youtu.be/aB3 now" None in
  let d := mkDesk ∅ ∅ [] 1000 [] [] [] false in
  exists new,
    download_queue (process_download_request m d).2 = download_queue d ++ new /\
    Forall2 (queued_for m (downloads d) (downloads (process_download_request m d).2)
               (utcnow d))
      new (URLParser.extract_urls (text m)).
Proof.
  intros m d.
  assert (Hban : Users.is_user_banned (from_user_id m) (users d) = false)
    by reflexivity.
  assert (Hnet : default None (head (answers d)) = None) by reflexivity.
  destruct (request_queues_one_task_per_url m d Hban Hnet)
    as (_ & new & Hq & Hall & _).
  exists new. split; [exact Hq | exact Hall].
Defined.



(** X22. [/stop] stops the bot only when its acknowledgement is sent: the
    shutdown event is set after the answer, so when the transport refuses
    the answer the exception leaves the handler and the event stays as it
    was. *)
Theorem stop_needs_its_answer (m : message) (d : desk) :
  shutdown_event (handle_stop_command m d).2 =
  match default None (head (answers d)) with
  | None => true
  | Some _ => shutdown_event d
  end /\
  (handle_stop_command m d).1 =
  match default None (head (answers d)) with
  | None => inr tt
  | Some e => inl e
  end.
Proof.
  unfold handle_stop_command, mbind, H_bind, hbind, say, note, hmodify.
  destruct (answers d) as [|[e|] others]; cbn; split; reflexivity.
Qed.

End Requests.

(** ** The shortcode of an Instagram url *)

Module ShortcodeFacts.
Import Str Shortcode.

Lemma span_spec (p : ascii -> bool) (s u r : string) :
  span p s = (u, r) ->
  s = u +:+ r /\ all_chars p u = true /\
  match r with "" => True | String c _ => p c = false end.
Proof.
  revert u r. induction s as [|c s IH]; cbn; intros u r.
  - intros [= <- <-]. now repeat split.
  - destruct (p c) eqn:Ec.
    + destruct (span p s) as [u' r'] eqn:E. intros [= <- <-].
      destruct (IH u' r' eq_refl) as (-> & Hall & Hr).
      cbn. rewrite Ec. now repeat split.
    + intros [= <- <-]. now repeat split.
Qed.

Lemma group_at_spec (lit s w : string) :
  group_at lit s = Some w ->
  w <> "" /\ all_chars URLParser.word_dash w = true /\
  exists after, s = lit +:+ w +:+ after /\
                match after with
                | "" => True
                | String c _ => URLParser.word_dash c = false
                end.
Proof.
  unfold group_at. destruct (strip_prefix lit s) as [t|] eqn:Et; [|discriminate].
  destruct (span URLParser.word_dash t) as [u r] eqn:Es.
  destruct u as [|c u]; [discriminate|]. intros [= <-].
  destruct (span_spec _ _ _ _ Es) as (-> & Hall & Hr).
  split; [discriminate|]. split; [exact Hall|].
  exists r. split; [|exact Hr]. now apply StrFacts.strip_prefix_app.
Qed.

Lemma search_group_spec (lit s w : string) :
  search_group lit s = Some w ->
  w <> "" /\ all_chars URLParser.word_dash w = true /\
  exists before after, s = before +:+ lit +:+ w +:+ after /\
                       match after with
                       | "" => True
                       | String c _ => URLParser.word_dash c = false
                       end.
Proof.
  induction s as [|c s IH]; cbn [search_group].
  - destruct (group_at lit "") as [w'|] eqn:E; [|discriminate].
    intros [= ->]. destruct (group_at_spec _ _ _ E) as (Hn & Hall & after & Hs & Ha).
    repeat split; try assumption. now exists "", after.
  - destruct (group_at lit (String c s)) as [w'|] eqn:E.
    + intros [= ->]. destruct (group_at_spec _ _ _ E) as (Hn & Hall & after & Hs & Ha).
      repeat split; try assumption. now exists "", after.
    + intros H. destruct (IH H) as (Hn & Hall & before & after & -> & Ha).
      repeat split; try assumption. now exists (String c before), after.
Qed.

Lemma span_head (p : ascii -> bool) (c : ascii) (s : string) :
  p c = true -> exists u r, span p (String c s) = (String c u, r).
Proof. intros H. cbn. rewrite H. destruct (span p s) as [u r]. eauto. Qed.

(** Where the literal is followed by a character of the class, the search
    finds a group, there or before. *)
Lemma search_group_found (lit before : string) (c : ascii) (rest : string) :
  URLParser.word_dash c = true ->
  exists w, search_group lit (before +:+ lit +:+ String c rest) = Some w.
Proof.
  intros Hc.
  assert (Hhere : exists w, group_at lit (lit +:+ String c rest) = Some w).
  { unfold group_at. rewrite StrFacts.strip_prefix_of_app.
    destruct (span_head _ c rest Hc) as (u & r & ->). eauto. }
  assert (Hunfold : forall s,
             search_group lit s =
             match group_at lit s with
             | Some w => Some w
             | None => match s with "" => None | String _ s' => search_group lit s' end
             end) by (intros [|? ?]; reflexivity).
  induction before as [|x before IH].
  - rewrite StrFacts.app_nil_l, Hunfold. destruct Hhere as [w ->]. eauto.
  - rewrite StrFacts.app_cons, Hunfold.
    destruct (group_at lit (String x _)); [eauto | exact IH].
Qed.

End ShortcodeFacts.

Section InstagramShortcode.
Import Str Shortcode ShortcodeFacts.

Example shortcode_of_a_reel :
  extract_instagram_shortcode "https://www.instagram.com/reel/Cx_9-aB/?igshid=1"
  = Some "Cx_9-aB".
Proof. vm_compute. reflexivity. Qed.

Example shortcode_needs_lower_case :
  URLParser.detect_platform "https://www.Instagram.com/reel/Cx_9-aB/" = Some "instagram" /\
  extract_instagram_shortcode "https://www.Instagram.com/reel/Cx_9-aB/" = None.
Proof. vm_compute. split; reflexivity. Qed.

(** X23. A shortcode that [extract_instagram_shortcode] returns is not
    empty, is made of letters, digits, [_] and [-], and stands in the url
    right behind [instagram.com/p/], [instagram.com/reel/] or
    [instagram.com/tv/] written in lower case, up to the first character
    that is none of these. And a url in which one of the three, in this
    spelling, is followed by such a character has a shortcode. *)
Theorem shortcode_stands_in_the_url (url : string) :
  (forall code,
     extract_instagram_shortcode url = Some code ->
     code <> "" /\ all_chars URLParser.word_dash code = true /\
     exists kind before after,
       kind ∈ ["p"; "reel"; "tv"] /\
       url = before +:+ ("instagram.com/" +:+ kind +:+ "/") +:+ code +:+ after /\
       match after with
       | "" => True
       | String c _ => URLParser.word_dash c = false
       end) /\
  (forall kind before c rest,
     kind ∈ ["p"; "reel"; "tv"] ->
     URLParser.word_dash c = true ->
     url = before +:+ ("instagram.com/" +:+ kind +:+ "/") +:+ String c rest ->
     is_Some (extract_instagram_shortcode url)).
Proof.
  split.
  - intros code. unfold extract_instagram_shortcode. cbn [first_group].
    destruct (search_group "instagram.com/p/" url) as [w|] eqn:E1.
    { intros [= ->].
      destruct (search_group_spec _ _ _ E1) as (Hn & Hall & b & a & Hs & Ha).
      repeat split; try assumption. exists "p", b, a.
      split; [apply list_elem_of_here | now split]. }
    destruct (search_group "instagram.com/reel/" url) as [w|] eqn:E2.
    { intros [= ->].
      destruct (search_group_spec _ _ _ E2) as (Hn & Hall & b & a & Hs & Ha).
      repeat split; try assumption. exists "reel", b, a.
      split; [apply list_elem_of_further, list_elem_of_here | now split]. }
    destruct (search_group "instagram.com/tv/" url) as [w|] eqn:E3; [|discriminate].
    intros [= ->].
    destruct (search_group_spec _ _ _ E3) as (Hn & Hall & b & a & Hs & Ha).
    repeat split; try assumption. exists "tv", b, a.
    split; [do 2 apply list_elem_of_further; apply list_elem_of_here | now split].
  - intros kind before c rest Hkind Hc ->.
    unfold extract_instagram_shortcode. cbn [first_group].
    repeat (apply elem_of_cons in Hkind as [-> | Hkind]);
      [ | | | apply elem_of_nil in Hkind; contradiction ].
    + change ("instagram.com/" +:+ "p" +:+ "/") with "instagram.com/p/".
      destruct (search_group_found "instagram.com/p/" before c rest Hc) as [w ->]. eauto.
    + change ("instagram.com/" +:+ "reel" +:+ "/") with "instagram.com/reel/".
      destruct (search_group "instagram.com/p/" _); [eauto|].
      destruct (search_group_found "instagram.com/reel/" before c rest Hc) as [w ->]. eauto.
    + change ("instagram.com/" +:+ "tv" +:+ "/") with "instagram.com/tv/".
      destruct (search_group "instagram.com/p/" _); [eauto|].
      destruct (search_group "instagram.com/reel/" _); [eauto|].
      destruct (search_group_found "instagram.com/tv/" before c rest Hc) as [w ->]. eauto.
Qed.

End InstagramShortcode.

(** ** From the request to the end of the job *)

Section RequestToJob.
Import Handlers HandlerFacts.

(** X25. A task that a request has put on the queue, run by the download
    job on the download history the handler left: the job finds the record
    of the task, the record is the one of the sender of the request, with
    the url and the platform of the task, and the job, unless its task is
    cancelled, leaves it completed or failed. *)
Theorem queued_task_is_settled (m : message) (d : desk) (E : Bot.env) (w : Bot.world)
  (task : Bot.task_data) :
  Users.is_user_banned (from_user_id m) (users d) = false ->
  default None (head (answers d)) = None ->
  task ∈ download_queue (process_download_request m d).2 ->
  task ∉ download_queue d ->
  Bot.ledger w = downloads (process_download_request m d).2 ->
  exists row,
    Bot.ledger (Bot.process_download_task E task w).2 !! Bot.record_id task = Some row /\
    (DB.status row = "completed" \/ DB.status row = "failed") /\
    DB.user_id row = from_user_id m /\
    DB.url row = Bot.url task /\ DB.platform row = Bot.platform task.
Proof.
  intros Hban Hnet Hin Hold Hledger.
  destruct (request_spec m d Hban Hnet) as (_ & new & Hq & Hall & _).
  cbv zeta in Hq, Hall. rewrite Hq in Hin.
  apply elem_of_app in Hin as [Hin|Hin]; [contradiction|].
  apply list_elem_of_lookup in Hin as [i Hi].
  destruct (Forall2_lookup_l _ _ _ _ _ Hall Hi) as (up & _ & Hup).
  destruct Hup as (Hurl & Hplat & _ & _ & _ & _ & Hrow).
  rewrite <- Hledger in Hrow.
  destruct (Outcome.job_settles E task w ltac:(eauto)) as (row & Hafter & Hstatus).
  exists row. split; [exact Hafter|]. split; [exact Hstatus|].
  pose proof (Outcome.job_evolving E task w (Bot.record_id task)) as Hev.
  rewrite Hrow, Hafter in Hev. destruct Hev as (_ & Hu & Hl & Hp & _).
  rewrite Hu, Hl, Hp, Hurl, Hplat. now repeat split.
Qed.

Lemma queued_task_is_settled_witness :
  let m := mkMessage 7 (Some "ann") (Some "Ann") None 100 55
             "see https://youtu.be/aB3 now" None in
  let d := mkDesk ∅ ∅ [] 1000 [] [] [] false in
  let task := Bot.mkTask 1 7 100 55 "https://youtu.be/aB3" "youtube" in
  let E := Fixtures.env_returning (Bot.mkResult false [] None None) in
  let w := Bot.mkWorld (downloads (process_download_request m d).2) ∅ 2000 [] [] [] [] [] in
  exists row,
    Bot.ledger (Bot.process_download_task E task w).2 !! 1%Z = Some row /\
    (DB.status row = "completed" \/ DB.status row = "failed").
Proof.
  intros m d task E w.
  assert (Hban : Users.is_user_banned (from_user_id m) (users d) = false)
    by reflexivity.
  assert (Hnet : default None (head (answers d)) = None) by reflexivity.
  assert (Hin : task ∈ download_queue (process_download_request m d).2).
  { replace (download_queue (process_download_request m d).2) with [task]
      by (vm_compute; reflexivity).
    apply list_elem_of_here. }
  assert (Hold : task ∉ download_queue d) by apply not_elem_of_nil.
  destruct (queued_task_is_settled m d E w task Hban Hnet Hin Hold eq_refl)
    as (row & Hrow & Hst & _).
  exists row. split; [exact Hrow | exact Hst].
Defined.

End RequestToJob.
